(** * Lending engine of the library back office (src/1.py)

    A shallow embedding of the entity model (Author, Book, User, Loan), of
    the sqlite3 store the engine talks to, and of [LibrarySystem] with its
    in-memory cache, followed by the properties of the specification.

    Modelling conventions.
    - Python objects that are shared and mutated ([Book], [User]) live in a
      heap, a list indexed by address; a reference is an address.  Creating
      an object appends it to the heap.
    - A [datetime] is an integer count of microseconds; [datetime.now()] is
      an argument of the operation that reads the clock.  The calendar's
      upper bound (year 9999) is outside the model.
    - The store is the content of the five tables together with the
      AUTOINCREMENT counters.  A connection keeps the committed content and
      the content seen inside the open transaction.  The only sqlite3 errors
      of the model are the constraint violations of the schema (UNIQUE on
      authors.name, CHECK on books.year); input/output failures are outside
      it.  Foreign keys are declared by the schema but not enforced, as the
      engine never switches their enforcement on.
    - A Python [int] has no bound, a SQLite INTEGER has 64 bits.  An int
      that a caller passes is converted when it is bound to a statement:
      outside the 64-bit signed range [execute] raises OverflowError
      before the statement runs.  That is not a [sqlite3.Error], so no
      handler of the engine catches it and nothing is rolled back.  The
      integers that come back from the store bind without error; so do
      the ids that [issue_book] and [return_book] bind, which are those
      of objects found in the cached lists. *)

From Stdlib Require Import ZArith Lia.
From stdpp Require Import base option list strings numbers pretty.

Open Scope Z_scope.

(** A reference to a heap object. *)
Abbreviation ref := nat (only parsing).

(** A [datetime], as a count of microseconds. *)
Abbreviation datetime := Z (only parsing).

(** [timedelta(days=d)], in microseconds. *)
Definition timedelta_days (d : Z) : Z := d * 86400 * 1000000.

(** [timedelta(seconds=n)], in microseconds. *)
Definition seconds (n : Z) : Z := n * 1000000.

(** The two values of the status column. *)
Definition AVAILABLE : string := "доступна".
Definition ON_LOAN : string := "выдана".

(** ** Entity model *)

Module Author.

(** The engine never calls [set_bio] on an [Author] it holds, so authors
    are kept by value. *)
Record t := mk { _id : Z; _name : string; _bio : string }.

Definition get_id (a : t) : Z := _id a.
Definition get_name (a : t) : string := _name a.
Definition get_bio (a : t) : string := _bio a.
Definition set_bio (a : t) (bio : string) : t := mk (_id a) (_name a) bio.

End Author.

Module Book.

Record t := mk {
  _id : Z;
  _title : string;
  _author : Author.t;
  _year : Z;
  _status : string
}.

Definition get_id (b : t) : Z := _id b.
Definition get_title (b : t) : string := _title b.
Definition get_status (b : t) : string := _status b.

Definition set_title (b : t) (title : string) : t :=
  mk (_id b) title (_author b) (_year b) (_status b).

(** [None] stands for the ValueError of a non-positive year. *)
Definition set_year (b : t) (year : Z) : option t :=
  if bool_decide (year > 0)
  then Some (mk (_id b) (_title b) (_author b) year (_status b))
  else None.

Definition is_available (b : t) : bool :=
  bool_decide (_status b = AVAILABLE).

Definition set_status (b : t) (status : string) : t :=
  mk (_id b) (_title b) (_author b) (_year b) status.

End Book.

Module User.

Definition MAX_BOOKS : nat := 3.

(** [_borrowed_books] holds references to [Book] objects. *)
Record t := mk {
  _name : string;
  _id : Z;
  _borrowed_books : list ref
}.

(** [User(name, user_id)]: the borrowed list starts empty. *)
Definition new (name : string) (user_id : Z) : t := mk name user_id [].

Definition get_id (u : t) : Z := _id u.
Definition get_name (u : t) : string := _name u.
Definition set_name (u : t) (name : string) : t :=
  mk name (_id u) (_borrowed_books u).

Definition get_borrowed_books (u : t) : list ref := _borrowed_books u.
Definition get_borrowed_count (u : t) : nat := length (_borrowed_books u).

Definition borrow_book (u : t) (book : ref) : bool * t :=
  if bool_decide (length (_borrowed_books u) < MAX_BOOKS)%nat
  then (true, mk (_name u) (_id u) (_borrowed_books u ++ [book]))
  else (false, u).

(** [list.remove]: drops the first occurrence.  [Book] defines no
    equality of its own, so [in] and [remove] compare references. *)
Fixpoint remove_first (book : ref) (l : list ref) : list ref :=
  match l with
  | [] => []
  | x :: rest => if bool_decide (x = book) then rest
                 else x :: remove_first book rest
  end.

Definition return_book (u : t) (book : ref) : bool * t :=
  if bool_decide (book ∈ _borrowed_books u)
  then (true, mk (_name u) (_id u) (remove_first book (_borrowed_books u)))
  else (false, u).

End User.

Module Librarian.

Definition MAX_BOOKS_LIBRARIAN : nat := 5.

Record t := mk {
  _name : string;
  _id : Z;
  _access_level : Z;
  _borrowed_books : list ref
}.

Definition new (name : string) (librarian_id access_level : Z) : t :=
  mk name librarian_id access_level [].

(** [get_id] and [get_name] are those of [Person]. *)
Definition get_id (l : t) : Z := _id l.
Definition get_name (l : t) : string := _name l.

Definition get_access_level (l : t) : Z := _access_level l.

Definition set_access_level (l : t) (level : Z) : t :=
  mk (_name l) (_id l) level (_borrowed_books l).

Definition borrow_book (l : t) (book : ref) : bool * t :=
  if bool_decide (length (_borrowed_books l) < MAX_BOOKS_LIBRARIAN)%nat
  then (true, mk (_name l) (_id l) (_access_level l) (_borrowed_books l ++ [book]))
  else (false, l).

End Librarian.

Module Loan.

Definition LOAN_DAYS : Z := 14.

(** A loan refers to its book and user objects; it is itself held only
    by the engine's loan list, where it is updated in place. *)
Record t := mk {
  _id : Z;
  _book : ref;
  _user : ref;
  _issue_date : datetime;
  _return_date : option datetime
}.

Definition get_id (l : t) : Z := _id l.
Definition get_book (l : t) : ref := _book l.
Definition get_user (l : t) : ref := _user l.
Definition get_issue_date (l : t) : datetime := _issue_date l.
Definition get_return_date (l : t) : option datetime := _return_date l.

Definition return_book (l : t) (return_date : datetime) : t :=
  mk (_id l) (_book l) (_user l) (_issue_date l) (Some return_date).

(** [now] is the value of [datetime.now()] read by the call. *)
Definition is_overdue (now : datetime) (l : t) : bool :=
  match _return_date l with
  | None =>
      let due_date := _issue_date l + timedelta_days LOAN_DAYS in
      bool_decide (now > due_date)
  | Some _ => false
  end.

End Loan.

(** ** The sqlite3 store *)

Module Sqlite.

Record AuthorRow := mkAuthorRow { ar_id : Z; ar_name : string; ar_bio : string }.

Record BookRow := mkBookRow {
  br_id : Z;
  br_title : string;
  br_author_id : Z;
  br_year : Z;
  br_status : string
}.

Record UserRow := mkUserRow { ur_id : Z; ur_name : string }.

Record LibrarianRow := mkLibrarianRow {
  lr_id : Z;
  lr_name : string;
  lr_access_level : Z
}.

(** Timestamps are stored as ISO-8601 text; [isoformat] followed by
    [fromisoformat] is the identity, so a row carries the timestamp. *)
Record LoanRow := mkLoanRow {
  lo_id : Z;
  lo_book_id : Z;
  lo_user_id : Z;
  lo_issue_date : datetime;
  lo_return_date : option datetime
}.

(** The content of the database file.  Rows are kept in rowid order;
    the [seq_] fields are the sqlite_sequence entries of the
    AUTOINCREMENT tables. *)
Record Tables := mkTables {
  authors : list AuthorRow;
  books : list BookRow;
  users : list UserRow;
  librarians : list LibrarianRow;
  loans : list LoanRow;
  seq_authors : Z;
  seq_books : Z;
  seq_users : Z;
  seq_loans : Z
}.

(** A file on which [_create_tables] has just created the schema. *)
Definition empty : Tables := mkTables [] [] [] [] [] 0 0 0 0.

Definition set_authors (t : Tables) (rows : list AuthorRow) (seq : Z) : Tables :=
  mkTables rows (books t) (users t) (librarians t) (loans t)
           seq (seq_books t) (seq_users t) (seq_loans t).

Definition set_books (t : Tables) (rows : list BookRow) (seq : Z) : Tables :=
  mkTables (authors t) rows (users t) (librarians t) (loans t)
           (seq_authors t) seq (seq_users t) (seq_loans t).

Definition set_users (t : Tables) (rows : list UserRow) (seq : Z) : Tables :=
  mkTables (authors t) (books t) rows (librarians t) (loans t)
           (seq_authors t) (seq_books t) seq (seq_loans t).

Definition set_loans (t : Tables) (rows : list LoanRow) (seq : Z) : Tables :=
  mkTables (authors t) (books t) (users t) (librarians t) rows
           (seq_authors t) (seq_books t) (seq_users t) seq.

(** The Python ints that can be bound to a statement. *)
Definition is_int64 (z : Z) : Prop := - 2 ^ 63 ≤ z < 2 ^ 63.

#[global] Instance is_int64_dec z : Decision (is_int64 z).
Proof. unfold is_int64. apply _. Defined.

(** AUTOINCREMENT: one more than the largest rowid the table ever held. *)
Definition max_rowid (ids : list Z) : Z := foldr Z.max 0 ids.

Definition next_rowid (seq : Z) (ids : list Z) : Z :=
  Z.max seq (max_rowid ids) + 1.

(** [sqlite3.IntegrityError], the one [sqlite3.Error] of the model. *)
Inductive Error := IntegrityError.

Inductive result (A : Type) :=
| Ok (a : A)
| Err (e : Error).
Arguments Ok {A} a.
Arguments Err {A} e.

#[global] Instance result_bind : MBind result := λ A B k r,
  match r with
  | Ok a => k a
  | Err e => Err e
  end.

(** *** Queries *)

(** [SELECT id, name, bio FROM authors WHERE id=?], [fetchone]. *)
Definition select_author (t : Tables) (author_id : Z) : option AuthorRow :=
  snd <$> list_find (λ r, ar_id r = author_id) (authors t).

(** [SELECT id FROM authors WHERE name=?], [fetchone]. *)
Definition select_author_id (t : Tables) (name : string) : option Z :=
  (ar_id ∘ snd) <$> list_find (λ r, ar_name r = name) (authors t).

(** [SELECT id, title, author_id, year, status FROM books WHERE id=?]. *)
Definition select_book (t : Tables) (book_id : Z) : option BookRow :=
  snd <$> list_find (λ r, br_id r = book_id) (books t).

(** [SELECT id, name FROM users WHERE id=?]. *)
Definition select_user (t : Tables) (user_id : Z) : option UserRow :=
  snd <$> list_find (λ r, ur_id r = user_id) (users t).

(** [SELECT id, name, access_level FROM librarians WHERE id=?]. *)
Definition select_librarian (t : Tables) (librarian_id : Z) : option LibrarianRow :=
  snd <$> list_find (λ r, lr_id r = librarian_id) (librarians t).

(** *** Statements.  An INSERT also yields [cursor.lastrowid]. *)

(** [INSERT INTO authors (name, bio)]; [name] is UNIQUE. *)
Definition insert_author (name bio : string) (t : Tables) : result (Z * Tables) :=
  if bool_decide (name ∈ ar_name <$> authors t) then Err IntegrityError
  else
    let id := next_rowid (seq_authors t) (ar_id <$> authors t) in
    Ok (id, set_authors t (authors t ++ [mkAuthorRow id name bio]) id).

(** [INSERT INTO books (title, author_id, year, status)]; CHECK(year > 0). *)
Definition insert_book (title : string) (author_id year : Z) (status : string)
    (t : Tables) : result (Z * Tables) :=
  if bool_decide (year > 0) then
    let id := next_rowid (seq_books t) (br_id <$> books t) in
    Ok (id, set_books t (books t ++ [mkBookRow id title author_id year status]) id)
  else Err IntegrityError.

(** [INSERT INTO users (name)]. *)
Definition insert_user (name : string) (t : Tables) : Z * Tables :=
  let id := next_rowid (seq_users t) (ur_id <$> users t) in
  (id, set_users t (users t ++ [mkUserRow id name]) id).

(** [INSERT INTO loans (book_id, user_id, issue_date)]; return_date is NULL. *)
Definition insert_loan (book_id user_id : Z) (issue_date : datetime)
    (t : Tables) : Z * Tables :=
  let id := next_rowid (seq_loans t) (lo_id <$> loans t) in
  (id, set_loans t (loans t ++ [mkLoanRow id book_id user_id issue_date None]) id).

Definition update_where {A} (P : A → Prop) `{∀ x, Decision (P x)}
    (f : A → A) (rows : list A) : list A :=
  (λ r, if decide (P r) then f r else r) <$> rows.

(** [UPDATE books SET title=? WHERE id=?]. *)
Definition update_book_title (title : string) (book_id : Z) (t : Tables) : Tables :=
  set_books t
    (update_where (λ r, br_id r = book_id)
       (λ r, mkBookRow (br_id r) title (br_author_id r) (br_year r) (br_status r))
       (books t))
    (seq_books t).

(** [UPDATE books SET year=? WHERE id=?]; CHECK(year > 0) is evaluated
    for the rows that are updated. *)
Definition update_book_year (year book_id : Z) (t : Tables) : result Tables :=
  if bool_decide (year > 0) || bool_decide (book_id ∉ br_id <$> books t) then
    Ok (set_books t
          (update_where (λ r, br_id r = book_id)
             (λ r, mkBookRow (br_id r) (br_title r) (br_author_id r) year (br_status r))
             (books t))
          (seq_books t))
  else Err IntegrityError.

(** [UPDATE books SET status=? WHERE id=?]. *)
Definition update_book_status (status : string) (book_id : Z) (t : Tables) : Tables :=
  set_books t
    (update_where (λ r, br_id r = book_id)
       (λ r, mkBookRow (br_id r) (br_title r) (br_author_id r) (br_year r) status)
       (books t))
    (seq_books t).

(** [UPDATE authors SET bio=? WHERE id=(SELECT author_id FROM books WHERE id=?)].
    Without such a book the subquery is NULL and no row matches. *)
Definition update_author_bio_of_book (bio : string) (book_id : Z) (t : Tables) : Tables :=
  match select_book t book_id with
  | Some b =>
      set_authors t
        (update_where (λ r, ar_id r = br_author_id b)
           (λ r, mkAuthorRow (ar_id r) (ar_name r) bio)
           (authors t))
        (seq_authors t)
  | None => t
  end.

(** [UPDATE users SET name=? WHERE id=?]. *)
Definition update_user_name (name : string) (user_id : Z) (t : Tables) : Tables :=
  set_users t
    (update_where (λ r, ur_id r = user_id) (λ r, mkUserRow (ur_id r) name) (users t))
    (seq_users t).

(** [UPDATE loans SET return_date=? WHERE id=?]. *)
Definition update_loan_return_date (return_date : datetime) (loan_id : Z)
    (t : Tables) : Tables :=
  set_loans t
    (update_where (λ r, lo_id r = loan_id)
       (λ r, mkLoanRow (lo_id r) (lo_book_id r) (lo_user_id r) (lo_issue_date r)
                       (Some return_date))
       (loans t))
    (seq_loans t).

(** [DELETE FROM books WHERE id=?]. *)
Definition delete_book (book_id : Z) (t : Tables) : Tables :=
  set_books t (filter (λ r, br_id r ≠ book_id) (books t)) (seq_books t).

(** [DELETE FROM users WHERE id=?]. *)
Definition delete_user (user_id : Z) (t : Tables) : Tables :=
  set_users t (filter (λ r, ur_id r ≠ user_id) (users t)) (seq_users t).

(** *** The connection.  The first INSERT, UPDATE or DELETE after a
    commit opens a transaction; its effects are seen by the queries of
    the same connection and become durable at the next [commit]. *)
Record Connection := mkConnection {
  committed : Tables;
  working : Tables
}.

Definition connect (file : Tables) : Connection := mkConnection file file.

Definition execute (c : Connection) (w : Tables) : Connection :=
  mkConnection (committed c) w.

Definition commit (c : Connection) : Connection :=
  mkConnection (working c) (working c).

Definition rollback (c : Connection) : Connection :=
  mkConnection (committed c) (committed c).

End Sqlite.

(** ** The lending engine *)

(** What a Python call does when it ends: it returns a value or raises. *)
Inductive PyError := ValueError | OverflowError.

Inductive outcome (A : Type) :=
| Return (a : A)
| Raise (e : PyError).
Arguments Return {A} a.
Arguments Raise {A} e.

(** The record written to the log by [issue_book]. *)
Inductive IssueLog :=
| WarnUserNotFound (user_id : Z)
| WarnBookNotFound (book_id : Z)
| WarnBookNotAvailable (title : string)
| WarnLimitReached (name : string)
| InfoIssued (title name : string).

Module LibrarySystem.

Import Sqlite.

(** The engine object: its connection, the heaps of the [Book] and
    [User] objects created so far, and the cached lists. *)
Record t := mk {
  _conn : Connection;
  book_objects : list Book.t;
  user_objects : list User.t;
  _books : list ref;
  _users : list ref;
  _librarians : list Librarian.t;
  _loans : list Loan.t;
  _authors : list Author.t
}.

Definition author_of_row (r : AuthorRow) : Author.t :=
  Author.mk (ar_id r) (ar_name r) (ar_bio r).

Definition user_of_row (r : UserRow) : User.t :=
  User.new (ur_name r) (ur_id r).

Definition _get_author_by_id (db : Tables) (author_id : Z) : option Author.t :=
  author_of_row <$> select_author db author_id.

(** A row whose author does not resolve gives no book. *)
Definition book_of_row (db : Tables) (r : BookRow) : option Book.t :=
  author ← _get_author_by_id db (br_author_id r);
  Some (Book.mk (br_id r) (br_title r) author (br_year r) (br_status r)).

(** Builds a new [Book] object from the row, not yet placed in the heap. *)
Definition _get_book_by_id (db : Tables) (book_id : Z) : option Book.t :=
  r ← select_book db book_id; book_of_row db r.

(** Builds a new [User] object from the row. *)
Definition _get_user_by_id (db : Tables) (user_id : Z) : option User.t :=
  user_of_row <$> select_user db user_id.

Definition _load_authors (db : Tables) : list Author.t :=
  author_of_row <$> authors db.

(** Allocates the objects at the end of the heap and returns their
    references with the new heap. *)
Definition allocate {A} (heap : list A) (objs : list A) : list ref * list A :=
  (seq (length heap) (length objs), heap ++ objs).

Definition _load_books (db : Tables) (heap : list Book.t) : list ref * list Book.t :=
  allocate heap (omap (book_of_row db) (books db)).

Definition _load_users (db : Tables) (heap : list User.t) : list ref * list User.t :=
  allocate heap (user_of_row <$> users db).

Definition _load_librarians (db : Tables) : list Librarian.t :=
  (λ r, Librarian.new (lr_name r) (lr_id r) (lr_access_level r)) <$> librarians db.

(** Every loan row gets a [Book] and a [User] object of its own, built
    by [_get_book_by_id] and [_get_user_by_id]; a row whose book or user
    does not resolve is dropped. *)
Fixpoint _load_loans (db : Tables) (rows : list LoanRow)
    (bh : list Book.t) (uh : list User.t)
    : list Loan.t * list Book.t * list User.t :=
  match rows with
  | [] => ([], bh, uh)
  | r :: rest =>
      match _get_book_by_id db (lo_book_id r), _get_user_by_id db (lo_user_id r) with
      | Some book, Some user =>
          let loan := Loan.mk (lo_id r) (length bh) (length uh)
                              (lo_issue_date r) (lo_return_date r) in
          let '(ls, bh', uh') := _load_loans db rest (bh ++ [book]) (uh ++ [user]) in
          (loan :: ls, bh', uh')
      | _, _ => _load_loans db rest bh uh
      end
  end.

(** The statements of [_init_demo_data], up to its commit. *)
Definition demo_statements (w : Tables) : result Tables :=
  '(author1_id, w) ← insert_author "Лев Толстой" "Великий русский писатель" w;
  '(author2_id, w) ← insert_author "Фёдор Достоевский" "Классик русской литературы" w;
  '(_, w) ← insert_book "Война и мир" author1_id 1869 AVAILABLE w;
  '(_, w) ← insert_book "Преступление и наказание" author2_id 1866 AVAILABLE w;
  let '(_, w) := insert_user "Иван Иванов" w in
  let '(_, w) := insert_user "Мария Петрова" w in
  Ok w.

Definition _init_demo_data (s : t) : t :=
  match demo_statements (working (_conn s)) with
  | Ok w =>
      let conn := commit (execute (_conn s) w) in
      let '(books, bh) := _load_books w (book_objects s) in
      let '(users, uh) := _load_users w (user_objects s) in
      mk conn bh uh books users (_librarians s) (_loans s) (_load_authors w)
  | Err _ =>
      mk (rollback (_conn s)) (book_objects s) (user_objects s) (_books s)
         (_users s) (_librarians s) (_loans s) (_authors s)
  end.

(** [LibrarySystem(db_name)]: [file] is the content of the database
    file.  [_create_tables] only creates what is missing and leaves the
    rows as they are. *)
Definition __init__ (file : Tables) : t :=
  let conn := connect file in
  let db := working conn in
  let '(books, bh) := _load_books db [] in
  let '(users, uh) := _load_users db [] in
  let librarians := _load_librarians db in
  let '(loans, bh, uh) := _load_loans db (Sqlite.loans db) bh uh in
  let authors := _load_authors db in
  let s := mk conn bh uh books users librarians loans authors in
  match books with
  | [] => _init_demo_data s
  | _ :: _ => s
  end.

(** [next((o for o in refs if o.get_id() == id), None)]. *)
Fixpoint first_with_id {A} (get_id : A → Z) (heap : list A) (refs : list ref)
    (id : Z) : option (ref * A) :=
  match refs with
  | [] => None
  | a :: rest =>
      match heap !! a with
      | Some o => if bool_decide (get_id o = id) then Some (a, o)
                  else first_with_id get_id heap rest id
      | None => first_with_id get_id heap rest id
      end
  end.

Definition set_conn (s : t) (conn : Connection) : t :=
  mk conn (book_objects s) (user_objects s) (_books s) (_users s)
     (_librarians s) (_loans s) (_authors s).

(** The statements of [add_book], up to its commit: the author is looked
    up by name and inserted when absent, then the book is inserted. *)
Definition add_book_author (author_name author_bio : string) (w : Tables)
    : result (Z * Tables) :=
  match select_author_id w author_name with
  | Some author_id => Ok (author_id, w)
  | None => insert_author author_name author_bio w
  end.

Definition add_book_statements (title author_name author_bio : string) (year : Z)
    (w : Tables) : result Tables :=
  '(author_id, w) ← add_book_author author_name author_bio w;
  '(_, w) ← insert_book title author_id year AVAILABLE w;
  Ok w.

(** The year is bound by the INSERT of the book, after the author has
    been looked up and, when absent, inserted: a year outside the 64-bit
    range leaves the call with OverflowError and the new author row in
    the open transaction. *)
Definition add_book (s : t) (title author_name author_bio : string) (year : Z)
    : outcome bool * t :=
  match add_book_author author_name author_bio (working (_conn s)) with
  | Ok (author_id, w) =>
      if bool_decide (is_int64 year) then
        match insert_book title author_id year AVAILABLE w with
        | Ok (_, w) =>
            let conn := commit (execute (_conn s) w) in
            let '(books, bh) := _load_books w (book_objects s) in
            (Return true, mk conn bh (user_objects s) books (_users s)
                             (_librarians s) (_loans s) (_load_authors w))
        | Err _ => (Return false, set_conn s (rollback (_conn s)))
        end
      else (Raise OverflowError, set_conn s (execute (_conn s) w))
  | Err _ => (Return false, set_conn s (rollback (_conn s)))
  end.

Definition remove_book (s : t) (book_id : Z) : outcome bool * t :=
  if bool_decide (is_int64 book_id) then
    let w := delete_book book_id (working (_conn s)) in
    let conn := commit (execute (_conn s) w) in
    let '(books, bh) := _load_books w (book_objects s) in
    (Return true, mk conn bh (user_objects s) books (_users s) (_librarians s)
                     (_loans s) (_authors s))
  else (Raise OverflowError, s).

(** A value bound to the TEXT column [bio]: the engine's callers pass a
    [str]; [Librarian.edit_book] passes an [int], which is bound as an
    integer and stored as its decimal text. *)
Inductive BioValue :=
| BioStr (text : string)
| BioInt (z : Z).

Definition bio_binds (b : BioValue) : Prop :=
  match b with
  | BioStr _ => True
  | BioInt z => is_int64 z
  end.

#[global] Instance bio_binds_dec b : Decision (bio_binds b).
Proof. destruct b; simpl; apply _. Defined.

Definition bio_text (b : BioValue) : string :=
  match b with
  | BioStr text => text
  | BioInt z => pretty z
  end.

(** [edit_book] for any value of [author_bio].  Each of its statements
    binds [book_id].  The ValueError of a non-positive year and the
    OverflowError of an int outside the 64-bit range are not
    [sqlite3.Error]s: they leave the call through no handler, and the
    statements executed before them stay in the open transaction. *)
Definition edit_book_values (s : t) (book_id : Z) (title : option string)
    (year : option Z) (author_bio : option BioValue) : outcome bool * t :=
  let raise (e : PyError) (w : Tables) : outcome bool * t :=
    (Raise e, set_conn s (execute (_conn s) w)) in
  let finish (w : Tables) : outcome bool * t :=
    let conn := commit (execute (_conn s) w) in
    let '(books, bh) := _load_books w (book_objects s) in
    (Return true, mk conn bh (user_objects s) books (_users s)
                     (_librarians s) (_loans s) (_authors s)) in
  let set_bio (w : Tables) : outcome bool * t :=
    match author_bio with
    | Some bio =>
        if bool_decide (bio_binds bio ∧ is_int64 book_id)
        then finish (update_author_bio_of_book (bio_text bio) book_id w)
        else raise OverflowError w
    | None => finish w
    end in
  let set_year (w : Tables) : outcome bool * t :=
    match year with
    | Some year =>
        if bool_decide (year > 0) then
          if bool_decide (is_int64 year ∧ is_int64 book_id) then
            match update_book_year year book_id w with
            | Ok w => set_bio w
            | Err _ => (Return false, set_conn s (rollback (_conn s)))
            end
          else raise OverflowError w
        else raise ValueError w
    | None => set_bio w
    end in
  match title with
  | Some title =>
      if bool_decide (is_int64 book_id)
      then set_year (update_book_title title book_id (working (_conn s)))
      else raise OverflowError (working (_conn s))
  | None => set_year (working (_conn s))
  end.

Definition edit_book (s : t) (book_id : Z) (title : option string)
    (year : option Z) (author_bio : option string) : outcome bool * t :=
  edit_book_values s book_id title year (BioStr <$> author_bio).

(** Returns the reference of the new [User]. *)
Definition register_user (s : t) (name : string) : option ref * t :=
  let '(user_id, w) := insert_user name (working (_conn s)) in
  let conn := commit (execute (_conn s) w) in
  let user := length (user_objects s) in
  (Some user, mk conn (book_objects s) (user_objects s ++ [User.new name user_id])
                 (_books s) (_users s ++ [user]) (_librarians s) (_loans s)
                 (_authors s)).

Definition edit_user (s : t) (user_id : Z) (name : string) : outcome bool * t :=
  if bool_decide (is_int64 user_id) then
    let w := update_user_name name user_id (working (_conn s)) in
    let conn := commit (execute (_conn s) w) in
    let uh := match first_with_id User.get_id (user_objects s) (_users s) user_id with
              | Some (a, user) => <[a := User.set_name user name]> (user_objects s)
              | None => user_objects s
              end in
    (Return true, mk conn (book_objects s) uh (_books s) (_users s)
                     (_librarians s) (_loans s) (_authors s))
  else (Raise OverflowError, s).

Definition delete_user (s : t) (user_id : Z) : outcome bool * t :=
  if bool_decide (is_int64 user_id) then
    let w := Sqlite.delete_user user_id (working (_conn s)) in
    let conn := commit (execute (_conn s) w) in
    let users := filter (λ a, User.get_id <$> user_objects s !! a ≠ Some user_id)
                        (_users s) in
    (Return true, mk conn (book_objects s) (user_objects s) (_books s) users
                     (_librarians s) (_loans s) (_authors s))
  else (Raise OverflowError, s).

Definition issue_book (s : t) (now : datetime) (user_id book_id : Z)
    : option Loan.t * IssueLog * t :=
  let user := first_with_id User.get_id (user_objects s) (_users s) user_id in
  let book := first_with_id Book.get_id (book_objects s) (_books s) book_id in
  match user, book with
  | None, _ => (None, WarnUserNotFound user_id, s)
  | Some _, None => (None, WarnBookNotFound book_id, s)
  | Some (user_ref, user), Some (book_ref, book) =>
      if negb (Book.is_available book) then
        (None, WarnBookNotAvailable (Book.get_title book), s)
      else if bool_decide (User.MAX_BOOKS ≤ length (User.get_borrowed_books user))%nat then
        (None, WarnLimitReached (User.get_name user), s)
      else
        let '(loan_id, w) := insert_loan book_id user_id now (working (_conn s)) in
        let w := update_book_status ON_LOAN book_id w in
        let conn := commit (execute (_conn s) w) in
        let loan := Loan.mk loan_id book_ref user_ref now None in
        let bh := <[book_ref := Book.set_status book ON_LOAN]> (book_objects s) in
        let uh := <[user_ref := snd (User.borrow_book user book_ref)]> (user_objects s) in
        (Some loan, InfoIssued (Book.get_title book) (User.get_name user),
         mk conn bh uh (_books s) (_users s) (_librarians s) (_loans s ++ [loan])
            (_authors s))
  end.

(** The references held by a loan always resolve; the last branch
    stands for that and is never taken by an engine built by
    [__init__] and the operations below. *)
Definition return_book (s : t) (now : datetime) (loan_id : Z) : bool * t :=
  match list_find (λ l, Loan.get_id l = loan_id) (_loans s) with
  | None => (false, s)
  | Some (i, loan) =>
      match Loan.get_return_date loan with
      | Some _ => (false, s)
      | None =>
          match book_objects s !! Loan.get_book loan,
                user_objects s !! Loan.get_user loan with
          | Some book, Some user =>
              let w := update_loan_return_date now loan_id (working (_conn s)) in
              let w := update_book_status AVAILABLE (Book.get_id book) w in
              let conn := commit (execute (_conn s) w) in
              let loans := <[i := Loan.return_book loan now]> (_loans s) in
              let bh := <[Loan.get_book loan := Book.set_status book AVAILABLE]>
                          (book_objects s) in
              let uh := <[Loan.get_user loan :=
                            snd (User.return_book user (Loan.get_book loan))]>
                          (user_objects s) in
              (true, mk conn bh uh (_books s) (_users s) (_librarians s) loans
                        (_authors s))
          | _, _ => (false, s)
          end
      end
  end.

Definition get_books (s : t) : list ref := _books s.
Definition get_users (s : t) : list ref := _users s.
Definition get_loans (s : t) : list Loan.t := _loans s.
Definition get_librarians (s : t) : list Librarian.t := _librarians s.

Definition get_active_loans (s : t) : list Loan.t :=
  filter (λ l, Loan.get_return_date l = None) (_loans s).

Definition authenticate_librarian (s : t) (librarian_id : Z)
    : outcome (option Librarian.t) :=
  if bool_decide (is_int64 librarian_id) then
    Return ((λ r, Librarian.new (lr_name r) (lr_id r) (lr_access_level r))
              <$> select_librarian (working (_conn s)) librarian_id)
  else Raise OverflowError.

(** [close()] followed by the construction of a new engine on the same
    file: what was not committed is lost. *)
Definition restart (s : t) : t := __init__ (committed (_conn s)).

End LibrarySystem.

(** ** Runs of the engine *)

(** The calls of the engine that change it: the eight mutating operations
    and the restart.  A call that reads the clock carries the time it
    read.  [register_librarian], which only touches the librarians, and
    the read accessors are left out. *)
Inductive Call :=
| AddBook (title author_name author_bio : string) (year : Z)
| RemoveBook (book_id : Z)
| EditBook (book_id : Z) (title : option string) (year : option Z)
           (author_bio : option string)
| RegisterUser (name : string)
| EditUser (user_id : Z) (name : string)
| DeleteUser (user_id : Z)
| IssueBook (now : datetime) (user_id book_id : Z)
| ReturnBook (now : datetime) (loan_id : Z)
| Restart.

(** The engine after a call, whatever the call returned or raised. *)
Definition step (s : LibrarySystem.t) (c : Call) : LibrarySystem.t :=
  match c with
  | AddBook title author_name author_bio year =>
      snd (LibrarySystem.add_book s title author_name author_bio year)
  | RemoveBook book_id => snd (LibrarySystem.remove_book s book_id)
  | EditBook book_id title year author_bio =>
      snd (LibrarySystem.edit_book s book_id title year author_bio)
  | RegisterUser name => snd (LibrarySystem.register_user s name)
  | EditUser user_id name => snd (LibrarySystem.edit_user s user_id name)
  | DeleteUser user_id => snd (LibrarySystem.delete_user s user_id)
  | IssueBook now user_id book_id => snd (LibrarySystem.issue_book s now user_id book_id)
  | ReturnBook now loan_id => snd (LibrarySystem.return_book s now loan_id)
  | Restart => LibrarySystem.restart s
  end.

Definition run (s : LibrarySystem.t) (calls : list Call) : LibrarySystem.t :=
  foldl step s calls.

(** The engines reachable from the construction on a database file. *)
Inductive reachable (file : Sqlite.Tables) : LibrarySystem.t → Prop :=
| reachable_init : reachable file (LibrarySystem.__init__ file)
| reachable_step s c : reachable file s → reachable file (step s c).

(** ** The catalogue methods of a librarian *)

Module LibrarianCatalog.

(** [Librarian.remove_book(library_system, book_id)]: the result of the
    engine's [remove_book] is dropped, an exception of it is not. *)
Definition remove_book (l : Librarian.t) (s : LibrarySystem.t) (book_id : Z)
    : outcome bool * LibrarySystem.t :=
  if bool_decide (1 ≤ Librarian._access_level l)
  then
    match LibrarySystem.remove_book s book_id with
    | (Return _, s') => (Return true, s')
    | (Raise e, s') => (Raise e, s')
    end
  else (Return false, s).

(** [Librarian.edit_book(library_system, book_id, title, author_id, year)]
    calls [library_system.edit_book(book_id, title, author_id, year)]: the
    engine receives [author_id] as its [year] and the int [year] as its
    [author_bio]. *)
Definition edit_book (l : Librarian.t) (s : LibrarySystem.t) (book_id : Z)
    (title : option string) (author_id year : option Z)
    : outcome bool * LibrarySystem.t :=
  if bool_decide (1 ≤ Librarian._access_level l)
  then
    match LibrarySystem.edit_book_values s book_id title author_id
            (LibrarySystem.BioInt <$> year) with
    | (Return _, s') => (Return true, s')
    | (Raise e, s') => (Raise e, s')
    end
  else (Return false, s).

End LibrarianCatalog.

(** * Vocabulary of the specification *)

Import Sqlite LibrarySystem.


(** A book with this id is in the engine's book list. *)
Definition book_exists (s : LibrarySystem.t) (book_id : Z) : Prop :=
  ∃ a b, a ∈ get_books s ∧ book_objects s !! a = Some b ∧ Book.get_id b = book_id.

(** The user and the book a call of [issue_book] works on. *)
Definition found_user (s : LibrarySystem.t) (user_id : Z) : option (ref * User.t) :=
  first_with_id User.get_id (user_objects s) (_users s) user_id.

Definition found_book (s : LibrarySystem.t) (book_id : Z) : option (ref * Book.t) :=
  first_with_id Book.get_id (book_objects s) (_books s) book_id.

(** ** Open loans *)

(** The book a loan refers to, read through the loan's reference. *)
Definition loan_book_id (s : LibrarySystem.t) (l : Loan.t) : option Z :=
  Book.get_id <$> book_objects s !! Loan.get_book l.

Definition loan_user_id (s : LibrarySystem.t) (l : Loan.t) : option Z :=
  User.get_id <$> user_objects s !! Loan.get_user l.

(** The loans of the cache with no return date that refer to the book. *)
Definition open_loans_on (s : LibrarySystem.t) (book_id : Z) : list Loan.t :=
  filter (λ l, loan_book_id s l = Some book_id ∧ Loan.get_return_date l = None)
         (get_loans s).

(** The loans of the cache with no return date held by the user. *)
Definition open_loans_of (s : LibrarySystem.t) (user_id : Z) : list Loan.t :=
  filter (λ l, loan_user_id s l = Some user_id ∧ Loan.get_return_date l = None)
         (get_loans s).

(** The same, on the rows of the loans table. *)
Definition open_rows_on (db : Tables) (book_id : Z) : list LoanRow :=
  filter (λ r, lo_book_id r = book_id ∧ lo_return_date r = None) (loans db).

Definition open_rows_of (db : Tables) (user_id : Z) : list LoanRow :=
  filter (λ r, lo_user_id r = user_id ∧ lo_return_date r = None) (loans db).

(** ** Consistency of a store and of an engine with its store *)

(** What the schema and the lending rules promise of a database file:
    primary keys are unique, a book has at most one open loan and none
    when its status is available, and no row carries a book id beyond the
    AUTOINCREMENT counter of the books table. *)
Record store_ok (db : Tables) : Prop := {
  loan_ids_unique : NoDup (lo_id <$> loans db);
  book_ids_unique : NoDup (br_id <$> books db);
  one_open_row : ∀ book_id, (length (open_rows_on db book_id) ≤ 1)%nat;
  available_no_row :
    ∀ r, r ∈ books db → br_status r = AVAILABLE → open_rows_on db (br_id r) = [];
  book_ids_counted : ∀ r, r ∈ books db → br_id r ≤ seq_books db;
  loan_books_counted : ∀ r, r ∈ loans db → lo_book_id r ≤ seq_books db
}.

(** What identifies a loan in the cache and in the table: its id, its
    book id and whether it is open. *)
Definition loan_key : Type := Z * option Z * bool.

Definition key_of_row (r : LoanRow) : loan_key :=
  (lo_id r, Some (lo_book_id r), bool_decide (lo_return_date r = None)).

Definition key_of_loan (bh : list Book.t) (l : Loan.t) : loan_key :=
  (Loan.get_id l, Book.get_id <$> bh !! Loan.get_book l,
   bool_decide (Loan.get_return_date l = None)).

Definition cached_book_id (bh : list Book.t) (a : ref) : option Z :=
  Book.get_id <$> bh !! a.

(** The cache agrees with the tables [db]: the cached loans are, in
    order, loans of the table with the same book and the same state; the
    cached books are books of the table, and one that the cache shows
    available is available in the table; the user of a cached loan is a
    live object. *)
Record cache_ok (s : LibrarySystem.t) (db : Tables) : Prop := {
  loans_cached :
    key_of_loan (book_objects s) <$> _loans s `sublist_of` key_of_row <$> loans db;
  books_cached :
    cached_book_id (book_objects s) <$> _books s `sublist_of`
      (Some ∘ br_id) <$> books db;
  status_cached :
    ∀ a b r, a ∈ _books s → book_objects s !! a = Some b →
             r ∈ books db → br_id r = Book.get_id b →
             Book.get_status b = AVAILABLE → br_status r = AVAILABLE;
  loan_users_live :
    ∀ l, l ∈ _loans s → is_Some (user_objects s !! Loan.get_user l)
}.

(** The invariant of the engine: both views of its connection are
    consistent stores and the cache agrees with both. *)
Record consistent (s : LibrarySystem.t) : Prop := {
  committed_ok : store_ok (committed (_conn s));
  working_ok : store_ok (working (_conn s));
  cache_committed : cache_ok s (committed (_conn s));
  cache_working : cache_ok s (working (_conn s))
}.

(** The objects of [bh] are still there in [bh'], with the ids they had. *)
Definition ids_stable (bh bh' : list Book.t) : Prop :=
  ∀ a b, bh !! a = Some b → ∃ b', bh' !! a = Some b' ∧ Book.get_id b' = Book.get_id b.

(** The live references of [uh] are live in [uh']. *)
Definition users_stable (uh uh' : list User.t) : Prop :=
  ∀ a, is_Some (uh !! a) → is_Some (uh' !! a).

(** What the cache follows of a book row: its id and its status. *)
Definition book_row_key (r : BookRow) : Z * string := (br_id r, br_status r).

(** The key of a loan once the loan with id [loan_id] is closed. *)
Definition close_key (loan_id : Z) (k : loan_key) : loan_key :=
  if decide (k.1.1 = loan_id) then (k.1.1, k.1.2, false) else k.

(** An open loan on the book, as a key. *)
Definition open_key_on (book_id : Z) (k : loan_key) : Prop :=
  k.1.2 = Some book_id ∧ k.2 = true.

(** ** Scenarios *)

(** The engine built on a new database file: the demo data are seeded,
    books 1 and 2 and users 1 and 2. *)
Definition fresh_engine : LibrarySystem.t := __init__ Sqlite.empty.

(** Two more books, three loans to user 1, a restart, a fourth loan. *)
Definition four_loans : list Call :=
  [AddBook "Анна Каренина" "Лев Толстой" "" 1877;
   AddBook "Идиот" "Фёдор Достоевский" "" 1869;
   IssueBook 100 1 1; IssueBook 200 1 2; IssueBook 300 1 3;
   Restart;
   IssueBook 400 1 4].

(** The same calls without the restart. *)
Definition four_loans_one_session : list Call :=
  [AddBook "Анна Каренина" "Лев Толстой" "" 1877;
   AddBook "Идиот" "Фёдор Достоевский" "" 1869;
   IssueBook 100 1 1; IssueBook 200 1 2; IssueBook 300 1 3;
   IssueBook 400 1 4].

(** A loan, a reload of the book list by [add_book], the return. *)
Definition return_after_reload : list Call :=
  [IssueBook 100 1 1; AddBook "Идиот" "Фёдор Достоевский" "" 1869; ReturnBook 200 1].

(** The status of the book with this id in the engine's book list. *)
Definition cached_status (s : LibrarySystem.t) (book_id : Z) : option string :=
  (Book.get_status ∘ snd) <$> found_book s book_id.

(** The status of the book with this id in the committed books table. *)
Definition stored_status (s : LibrarySystem.t) (book_id : Z) : option string :=
  br_status <$> select_book (committed (_conn s)) book_id.

(** The title of the book as committed and as the connection reads it. *)
Definition committed_title (s : LibrarySystem.t) (book_id : Z) : option string :=
  br_title <$> select_book (committed (_conn s)) book_id.

Definition visible_title (s : LibrarySystem.t) (book_id : Z) : option string :=
  br_title <$> select_book (working (_conn s)) book_id.

(** The borrowed list of the user with this id in the engine's user list. *)
Definition borrowed_by (s : LibrarySystem.t) (user_id : Z) : option (list ref) :=
  (User.get_borrowed_books ∘ snd) <$> found_user s user_id.

(** No user object holds more books than the limit. *)
Definition within_limit (uh : list User.t) : Prop :=
  Forall (λ u, (User.get_borrowed_count u ≤ User.MAX_BOOKS)%nat) uh.

(** ** Loading *)

(** The book and the user of the loan row resolve in the tables. *)
Definition resolves (db : Tables) (r : LoanRow) : Prop :=
  is_Some (_get_book_by_id db (lo_book_id r)) ∧
  is_Some (_get_user_by_id db (lo_user_id r)).

(** What persists of a loan: its id, its issue date, its return date. *)
Definition loan_fields (l : Loan.t) : Z * Z * option Z :=
  (Loan.get_id l, Loan.get_issue_date l, Loan.get_return_date l).

Definition row_fields (r : LoanRow) : Z * Z * option Z :=
  (lo_id r, lo_issue_date r, lo_return_date r).

(** ** Further vocabulary *)

(** A user, then a librarian, after trying to borrow the books in turn. *)
Definition user_borrow_all (u : User.t) (books : list ref) : User.t :=
  foldl (λ u book, (User.borrow_book u book).2) u books.

Definition librarian_borrow_all (l : Librarian.t) (books : list ref) : Librarian.t :=
  foldl (λ l book, (Librarian.borrow_book l book).2) l books.

(** The objects behind the book list and the user list, in order. *)
Definition listed_books (s : LibrarySystem.t) : list (option Book.t) :=
  (λ a, book_objects s !! a) <$> get_books s.

Definition listed_users (s : LibrarySystem.t) : list (option User.t) :=
  (λ a, user_objects s !! a) <$> get_users s.

(** The books and the users that a load builds from the tables. *)
Definition books_of_store (db : Tables) : list Book.t :=
  omap (book_of_row db) (books db).

Definition users_of_store (db : Tables) : list User.t :=
  user_of_row <$> users db.



(** The id of the user that [register_user] creates. *)
Definition registered_id (s : LibrarySystem.t) (name : string) : option Z :=
  let r := register_user s name in
  a ← r.1; User.get_id <$> user_objects r.2 !! a.


(** The tables without the authors and with the titles of the books
    blanked. *)
Definition untitled (t : Tables) : Tables :=
  mkTables []
    ((λ r, mkBookRow (br_id r) "" (br_author_id r) (br_year r) (br_status r))
       <$> books t)
    (users t) (librarians t) (loans t) 0 (seq_books t) (seq_users t) (seq_loans t).

(** What is pending on the connection, if anything, is a change of book
    titles and author rows added after the committed ones. *)
Definition titles_and_authors_pending (s : LibrarySystem.t) : Prop :=
  untitled (committed (_conn s)) = untitled (working (_conn s)) ∧
  authors (committed (_conn s)) `prefix_of` authors (working (_conn s)).

(** A property of the tables that the statements of the catalogue calls
    keep, and one that the statements on users and loans keep. *)
Record kept_by_catalogue (P : Tables → Prop) : Prop := {
  kept_insert_author :
    ∀ w name bio id w', P w → insert_author name bio w = Ok (id, w') → P w';
  kept_insert_book :
    ∀ w title author_id year status id w',
      P w → insert_book title author_id year status w = Ok (id, w') → P w';
  kept_update_title : ∀ w title book_id, P w → P (update_book_title title book_id w);
  kept_update_year :
    ∀ w year book_id w', P w → update_book_year year book_id w = Ok w' → P w';
  kept_update_bio :
    ∀ w bio book_id, P w → P (update_author_bio_of_book bio book_id w);
  kept_delete_book : ∀ w book_id, P w → P (delete_book book_id w)
}.

Record kept_by_lending (P : Tables → Prop) : Prop := {
  kept_insert_user : ∀ w name, P w → P (insert_user name w).2;
  kept_update_user : ∀ w name user_id, P w → P (update_user_name name user_id w);
  kept_delete_user : ∀ w user_id, P w → P (Sqlite.delete_user user_id w);
  kept_insert_loan :
    ∀ w book_id user_id now, P w → P (insert_loan book_id user_id now w).2;
  kept_update_status :
    ∀ w status book_id, P w → P (update_book_status status book_id w);
  kept_update_return :
    ∀ w now loan_id, P w → P (update_loan_return_date now loan_id w)
}.

(** A loan row and what it may have become later: the same loan of the
    same book to the same user at the same date, with the return date it
    had, or with one set since if it had none. *)
Definition row_kept (r r' : LoanRow) : Prop :=
  lo_id r' = lo_id r ∧ lo_book_id r' = lo_book_id r ∧
  lo_user_id r' = lo_user_id r ∧ lo_issue_date r' = lo_issue_date r ∧
  (lo_return_date r = None ∨ lo_return_date r' = lo_return_date r).

(** The loans table [new] continues the loans table [old]: the rows of
    [old] are kept, in order, and rows may have been added after them. *)
Definition history_kept (old new : list LoanRow) : Prop :=
  ∃ rows more, new = rows ++ more ∧ Forall2 row_kept old rows.

(** What identifies an author: the id and the name of its row. *)
Definition author_keys (t : Tables) : list (Z * string) :=
  (λ r, (ar_id r, ar_name r)) <$> authors t.

(** One of the two authors of the demo data is stored. *)
Definition seeded (t : Tables) : Prop :=
  "Лев Толстой" ∈ snd <$> author_keys t ∨
  "Фёдор Достоевский" ∈ snd <$> author_keys t.

(** * Properties *)

(** ** Lookups in the cached lists *)

Section FirstWithId.

Context {A : Type} (get_id : A → Z).

Lemma first_with_id_Some heap refs id a o :
  first_with_id get_id heap refs id = Some (a, o) →
  a ∈ refs ∧ heap !! a = Some o ∧ get_id o = id.
Proof.
  induction refs as [|x refs IH]; simpl; [done|].
  destruct (heap !! x) as [ox|] eqn:Hx.
  - case_bool_decide as Hid.
    + intros [= <- <-]. split; [left|done].
    + intros H. destruct (IH H) as (? & ? & ?). split; [by right|done].
  - intros H. destruct (IH H) as (? & ? & ?). split; [by right|done].
Qed.

Lemma first_with_id_None heap refs id :
  first_with_id get_id heap refs id = None ↔
  ∀ a o, a ∈ refs → heap !! a = Some o → get_id o ≠ id.
Proof.
  induction refs as [|x refs IH]; simpl.
  - split; [|done]. intros _ a o Ha. by apply elem_of_nil in Ha.
  - destruct (heap !! x) as [ox|] eqn:Hx.
    + case_bool_decide as Hid.
      * split; [done|]. intros H. exfalso.
        apply (H x ox); [left|done|done].
      * rewrite IH. split.
        -- intros H a o [->|Ha]%elem_of_cons Ho; [congruence|by eapply H].
        -- intros H a o Ha. apply H. by right.
    + rewrite IH. split.
      * intros H a o [->|Ha]%elem_of_cons Ho; [congruence|by eapply H].
      * intros H a o Ha. apply H. by right.
Qed.


End FirstWithId.



Lemma is_available_status b :
  Book.is_available b = true ↔ Book.get_status b = AVAILABLE.
Proof. unfold Book.is_available. by rewrite bool_decide_eq_true. Qed.

(** ** Overdue detection *)

Lemma is_overdue_iff now l :
  Loan.is_overdue now l = true ↔
  Loan.get_return_date l = None ∧ now > Loan.get_issue_date l + timedelta_days 14.
Proof.
  unfold Loan.is_overdue, Loan.get_return_date, Loan.get_issue_date, Loan.LOAN_DAYS.
  destruct (Loan._return_date l).
  - split; [done|]. by intros [? _].
  - rewrite bool_decide_eq_true. tauto.
Qed.

(** C8: [is_overdue] is true exactly for an open loan whose issue date plus
    14 days lies strictly before the current time.  An open loan issued 14
    days and one second ago is overdue, one issued 14 days less one second
    ago is not, and a closed loan never is. *)
Theorem is_overdue_boundary :
  (∀ now l,
     Loan.is_overdue now l = true ↔
     Loan.get_return_date l = None ∧ now > Loan.get_issue_date l + timedelta_days 14) ∧
  (∀ now id book user,
     Loan.is_overdue now
       (Loan.mk id book user (now - (timedelta_days 14 + seconds 1)) None) = true) ∧
  (∀ now id book user,
     Loan.is_overdue now
       (Loan.mk id book user (now - (timedelta_days 14 - seconds 1)) None) = false) ∧
  (∀ now id book user issue_date return_date,
     Loan.is_overdue now (Loan.mk id book user issue_date (Some return_date)) = false) ∧
  (∀ now l return_date, Loan.is_overdue now (Loan.return_book l return_date) = false).
Proof.
  split_and!.
  - intros now l. apply is_overdue_iff.
  - intros now id book user. apply is_overdue_iff. simpl.
    split; [done|]. unfold timedelta_days, seconds. lia.
  - intros now id book user. apply not_true_iff_false.
    rewrite is_overdue_iff. simpl. intros [_ H].
    unfold timedelta_days, seconds in H. lia.
  - intros now id book user issue_date return_date. apply not_true_iff_false.
    rewrite is_overdue_iff. simpl. by intros [? _].
  - intros now l return_date. apply not_true_iff_false.
    rewrite is_overdue_iff. simpl. by intros [? _].
Qed.

(** ** Removing a book *)

(** C10, amended: for every book id within the 64-bit signed range,
    whether or not a stored book has it, [remove_book] returns True; the
    committed book table is the former one without the rows of that id, so
    nothing changes for an id that matches no row.  For an id outside that
    range the call raises OverflowError and leaves the engine as it was. *)
Theorem remove_book_true_within_int64 (s : LibrarySystem.t) (book_id : Z) :
  (is_int64 book_id →
     fst (remove_book s book_id) = Return true ∧
     books (committed (_conn (snd (remove_book s book_id)))) =
       filter (λ r, br_id r ≠ book_id) (books (working (_conn s))) ∧
     (book_id ∉ br_id <$> books (working (_conn s)) →
      committed (_conn (snd (remove_book s book_id))) = working (_conn s))) ∧
  (¬ is_int64 book_id → remove_book s book_id = (Raise OverflowError, s)).
Proof.
  unfold remove_book. split; intros Hid.
  - rewrite bool_decide_eq_true_2 by done. cbv zeta.
    destruct (_load_books _ _) as [bs bh] eqn:E. simpl.
    split; [done|]. split; [done|].
    intros Hnot. unfold delete_book.
    assert (filter (λ r, br_id r ≠ book_id) (books (working (_conn s)))
            = books (working (_conn s))) as ->.
    { induction (books (working (_conn s))) as [|r rs IH]; [done|].
      rewrite fmap_cons, not_elem_of_cons in Hnot. destruct Hnot as [Hr Hrs].
      rewrite filter_cons_True by congruence. by rewrite IH. }
    by destruct (working (_conn s)).
  - by rewrite bool_decide_eq_false_2.
Qed.

(** C10, as stated, fails on an id beyond the 64-bit range: no stored
    book has the id 2^63, and the call on it does not return. *)
Lemma remove_book_beyond_int64 :
  (2 ^ 63 ∉ br_id <$> books (working (_conn fresh_engine))) ∧
  fst (remove_book fresh_engine (2 ^ 63)) = Raise OverflowError.
Proof.
  split; [by apply (bool_decide_unpack _); vm_compute|].
  unfold remove_book. rewrite bool_decide_eq_false_2; [done|].
  unfold is_int64. lia.
Qed.
(** ** The calls that bind an integer of the caller *)

(** [add_book] with a year that can be bound: the statements run to the
    end or fail on a constraint. *)
Lemma add_book_int64 s title author_name author_bio year :
  is_int64 year →
  add_book s title author_name author_bio year =
    match add_book_statements title author_name author_bio year
            (working (_conn s)) with
    | Ok w =>
        let conn := commit (execute (_conn s) w) in
        let '(books, bh) := _load_books w (book_objects s) in
        (Return true, mk conn bh (user_objects s) books (_users s)
                         (_librarians s) (_loans s) (_load_authors w))
    | Err _ => (Return false, set_conn s (rollback (_conn s)))
    end.
Proof.
  intros Hyear. unfold add_book, add_book_statements.
  destruct (add_book_author author_name author_bio (working (_conn s)))
    as [[author_id w]|]; [|done].
  rewrite bool_decide_eq_true_2 by done. simpl.
  by destruct (insert_book title author_id year AVAILABLE w) as [[id w']|].
Qed.

(** [add_book] with a year that cannot be bound. *)
Lemma add_book_overflow s title author_name author_bio year :
  ¬ is_int64 year →
  add_book s title author_name author_bio year =
    match add_book_author author_name author_bio (working (_conn s)) with
    | Ok (_, w) => (Raise OverflowError, set_conn s (execute (_conn s) w))
    | Err _ => (Return false, set_conn s (rollback (_conn s)))
    end.
Proof.
  intros Hyear. unfold add_book.
  destruct (add_book_author author_name author_bio (working (_conn s)))
    as [[author_id w]|]; [|done].
  by rewrite bool_decide_eq_false_2.
Qed.

(** The ways in which [edit_book] ends.  An exception leaves the tables
    as the title update, if any, has made them; a normal end follows the
    updates of the title, the year and the bio that were asked for. *)
Lemma edit_book_elim s book_id title year author_bio
    (P0 P1 : Tables → Prop) (Q : outcome bool * LibrarySystem.t → Prop) :
  P0 (working (_conn s)) →
  (∀ w t, P0 w → P0 (update_book_title t book_id w)) →
  (∀ w, P0 w → P1 w) →
  (∀ w y w', P1 w → update_book_year y book_id w = Ok w' → P1 w') →
  (∀ w b, P1 w → P1 (update_author_bio_of_book b book_id w)) →
  (∀ w, P1 w →
     Q (let conn := commit (execute (_conn s) w) in
        let '(books, bh) := _load_books w (book_objects s) in
        (Return true, mk conn bh (user_objects s) books (_users s)
                         (_librarians s) (_loans s) (_authors s)))) →
  (∀ w e, P0 w → Q (Raise e, set_conn s (execute (_conn s) w))) →
  Q (Return false, set_conn s (rollback (_conn s))) →
  Q (edit_book s book_id title year author_bio).
Proof.
  intros Hw Htitle H01 Hyear Hbio Hdone Hraise Hroll.
  unfold edit_book, edit_book_values. cbv zeta.
  assert (∀ w, P0 w →
    Q match year with
      | Some year =>
          if bool_decide (year > 0) then
            if bool_decide (is_int64 year ∧ is_int64 book_id) then
              match update_book_year year book_id w with
              | Ok w =>
                  match BioStr <$> author_bio with
                  | Some bio =>
                      if bool_decide (bio_binds bio ∧ is_int64 book_id)
                      then
                        let conn :=
                          commit (execute (_conn s)
                            (update_author_bio_of_book (bio_text bio) book_id w)) in
                        let '(books, bh) :=
                          _load_books
                            (update_author_bio_of_book (bio_text bio) book_id w)
                            (book_objects s) in
                        (Return true, mk conn bh (user_objects s) books (_users s)
                                         (_librarians s) (_loans s) (_authors s))
                      else (Raise OverflowError, set_conn s (execute (_conn s) w))
                  | None =>
                      let conn := commit (execute (_conn s) w) in
                      let '(books, bh) := _load_books w (book_objects s) in
                      (Return true, mk conn bh (user_objects s) books (_users s)
                                       (_librarians s) (_loans s) (_authors s))
                  end
              | Err _ => (Return false, set_conn s (rollback (_conn s)))
              end
            else (Raise OverflowError, set_conn s (execute (_conn s) w))
          else (Raise ValueError, set_conn s (execute (_conn s) w))
      | None =>
          match BioStr <$> author_bio with
          | Some bio =>
              if bool_decide (bio_binds bio ∧ is_int64 book_id)
              then
                let conn :=
                  commit (execute (_conn s)
                    (update_author_bio_of_book (bio_text bio) book_id w)) in
                let '(books, bh) :=
                  _load_books
                    (update_author_bio_of_book (bio_text bio) book_id w)
                    (book_objects s) in
                (Return true, mk conn bh (user_objects s) books (_users s)
                                 (_librarians s) (_loans s) (_authors s))
              else (Raise OverflowError, set_conn s (execute (_conn s) w))
          | None =>
              let conn := commit (execute (_conn s) w) in
              let '(books, bh) := _load_books w (book_objects s) in
              (Return true, mk conn bh (user_objects s) books (_users s)
                               (_librarians s) (_loans s) (_authors s))
          end
      end) as Hrest.
  { intros w HP0. destruct year as [y|].
    - case_bool_decide; [|by apply Hraise].
      case_bool_decide as Hfit; [|by apply Hraise].
      destruct (update_book_year y book_id w) as [w'|] eqn:Hupd; [|done].
      assert (P1 w') as HP1 by (eapply Hyear; [by apply H01|done]).
      destruct author_bio as [bio|]; simpl; [|by apply Hdone].
      rewrite bool_decide_eq_true_2 by tauto.
      by apply (Hdone (update_author_bio_of_book bio book_id w')), Hbio.
    - destruct author_bio as [bio|]; simpl; [|by apply Hdone, H01].
      case_bool_decide; [|by apply Hraise].
      by apply (Hdone (update_author_bio_of_book bio book_id w)), Hbio, H01. }
  destruct title as [t|]; [|by apply Hrest].
  case_bool_decide; [|by apply Hraise].
  by apply Hrest, Htitle.
Qed.

(** The catalogue calls leave the users and the loans of the cache alone. *)
Lemma add_book_cache s title author_name author_bio year :
  let s' := (add_book s title author_name author_bio year).2 in
  user_objects s' = user_objects s ∧ _users s' = _users s ∧ _loans s' = _loans s.
Proof.
  unfold add_book.
  destruct (add_book_author _ _ _) as [[author_id w]|]; [|done].
  case_bool_decide; [|done].
  destruct (insert_book _ _ _ _ _) as [[id w']|]; [|done].
  by destruct (_load_books w' (book_objects s)).
Qed.

Lemma remove_book_cache s book_id :
  let s' := (remove_book s book_id).2 in
  user_objects s' = user_objects s ∧ _users s' = _users s ∧ _loans s' = _loans s.
Proof.
  unfold remove_book. case_bool_decide; [|done]. cbv zeta.
  by destruct (_load_books _ (book_objects s)).
Qed.

Lemma edit_book_cache s book_id title year author_bio :
  let s' := (edit_book s book_id title year author_bio).2 in
  user_objects s' = user_objects s ∧ _users s' = _users s ∧ _loans s' = _loans s.
Proof.
  apply (edit_book_elim s book_id title year author_bio
           (λ _, True) (λ _, True)
           (λ r, user_objects r.2 = user_objects s ∧ _users r.2 = _users s ∧
                 _loans r.2 = _loans s)); [done..| |done|done].
  intros w _. cbv zeta. by destruct (_load_books w (book_objects s)).
Qed.

(** ** Row identifiers *)

Lemma max_rowid_ge ids x : x ∈ ids → x ≤ max_rowid ids.
Proof.
  induction ids as [|y ids IH]; simpl.
  - intros H. by apply elem_of_nil in H.
  - intros [->|H]%elem_of_cons; [lia|]. specialize (IH H). lia.
Qed.

Lemma next_rowid_fresh seq ids x : x ∈ ids → x < next_rowid seq ids.
Proof. intros H%max_rowid_ge. unfold next_rowid. lia. Qed.

Lemma next_rowid_above_seq seq ids : seq < next_rowid seq ids.
Proof. unfold next_rowid. lia. Qed.

(** ** Issuing a book *)


(** ** Lists and heaps *)

Lemma NoDup_fmap_eq {A B} (f : A → B) (l : list A) x y :
  NoDup (f <$> l) → x ∈ l → y ∈ l → f x = f y → x = y.
Proof.
  induction l as [|z l IH].
  - intros _ Hx. by apply elem_of_nil in Hx.
  - rewrite fmap_cons. intros [Hz Hl]%list.NoDup_cons.
    intros [->|Hx]%elem_of_cons [->|Hy]%elem_of_cons Hf; [done| | |by apply IH].
    + exfalso. apply Hz. rewrite Hf. by apply list_elem_of_fmap_2.
    + exfalso. apply Hz. rewrite <- Hf. by apply list_elem_of_fmap_2.
Qed.

Lemma length_filter_fmap {A B} (f : A → B) (P : B → Prop) `{∀ y, Decision (P y)}
    (l : list A) :
  length (filter P (f <$> l)) = length (filter (λ x, P (f x)) l).
Proof.
  induction l as [|x l IH]; [done|]. rewrite fmap_cons.
  destruct (decide (P (f x))) as [Hp|Hp].
  - rewrite !filter_cons_True by done. simpl. by rewrite IH.
  - by rewrite !filter_cons_False.
Qed.

Lemma lookup_allocated {A} (heap objs : list A) :
  (λ a, (heap ++ objs) !! a) <$> seq (length heap) (length objs) = Some <$> objs.
Proof.
  revert heap. induction objs as [|o objs IH]; intros heap; [done|].
  simpl. f_equal.
  - by rewrite list_lookup_middle.
  - specialize (IH (heap ++ [o])).
    rewrite length_app, <- app_assoc in IH. simpl in IH.
    by rewrite Nat.add_1_r in IH.
Qed.

Lemma allocate_refs {A} (heap objs : list A) a :
  a ∈ (allocate heap objs).1 →
  ∃ o, o ∈ objs ∧ (allocate heap objs).2 !! a = Some o.
Proof.
  unfold allocate. simpl. intros Ha.
  assert ((heap ++ objs) !! a ∈ Some <$> objs) as Hin.
  { rewrite <- (lookup_allocated heap objs).
    by apply (list_elem_of_fmap_2 (λ a, (heap ++ objs) !! a)). }
  apply list_elem_of_fmap in Hin as (o & Ho & Hobj). by exists o.
Qed.

Lemma ids_stable_app bh objs : ids_stable bh (bh ++ objs).
Proof. intros a b H. exists b. split; [|done]. by apply lookup_app_l_Some. Qed.

Lemma ids_stable_insert bh a b b' :
  bh !! a = Some b → Book.get_id b' = Book.get_id b → ids_stable bh (<[a:=b']> bh).
Proof.
  intros Ha Hid x bx Hx. destruct (decide (x = a)) as [->|Hne].
  - exists b'. split; [|congruence].
    apply list_lookup_insert_eq. by eapply lookup_lt_Some.
  - exists bx. split; [|done]. by rewrite list_lookup_insert_ne.
Qed.

Lemma users_stable_refl uh : users_stable uh uh.
Proof. by intros a H. Qed.

Lemma users_stable_app uh objs : users_stable uh (uh ++ objs).
Proof.
  intros a [u H]. exists u. by apply lookup_app_l_Some.
Qed.

Lemma users_stable_insert (uh : list User.t) a u : users_stable uh (<[a:=u]> uh).
Proof.
  intros x H. apply lookup_lt_is_Some. rewrite length_insert.
  by apply lookup_lt_is_Some.
Qed.

(** A loan whose key is the key of a row refers to a live book, so its
    key is the same in every heap that keeps the ids. *)
Lemma loan_keys_stable bh bh' (ls : list Loan.t) (rows : list LoanRow) :
  ids_stable bh bh' →
  key_of_loan bh <$> ls `sublist_of` key_of_row <$> rows →
  key_of_loan bh' <$> ls = key_of_loan bh <$> ls.
Proof.
  intros Hst Hsub. apply list_fmap_ext. intros i l Hl.
  assert (key_of_loan bh l ∈ key_of_row <$> rows) as Hin.
  { eapply elem_of_sublist; [|done].
    apply list_elem_of_fmap_2. by eapply list_elem_of_lookup_2. }
  apply list_elem_of_fmap in Hin as (r & Hkey & _).
  unfold key_of_loan, key_of_row in *.
  destruct (bh !! Loan.get_book l) as [b|] eqn:Hb; [|done].
  destruct (Hst _ _ Hb) as (b' & Hb' & Hid). rewrite Hb'. simpl. by rewrite Hid.
Qed.

Lemma book_keys_stable bh bh' (refs : list ref) (rows : list BookRow) :
  ids_stable bh bh' →
  cached_book_id bh <$> refs `sublist_of` (Some ∘ br_id) <$> rows →
  cached_book_id bh' <$> refs = cached_book_id bh <$> refs.
Proof.
  intros Hst Hsub. apply list_fmap_ext. intros i a Ha.
  assert (cached_book_id bh a ∈ (Some ∘ br_id) <$> rows) as Hin.
  { eapply elem_of_sublist; [|done].
    apply list_elem_of_fmap_2. by eapply list_elem_of_lookup_2. }
  apply list_elem_of_fmap in Hin as (r & Hkey & _).
  unfold cached_book_id in *.
  destruct (bh !! a) as [b|] eqn:Hb; [|done].
  destruct (Hst _ _ Hb) as (b' & -> & Hid). simpl. by rewrite Hid.
Qed.

(** ** Statements keep the store consistent *)

Section UpdateWhere.

Context {A : Type} (Q : A → Prop) `{∀ x, Decision (Q x)} (f : A → A).

Lemma elem_of_update_where rows r' :
  r' ∈ update_where Q f rows →
  ∃ r, r ∈ rows ∧ (Q r ∧ r' = f r ∨ ¬ Q r ∧ r' = r).
Proof.
  unfold update_where. intros (r & -> & Hr)%list_elem_of_fmap.
  exists r. split; [done|]. case_decide; [left|right]; done.
Qed.

Lemma fmap_update_where_id {B} (k : A → B) rows :
  (∀ r, Q r → k (f r) = k r) → k <$> update_where Q f rows = k <$> rows.
Proof.
  intros Hk. unfold update_where. rewrite <- list_fmap_compose.
  apply list_fmap_ext. intros i r _. simpl. case_decide; [by apply Hk|done].
Qed.

Context (P : A → Prop) `{∀ x, Decision (P x)}.

Lemma length_filter_update_where rows :
  (∀ r, Q r → ¬ P (f r)) →
  (length (filter P (update_where Q f rows)) ≤ length (filter P rows))%nat.
Proof.
  intros Hf. unfold update_where.
  induction rows as [|r rows IH]; [done|].
  rewrite fmap_cons. case_decide as Hq.
  - rewrite (filter_cons_False P (f r)) by by apply Hf.
    destruct (decide (P r)).
    + rewrite filter_cons_True by done. simpl. lia.
    + by rewrite filter_cons_False.
  - destruct (decide (P r)).
    + rewrite !filter_cons_True by done. simpl. lia.
    + by rewrite !filter_cons_False.
Qed.

Lemma length_filter_update_where_lt rows r :
  (∀ r, Q r → ¬ P (f r)) → r ∈ rows → Q r → P r →
  (length (filter P (update_where Q f rows)) < length (filter P rows))%nat.
Proof.
  intros Hf Hr Hq Hp.
  induction rows as [|x rows IH]; [by apply elem_of_nil in Hr|].
  apply elem_of_cons in Hr as [<-|Hr].
  - pose proof (length_filter_update_where rows Hf) as Hle.
    unfold update_where in *. rewrite fmap_cons.
    rewrite decide_True by done.
    rewrite (filter_cons_False P (f r)) by by apply Hf.
    rewrite (filter_cons_True P r) by done. simpl. lia.
  - specialize (IH Hr). unfold update_where in *. rewrite fmap_cons.
    case_decide as Hqx.
    + rewrite (filter_cons_False P (f x)) by by apply Hf.
      destruct (decide (P x)).
      * rewrite filter_cons_True by done. simpl. lia.
      * by rewrite filter_cons_False.
    + destruct (decide (P x)).
      * rewrite !filter_cons_True by done. simpl. lia.
      * by rewrite !filter_cons_False.
Qed.

End UpdateWhere.

Lemma length_zero_nil {A} (l : list A) : (length l ≤ 0)%nat → l = [].
Proof. destruct l; simpl; [done|lia]. Qed.

Lemma statuses_differ : ON_LOAN ≠ AVAILABLE.
Proof. done. Qed.

(** A change that leaves the loans alone and keeps, for every book row,
    the two promises about it. *)
Lemma store_ok_frame db db' :
  store_ok db →
  loans db' = loans db →
  seq_books db ≤ seq_books db' →
  NoDup (br_id <$> books db') →
  (∀ r, r ∈ books db' →
        br_id r ≤ seq_books db' ∧
        (br_status r = AVAILABLE → open_rows_on db (br_id r) = [])) →
  store_ok db'.
Proof.
  intros Hok Hloans Hseq Hnd Hbooks.
  assert (∀ b, open_rows_on db' b = open_rows_on db b) as Hopen.
  { intros b. unfold open_rows_on. by rewrite Hloans. }
  split.
  - rewrite Hloans. apply Hok.
  - done.
  - intros b. rewrite Hopen. apply Hok.
  - intros r Hr Hst. rewrite Hopen. by apply Hbooks.
  - intros r Hr. by apply Hbooks.
  - intros r Hr. rewrite Hloans in Hr.
    pose proof (loan_books_counted _ Hok r Hr). lia.
Qed.

(** A change that touches neither the loans nor the ids and statuses of
    the books. *)
Lemma store_ok_same_books db db' :
  store_ok db →
  loans db' = loans db →
  seq_books db' = seq_books db →
  books db' = books db →
  store_ok db'.
Proof.
  intros Hok Hloans Hseq Hbooks.
  apply (store_ok_frame db); [done|done|lia| |].
  - rewrite Hbooks. apply Hok.
  - intros r Hr. rewrite Hbooks in Hr. rewrite Hseq. split.
    + by apply Hok.
    + by apply Hok.
Qed.

Lemma store_ok_empty : store_ok Sqlite.empty.
Proof.
  split; simpl; try (intros r Hr; by apply elem_of_nil in Hr).
  - apply NoDup_nil_2.
  - apply NoDup_nil_2.
  - intros b. unfold open_rows_on. simpl. lia.
Qed.

Lemma store_ok_insert_author name bio db id db' :
  store_ok db → insert_author name bio db = Ok (id, db') → store_ok db'.
Proof.
  unfold insert_author. intros Hok. case_bool_decide; [done|].
  intros [= _ <-]. by apply (store_ok_same_books db).
Qed.

Lemma store_ok_insert_user name db :
  store_ok db → store_ok (insert_user name db).2.
Proof. intros Hok. by apply (store_ok_same_books db). Qed.

Lemma store_ok_update_user_name name user_id db :
  store_ok db → store_ok (update_user_name name user_id db).
Proof. intros Hok. by apply (store_ok_same_books db). Qed.

Lemma store_ok_delete_user user_id db :
  store_ok db → store_ok (Sqlite.delete_user user_id db).
Proof. intros Hok. by apply (store_ok_same_books db). Qed.

Lemma store_ok_update_author_bio bio book_id db :
  store_ok db → store_ok (update_author_bio_of_book bio book_id db).
Proof.
  intros Hok. unfold update_author_bio_of_book.
  destruct (select_book db book_id); [|done].
  by apply (store_ok_same_books db).
Qed.

(** An update of book rows that keeps their ids and statuses. *)
Lemma store_ok_update_books db (Q : BookRow → Prop) `{∀ r, Decision (Q r)} f :
  store_ok db →
  (∀ r, br_id (f r) = br_id r) →
  (∀ r, br_status (f r) = br_status r) →
  store_ok (set_books db (update_where Q f (books db)) (seq_books db)).
Proof.
  intros Hok Hid Hst. apply (store_ok_frame db); simpl; [done|done|lia| |].
  - rewrite fmap_update_where_id by (intros; apply Hid). apply Hok.
  - intros r' (r & Hr & Hcase)%elem_of_update_where.
    assert (br_id r' = br_id r ∧ br_status r' = br_status r) as [-> ->].
    { destruct Hcase as [[_ ->]|[_ ->]]; [by rewrite Hid, Hst|done]. }
    split; by apply Hok.
Qed.

Lemma store_ok_update_book_title title book_id db :
  store_ok db → store_ok (update_book_title title book_id db).
Proof. intros Hok. by apply store_ok_update_books. Qed.

Lemma store_ok_update_book_year year book_id db db' :
  store_ok db → update_book_year year book_id db = Ok db' → store_ok db'.
Proof.
  unfold update_book_year. intros Hok.
  destruct (_ || _); [|done]. intros [= <-]. by apply store_ok_update_books.
Qed.

Lemma store_ok_delete_book book_id db :
  store_ok db → store_ok (delete_book book_id db).
Proof.
  intros Hok. apply (store_ok_frame db); simpl; [done|done|lia| |].
  - eapply sublist_NoDup; [apply (book_ids_unique _ Hok)|].
    apply fmap_sublist, sublist_filter.
  - intros r [_ Hr]%list_elem_of_filter. split; by apply Hok.
Qed.

Lemma store_ok_insert_book title author_id year db id db' :
  store_ok db →
  insert_book title author_id year AVAILABLE db = Ok (id, db') →
  store_ok db'.
Proof.
  unfold insert_book. intros Hok. case_bool_decide; [|done].
  intros [= <- <-].
  set (id := next_rowid (seq_books db) (br_id <$> books db)).
  assert (seq_books db < id) as Hseq by apply next_rowid_above_seq.
  apply (store_ok_frame db); simpl; [done|done|lia| |].
  - rewrite fmap_app. apply list.NoDup_app. split_and!.
    + apply Hok.
    + intros x Hx Hid%list_elem_of_singleton.
      apply (next_rowid_fresh (seq_books db)) in Hx. fold id in Hx.
      simpl in Hid. lia.
    + apply NoDup_singleton.
  - intros r [Hr|Hr]%elem_of_app.
    + split; [|by apply Hok]. pose proof (book_ids_counted _ Hok r Hr). lia.
    + apply list_elem_of_singleton in Hr as ->. simpl.
      split; [lia|]. intros _. unfold open_rows_on.
      apply length_zero_nil.
      destruct (filter _ (loans db)) as [|x xs] eqn:E; [simpl; lia|].
      assert (x ∈ filter (λ r, lo_book_id r = id ∧ lo_return_date r = None) (loans db))
        as [[Hx _] Hin]%list_elem_of_filter by (rewrite E; left).
      pose proof (loan_books_counted _ Hok x Hin). lia.
Qed.

(** The two statements of [issue_book], on a book with no open loan. *)
Lemma store_ok_issue db book_id user_id now :
  store_ok db →
  open_rows_on db book_id = [] →
  book_id ≤ seq_books db →
  store_ok (update_book_status ON_LOAN book_id (insert_loan book_id user_id now db).2).
Proof.
  intros Hok Hnone Hseq. unfold insert_loan. simpl.
  set (id := next_rowid (seq_loans db) (lo_id <$> loans db)).
  set (row := mkLoanRow id book_id user_id now None).
  assert (∀ b, open_rows_on
                 (update_book_status ON_LOAN book_id
                    (set_loans db (loans db ++ [row]) id)) b =
               open_rows_on db b ++
                 (if decide (b = book_id) then [row] else [])) as Hopen.
  { intros b. unfold open_rows_on. simpl. rewrite list.filter_app. f_equal.
    case_decide as Hb.
    - by rewrite filter_cons_True.
    - rewrite filter_cons_False; [done|]. simpl. intros [? _]. congruence. }
  split.
  - simpl. rewrite fmap_app. apply list.NoDup_app. split_and!.
    + apply (loan_ids_unique _ Hok).
    + intros x Hx Hid%list_elem_of_singleton.
      apply (next_rowid_fresh (seq_loans db)) in Hx. fold id in Hx.
      simpl in Hid. lia.
    + apply NoDup_singleton.
  - simpl. rewrite fmap_update_where_id by done. apply (book_ids_unique _ Hok).
  - intros b. rewrite Hopen. case_decide as Hb.
    + subst b. by rewrite Hnone.
    + rewrite app_nil_r. apply (one_open_row _ Hok).
  - intros r' (r & Hr & Hcase)%elem_of_update_where Hst.
    destruct Hcase as [[_ ->]|[Hne ->]]; [by destruct statuses_differ|].
    rewrite Hopen, decide_False by done. rewrite app_nil_r.
    by apply (available_no_row _ Hok).
  - intros r' (r & Hr & Hcase)%elem_of_update_where. simpl.
    assert (br_id r' = br_id r) as -> by (by destruct Hcase as [[_ ->]|[_ ->]]).
    by apply (book_ids_counted _ Hok).
  - simpl. intros r [Hr|Hr]%elem_of_app.
    + by apply (loan_books_counted _ Hok).
    + by apply list_elem_of_singleton in Hr as ->.
Qed.

(** The two statements of [return_book], on an open loan row of the book. *)
Lemma store_ok_return db loan_id book_id now r :
  store_ok db →
  r ∈ loans db → lo_id r = loan_id → lo_book_id r = book_id →
  lo_return_date r = None →
  store_ok (update_book_status AVAILABLE book_id
              (update_loan_return_date now loan_id db)).
Proof.
  intros Hok Hr Hid Hbook Hopen.
  set (close := λ r, mkLoanRow (lo_id r) (lo_book_id r) (lo_user_id r)
                               (lo_issue_date r) (Some now)).
  assert (∀ b, length (open_rows_on
                 (update_book_status AVAILABLE book_id
                    (update_loan_return_date now loan_id db)) b)
               ≤ length (open_rows_on db b))%nat as Hle.
  { intros b. unfold open_rows_on. simpl.
    apply length_filter_update_where. intros x _ [_ Hx]. done. }
  assert (open_rows_on
            (update_book_status AVAILABLE book_id
               (update_loan_return_date now loan_id db)) book_id = []) as Hzero.
  { apply length_zero_nil.
    pose proof (one_open_row _ Hok book_id) as Hone.
    assert (length (open_rows_on
                      (update_book_status AVAILABLE book_id
                         (update_loan_return_date now loan_id db)) book_id)
            < length (open_rows_on db book_id))%nat; [|lia].
    unfold open_rows_on. simpl.
    apply (length_filter_update_where_lt _ _ _ _ r); [|done|done|done].
    intros x _ [_ Hx]. done. }
  split.
  - simpl. rewrite fmap_update_where_id by done. apply (loan_ids_unique _ Hok).
  - simpl. rewrite fmap_update_where_id by done. apply (book_ids_unique _ Hok).
  - intros b. pose proof (one_open_row _ Hok b). specialize (Hle b). lia.
  - intros r' (r0 & Hr0 & Hcase)%elem_of_update_where Hst.
    destruct Hcase as [[Heq ->]|[Hne ->]]; simpl.
    + by rewrite Heq.
    + apply length_zero_nil. specialize (Hle (br_id r0)).
      by rewrite (available_no_row _ Hok r0) in Hle.
  - intros r' (r0 & Hr0 & Hcase)%elem_of_update_where. simpl.
    assert (br_id r' = br_id r0) as -> by (by destruct Hcase as [[_ ->]|[_ ->]]).
    by apply (book_ids_counted _ Hok).
  - simpl. intros r' (r0 & Hr0 & Hcase)%elem_of_update_where.
    assert (lo_book_id r' = lo_book_id r0) as ->
      by (by destruct Hcase as [[_ ->]|[_ ->]]).
    by apply (loan_books_counted _ Hok).
Qed.

(** ** The cache follows the store *)

Lemma book_of_row_Some db r b :
  book_of_row db r = Some b →
  Book.get_id b = br_id r ∧ Book.get_status b = br_status r.
Proof.
  unfold book_of_row. destruct (_get_author_by_id db (br_author_id r)); [|done].
  simpl. by intros [= <-].
Qed.

Lemma loaded_books_sublist db rows :
  (Some ∘ Book.get_id) <$> omap (book_of_row db) rows `sublist_of`
    (Some ∘ br_id) <$> rows.
Proof.
  induction rows as [|r rows IH]; [done|]. simpl.
  destruct (book_of_row db r) as [b|] eqn:E.
  - apply book_of_row_Some in E as [<- _]. rewrite fmap_cons.
    by apply sublist_skip.
  - by apply sublist_cons.
Qed.

Lemma load_books_heap db bh :
  (_load_books db bh).2 = bh ++ omap (book_of_row db) (books db).
Proof. done. Qed.

Lemma load_books_ids db bh :
  cached_book_id (_load_books db bh).2 <$> (_load_books db bh).1 =
    (Some ∘ Book.get_id) <$> omap (book_of_row db) (books db).
Proof.
  unfold _load_books, allocate, cached_book_id. simpl.
  set (objs := omap (book_of_row db) (books db)).
  transitivity (fmap Book.get_id <$>
                  ((λ a, (bh ++ objs) !! a) <$> seq (length bh) (length objs))).
  { by rewrite <- list_fmap_compose. }
  rewrite lookup_allocated. by rewrite <- list_fmap_compose.
Qed.

Lemma load_books_row db bh a b :
  a ∈ (_load_books db bh).1 → (_load_books db bh).2 !! a = Some b →
  ∃ r, r ∈ books db ∧ Book.get_id b = br_id r ∧ Book.get_status b = br_status r.
Proof.
  intros Ha Hb. unfold _load_books in *.
  apply allocate_refs in Ha as (o & Ho & Hlook).
  rewrite Hlook in Hb. injection Hb as ->.
  apply list_elem_of_omap in Ho as (r & Hr & Hrow).
  exists r. split; [done|]. by apply book_of_row_Some in Hrow.
Qed.

(** After the book list is loaded again from consistent tables whose
    loans are those the cache agreed with. *)
Lemma cache_ok_reload_books s db db' books bh conn uh users libs authors :
  cache_ok s db → store_ok db' → loans db' = loans db →
  users_stable (user_objects s) uh →
  _load_books db' (book_objects s) = (books, bh) →
  cache_ok (mk conn bh uh books users libs (_loans s) authors) db'.
Proof.
  intros Hc Hok Hloans Hus Hload.
  assert (books = (_load_books db' (book_objects s)).1) as -> by by rewrite Hload.
  assert (bh = (_load_books db' (book_objects s)).2) as -> by by rewrite Hload.
  split; cbn [book_objects user_objects _books _loans].
  - rewrite Hloans.
    rewrite (loan_keys_stable (book_objects s) _ _ (loans db)).
    + apply (loans_cached _ _ Hc).
    + rewrite load_books_heap. apply ids_stable_app.
    + apply (loans_cached _ _ Hc).
  - rewrite load_books_ids. apply loaded_books_sublist.
  - intros a b r Ha Hb Hr Hid Hst.
    destruct (load_books_row _ _ _ _ Ha Hb) as (r0 & Hr0 & Hid0 & Hst0).
    assert (r = r0) as ->.
    { apply (NoDup_fmap_eq br_id (Sqlite.books db')); [|done|done|congruence].
      apply (book_ids_unique _ Hok). }
    congruence.
  - intros l Hl. apply Hus. by apply (loan_users_live _ _ Hc).
Qed.

(** After a change that touches neither the cached books nor the cached
    loans, nor the ids and statuses of the rows. *)
Lemma cache_ok_frame s s' db db' :
  cache_ok s db →
  loans db' = loans db →
  book_row_key <$> books db' = book_row_key <$> books db →
  book_objects s' = book_objects s →
  _books s' = _books s →
  _loans s' = _loans s →
  users_stable (user_objects s) (user_objects s') →
  cache_ok s' db'.
Proof.
  intros Hc Hloans Hbooks Hbh Hbs Hls Hus.
  assert (br_id <$> books db' = br_id <$> books db) as Hids.
  { apply (f_equal (fmap fst)) in Hbooks.
    by rewrite <- !list_fmap_compose in Hbooks. }
  split.
  - rewrite Hbh, Hls, Hloans. apply (loans_cached _ _ Hc).
  - rewrite Hbh, Hbs.
    rewrite (list_fmap_compose br_id Some), Hids, <- list_fmap_compose.
    apply (books_cached _ _ Hc).
  - rewrite Hbh, Hbs. intros a b r' Ha Hb Hr' Hid Hst.
    assert (book_row_key r' ∈ book_row_key <$> books db) as Hin.
    { rewrite <- Hbooks. by apply list_elem_of_fmap_2. }
    apply list_elem_of_fmap in Hin as (r & Hkey & Hr).
    injection Hkey as Hkid Hkst. rewrite Hkst.
    apply (status_cached _ _ Hc a b r); [done|done|done|congruence|done].
  - rewrite Hls. intros l Hl. apply Hus. by apply (loan_users_live _ _ Hc).
Qed.

Lemma cached_book_row s db a b :
  cache_ok s db → a ∈ _books s → book_objects s !! a = Some b →
  ∃ r, r ∈ books db ∧ br_id r = Book.get_id b.
Proof.
  intros Hc Ha Hb.
  assert (cached_book_id (book_objects s) a ∈ (Some ∘ br_id) <$> books db) as Hin.
  { eapply elem_of_sublist; [|apply (books_cached _ _ Hc)].
    by apply list_elem_of_fmap_2. }
  apply list_elem_of_fmap in Hin as (r & Hkey & Hr).
  unfold cached_book_id in Hkey. rewrite Hb in Hkey. simpl in Hkey.
  exists r. split; [done|congruence].
Qed.

Lemma cached_book_ids_unique s db :
  cache_ok s db → store_ok db → NoDup (cached_book_id (book_objects s) <$> _books s).
Proof.
  intros Hc Hok. eapply sublist_NoDup; [|apply (books_cached _ _ Hc)].
  rewrite (list_fmap_compose br_id Some).
  apply (NoDup_fmap_2 Some), (book_ids_unique _ Hok).
Qed.

Lemma cached_loan_ids_unique s db :
  cache_ok s db → store_ok db → NoDup (Loan.get_id <$> _loans s).
Proof.
  intros Hc Hok.
  pose proof (loans_cached _ _ Hc) as Hsub.
  apply (fmap_sublist (λ k : loan_key, k.1.1)) in Hsub.
  rewrite <- !list_fmap_compose in Hsub.
  eapply sublist_NoDup; [apply (loan_ids_unique _ Hok)|done].
Qed.

Lemma cached_loan_row s db l :
  cache_ok s db → l ∈ _loans s →
  ∃ r b, r ∈ loans db ∧ book_objects s !! Loan.get_book l = Some b ∧
         lo_id r = Loan.get_id l ∧ lo_book_id r = Book.get_id b ∧
         (lo_return_date r = None ↔ Loan.get_return_date l = None).
Proof.
  intros Hc Hl.
  assert (key_of_loan (book_objects s) l ∈ key_of_row <$> loans db) as Hin.
  { eapply elem_of_sublist; [|apply (loans_cached _ _ Hc)].
    by apply list_elem_of_fmap_2. }
  apply list_elem_of_fmap in Hin as (r & Hkey & Hr).
  unfold key_of_loan, key_of_row in Hkey.
  destruct (book_objects s !! Loan.get_book l) as [b|] eqn:Hb; [|done].
  injection Hkey as Hid Hbook Hopen.
  exists r, b. split_and!; [done|done|done|done|].
  rewrite <- (bool_decide_eq_true (lo_return_date r = None)).
  rewrite <- (bool_decide_eq_true (Loan.get_return_date l = None)).
  by rewrite Hopen.
Qed.

Lemma cache_ok_issue s db conn now user_id book_id user_ref user book_ref book :
  cache_ok s db → store_ok db →
  found_user s user_id = Some (user_ref, user) →
  found_book s book_id = Some (book_ref, book) →
  cache_ok
    (mk conn (<[book_ref := Book.set_status book ON_LOAN]> (book_objects s))
        (<[user_ref := (User.borrow_book user book_ref).2]> (user_objects s))
        (_books s) (_users s) (_librarians s)
        (_loans s ++ [Loan.mk (insert_loan book_id user_id now db).1
                              book_ref user_ref now None])
        (_authors s))
    (update_book_status ON_LOAN book_id (insert_loan book_id user_id now db).2).
Proof.
  intros Hc Hok Hu Hb.
  apply first_with_id_Some in Hu as (_ & Hu & _).
  apply first_with_id_Some in Hb as (Hbin & Hb & Hbid).
  assert (ids_stable (book_objects s)
            (<[book_ref := Book.set_status book ON_LOAN]> (book_objects s))) as Hst
    by by eapply ids_stable_insert.
  assert (book_ref < length (book_objects s))%nat as Hlt by by eapply lookup_lt_Some.
  split; cbn [book_objects user_objects _books _loans].
  - unfold insert_loan. simpl. rewrite !fmap_app. apply sublist_app.
    + rewrite (loan_keys_stable (book_objects s) _ _ (loans db)); [|done|].
      * apply (loans_cached _ _ Hc).
      * apply (loans_cached _ _ Hc).
    + simpl. unfold key_of_loan, key_of_row. simpl.
      rewrite list_lookup_insert_eq by done. simpl.
      unfold Book.get_id in Hbid. by rewrite Hbid.
  - simpl. rewrite (list_fmap_compose br_id Some).
    rewrite fmap_update_where_id by done. rewrite <- list_fmap_compose.
    rewrite (book_keys_stable (book_objects s) _ _ (books db)); [|done|].
    + apply (books_cached _ _ Hc).
    + apply (books_cached _ _ Hc).
  - intros a b1 r' Ha Hb1 (r & Hr & Hcase)%elem_of_update_where Hid Hstatus.
    destruct (decide (a = book_ref)) as [->|Hne].
    { rewrite list_lookup_insert_eq in Hb1 by done. injection Hb1 as <-.
      by destruct statuses_differ. }
    rewrite list_lookup_insert_ne in Hb1 by done.
    destruct Hcase as [[Heq ->]|[_ ->]].
    + exfalso. apply Hne. simpl in Hid.
      apply (NoDup_fmap_eq (cached_book_id (book_objects s)) (_books s));
        [by eapply cached_book_ids_unique|done|done|].
      unfold cached_book_id. rewrite Hb1, Hb. simpl. congruence.
    + by apply (status_cached _ _ Hc a b1 r).
  - intros l [Hl|Hl]%elem_of_app.
    + apply users_stable_insert. by apply (loan_users_live _ _ Hc).
    + apply list_elem_of_singleton in Hl as ->. simpl.
      apply users_stable_insert. by exists user.
Qed.

(** What the statements of [issue_book] need of the book found. *)
Lemma found_book_issuable s db book_id book_ref book :
  cache_ok s db → store_ok db →
  found_book s book_id = Some (book_ref, book) →
  Book.get_status book = AVAILABLE →
  open_rows_on db book_id = [] ∧ book_id ≤ seq_books db.
Proof.
  intros Hc Hok Hb Hst.
  apply first_with_id_Some in Hb as (Hbin & Hb & <-).
  destruct (cached_book_row _ _ _ _ Hc Hbin Hb) as (r & Hr & Hid).
  rewrite <- Hid. split.
  - apply (available_no_row _ Hok r Hr).
    by apply (status_cached _ _ Hc book_ref book r).
  - by apply (book_ids_counted _ Hok).
Qed.

Lemma fmap_fixed_but_one {A} (g : A → A) (l : list A) i x :
  l !! i = Some x →
  (∀ j y, l !! j = Some y → j ≠ i → g y = y) →
  g <$> l = <[i := g x]> l.
Proof.
  intros Hi Hfix. apply list_eq. intros j. rewrite list_lookup_fmap.
  destruct (decide (j = i)) as [->|Hne].
  - rewrite Hi. simpl. symmetry. apply list_lookup_insert_eq.
    by eapply lookup_lt_Some.
  - rewrite list_lookup_insert_ne by done.
    destruct (l !! j) as [y|] eqn:Hj; [|done]. simpl. f_equal. by eapply Hfix.
Qed.

Lemma cache_ok_return s db conn now loan_id i loan book user :
  cache_ok s db → store_ok db →
  list_find (λ l, Loan.get_id l = loan_id) (_loans s) = Some (i, loan) →
  book_objects s !! Loan.get_book loan = Some book →
  user_objects s !! Loan.get_user loan = Some user →
  cache_ok
    (mk conn (<[Loan.get_book loan := Book.set_status book AVAILABLE]> (book_objects s))
        (<[Loan.get_user loan := (User.return_book user (Loan.get_book loan)).2]>
           (user_objects s))
        (_books s) (_users s) (_librarians s)
        (<[i := Loan.return_book loan now]> (_loans s))
        (_authors s))
    (update_book_status AVAILABLE (Book.get_id book)
       (update_loan_return_date now loan_id db)).
Proof.
  intros Hc Hok Hfind Hb Hu.
  apply list_find_Some in Hfind as (Hi & Hid & _).
  assert (ids_stable (book_objects s)
            (<[Loan.get_book loan := Book.set_status book AVAILABLE]> (book_objects s)))
    as Hst by by eapply ids_stable_insert.
  assert (Loan.get_book loan < length (book_objects s))%nat as Hlt
    by by eapply lookup_lt_Some.
  split; cbn [book_objects user_objects _books _loans].
  - assert (key_of_row <$> loans (update_book_status AVAILABLE (Book.get_id book)
                                    (update_loan_return_date now loan_id db))
            = close_key loan_id <$> (key_of_row <$> loans db)) as ->.
    { simpl. rewrite <- list_fmap_compose. unfold update_where.
      rewrite <- list_fmap_compose. apply list_fmap_ext. intros j r _. simpl.
      unfold close_key, key_of_row. simpl. by repeat case_decide. }
    assert (key_of_loan
              (<[Loan.get_book loan := Book.set_status book AVAILABLE]> (book_objects s))
              <$> <[i := Loan.return_book loan now]> (_loans s)
            = close_key loan_id <$> (key_of_loan (book_objects s) <$> _loans s)) as ->.
    { rewrite list_fmap_insert.
      rewrite (loan_keys_stable (book_objects s) _ _ (loans db));
        [|done|apply (loans_cached _ _ Hc)].
      rewrite (fmap_fixed_but_one (close_key loan_id) _ i
                 (key_of_loan (book_objects s) loan)).
      - f_equal. unfold close_key, key_of_loan. simpl.
        rewrite decide_True by done.
        rewrite list_lookup_insert_eq by done. by rewrite Hb.
      - by rewrite list_lookup_fmap, Hi.
      - intros j k Hj Hne. unfold close_key.
        rewrite list_lookup_fmap in Hj.
        destruct (_loans s !! j) as [l|] eqn:Hl; [|done].
        injection Hj as <-. simpl. rewrite decide_False; [done|].
        intros Heq. apply Hne.
        eapply (NoDup_lookup (Loan.get_id <$> _loans s));
          [by eapply cached_loan_ids_unique| |].
        + rewrite list_lookup_fmap, Hl. simpl. reflexivity.
        + rewrite list_lookup_fmap, Hi. simpl. congruence. }
    apply fmap_sublist, (loans_cached _ _ Hc).
  - simpl. rewrite (list_fmap_compose br_id Some).
    rewrite fmap_update_where_id by done. rewrite <- list_fmap_compose.
    rewrite (book_keys_stable (book_objects s) _ _ (books db)); [|done|].
    + apply (books_cached _ _ Hc).
    + apply (books_cached _ _ Hc).
  - intros a b1 r' Ha Hb1 (r & Hr & Hcase)%elem_of_update_where Hbid Hstatus.
    destruct Hcase as [[Heq ->]|[Hne ->]]; [done|].
    destruct (decide (a = Loan.get_book loan)) as [->|Hna].
    { rewrite list_lookup_insert_eq in Hb1 by done. injection Hb1 as <-.
      by destruct Hne. }
    rewrite list_lookup_insert_ne in Hb1 by done.
    by apply (status_cached _ _ Hc a b1 r).
  - intros l (j & Hj)%list_elem_of_lookup_1.
    apply users_stable_insert.
    apply list_lookup_insert_Some in Hj as [(_ & <- & _)|[_ Hj]].
    + simpl. by exists user.
    + apply (loan_users_live _ _ Hc). by eapply list_elem_of_lookup_2.
Qed.

(** The row behind the loan that [return_book] closes. *)
Lemma found_loan_row s db loan_id i loan book :
  cache_ok s db →
  list_find (λ l, Loan.get_id l = loan_id) (_loans s) = Some (i, loan) →
  Loan.get_return_date loan = None →
  book_objects s !! Loan.get_book loan = Some book →
  ∃ r, r ∈ loans db ∧ lo_id r = loan_id ∧ lo_book_id r = Book.get_id book ∧
       lo_return_date r = None.
Proof.
  intros Hc Hfind Hopen Hb.
  apply list_find_Some in Hfind as (Hi & Hid & _).
  destruct (cached_loan_row s db loan Hc) as (r & b & Hr & Hb' & Hrid & Hrb & Hro);
    [by eapply list_elem_of_lookup_2|].
  exists r. split_and!; [done|congruence|congruence|tauto].
Qed.

Lemma cached_book_row_live s db a :
  cache_ok s db → a ∈ _books s → is_Some (book_objects s !! a).
Proof.
  intros Hc Ha.
  assert (cached_book_id (book_objects s) a ∈ (Some ∘ br_id) <$> books db) as Hin.
  { eapply elem_of_sublist; [|apply (books_cached _ _ Hc)].
    by apply list_elem_of_fmap_2. }
  apply list_elem_of_fmap in Hin as (r & Hkey & Hr).
  unfold cached_book_id in Hkey.
  by destruct (book_objects s !! a).
Qed.

(** ** Loading the loans *)

Lemma get_book_by_id_id db book_id b :
  _get_book_by_id db book_id = Some b → Book.get_id b = book_id.
Proof.
  unfold _get_book_by_id, select_book.
  destruct (list_find _ _) as [[i r]|] eqn:E; [|done]. simpl.
  apply list_find_Some in E as (_ & Hid & _).
  intros [Hb _]%book_of_row_Some. congruence.
Qed.

Lemma load_loans_spec db rows :
  ∀ bh uh ls bh' uh',
    _load_loans db rows bh uh = (ls, bh', uh') →
    (∃ bx, bh' = bh ++ bx) ∧ (∃ ux, uh' = uh ++ ux) ∧
    key_of_loan bh' <$> ls `sublist_of` key_of_row <$> rows ∧
    (∀ l, l ∈ ls → is_Some (uh' !! Loan.get_user l)).
Proof.
  induction rows as [|r rows IH]; intros bh uh ls bh' uh'; simpl.
  - intros [= <- <- <-]. split_and!.
    + exists []. by rewrite app_nil_r.
    + exists []. by rewrite app_nil_r.
    + done.
    + intros l Hl. by apply elem_of_nil in Hl.
  - destruct (_get_book_by_id db (lo_book_id r)) as [book|] eqn:Hbook;
      [destruct (_get_user_by_id db (lo_user_id r)) as [user|] eqn:Huser|].
    + destruct (_load_loans db rows (bh ++ [book]) (uh ++ [user]))
        as [[ls0 bh0] uh0] eqn:Hrec.
      intros [= <- <- <-].
      destruct (IH _ _ _ _ _ Hrec) as ([bx ->] & [ux ->] & Hsub & Hlive).
      split_and!.
      * exists ([book] ++ bx). by rewrite app_assoc.
      * exists ([user] ++ ux). by rewrite app_assoc.
      * rewrite !fmap_cons.
        assert (key_of_loan ((bh ++ [book]) ++ bx)
                  (Loan.mk (lo_id r) (length bh) (length uh)
                           (lo_issue_date r) (lo_return_date r)) = key_of_row r) as ->.
        { unfold key_of_loan, key_of_row. simpl.
          rewrite <- app_assoc. simpl. rewrite list_lookup_middle by done. simpl.
          apply get_book_by_id_id in Hbook. by rewrite Hbook. }
        by apply sublist_skip.
      * intros l [->|Hl]%elem_of_cons; [|by apply Hlive]. simpl.
        exists user. rewrite <- app_assoc. simpl. by apply list_lookup_middle.
    + intros Hrec. destruct (IH _ _ _ _ _ Hrec) as (Hb & Hu & Hsub & Hlive).
      split_and!; [done|done| |done]. by apply sublist_cons.
    + intros Hrec. destruct (IH _ _ _ _ _ Hrec) as (Hb & Hu & Hsub & Hlive).
      split_and!; [done|done| |done]. by apply sublist_cons.
Qed.

Lemma cache_ok_load_loans s db conn users libs authors ls bh uh :
  cache_ok s db → _loans s = [] →
  _load_loans db (loans db) (book_objects s) (user_objects s) = (ls, bh, uh) →
  cache_ok (mk conn bh uh (_books s) users libs ls authors) db.
Proof.
  intros Hc Hnil Hload.
  destruct (load_loans_spec _ _ _ _ _ _ _ Hload) as ([bx ->] & [ux ->] & Hsub & Hlive).
  split; cbn [book_objects user_objects _books _loans].
  - done.
  - rewrite (book_keys_stable (book_objects s) _ _ (books db)).
    + apply (books_cached _ _ Hc).
    + apply ids_stable_app.
    + apply (books_cached _ _ Hc).
  - intros a b r Ha Hb Hr Hid Hst.
    apply (status_cached _ _ Hc a b r); [done| |done|done|done].
    destruct (cached_book_row_live s db a Hc Ha) as [b0 Hb0].
    rewrite (lookup_app_l_Some _ _ _ _ Hb0) in Hb. congruence.
  - done.
Qed.

(** ** Every call keeps the engine consistent *)

Lemma cache_ok_set_conn s conn db : cache_ok s db → cache_ok (set_conn s conn) db.
Proof.
  intros Hc. apply (cache_ok_frame s _ db); try done. apply users_stable_refl.
Qed.

Lemma consistent_commit s :
  committed (_conn s) = working (_conn s) →
  store_ok (working (_conn s)) →
  cache_ok s (working (_conn s)) →
  consistent s.
Proof. intros Heq Hok Hc. split; by rewrite ?Heq. Qed.

Lemma consistent_rollback s :
  consistent s → consistent (set_conn s (rollback (_conn s))).
Proof.
  intros [Hc _ Hcc _]. apply consistent_commit; simpl; [done|done|].
  by apply cache_ok_set_conn.
Qed.

Lemma bind_Ok {A B} (r : result A) (k : A → result B) b :
  r ≫= k = Ok b → ∃ a, r = Ok a ∧ k a = Ok b.
Proof. destruct r as [a|e]; [|done]. intros H. by exists a. Qed.

Lemma insert_author_loans name bio w id w' :
  insert_author name bio w = Ok (id, w') → loans w' = loans w.
Proof.
  unfold insert_author. case_bool_decide; [done|]. by intros [= _ <-].
Qed.

Lemma insert_book_loans title author_id year status w id w' :
  insert_book title author_id year status w = Ok (id, w') → loans w' = loans w.
Proof.
  unfold insert_book. case_bool_decide; [|done]. by intros [= _ <-].
Qed.

Lemma add_book_statements_ok title author_name author_bio year w w' :
  add_book_statements title author_name author_bio year w = Ok w' →
  store_ok w → store_ok w' ∧ loans w' = loans w.
Proof.
  unfold add_book_statements, add_book_author. intros H Hok.
  apply bind_Ok in H as ([author_id w0] & Hauthor & H). cbv beta iota in H.
  apply bind_Ok in H as ([id w1] & Hbook & H). cbv beta iota in H.
  injection H as <-.
  assert (store_ok w0 ∧ loans w0 = loans w) as [Hok0 Hloans0].
  { destruct (select_author_id w author_name).
    - by injection Hauthor as _ <-.
    - split; [by eapply store_ok_insert_author|by eapply insert_author_loans]. }
  split; [by eapply store_ok_insert_book|].
  rewrite <- Hloans0. by eapply insert_book_loans.
Qed.

Lemma demo_statements_ok w w' :
  demo_statements w = Ok w' → store_ok w → store_ok w' ∧ loans w' = loans w.
Proof.
  unfold demo_statements. intros H Hok.
  apply bind_Ok in H as ([a1 w1] & H1 & H). cbv beta iota in H.
  apply bind_Ok in H as ([a2 w2] & H2 & H). cbv beta iota in H.
  apply bind_Ok in H as ([b1 w3] & H3 & H). cbv beta iota in H.
  apply bind_Ok in H as ([b2 w4] & H4 & H). cbv beta iota in H.
  injection H as <-. split.
  - apply store_ok_insert_user, store_ok_insert_user.
    eapply store_ok_insert_book; [|done].
    eapply store_ok_insert_book; [|done].
    eapply store_ok_insert_author; [|done].
    by eapply store_ok_insert_author.
  - simpl. rewrite (insert_book_loans _ _ _ _ _ _ _ H4).
    rewrite (insert_book_loans _ _ _ _ _ _ _ H3).
    rewrite (insert_author_loans _ _ _ _ _ H2).
    by rewrite (insert_author_loans _ _ _ _ _ H1).
Qed.

(** An exception leaves the engine with the statements executed so far
    in the open transaction. *)
Lemma consistent_pending s w :
  consistent s → store_ok w →
  loans w = loans (working (_conn s)) →
  book_row_key <$> books w = book_row_key <$> books (working (_conn s)) →
  consistent (set_conn s (execute (_conn s) w)).
Proof.
  intros Hs Hok Hloans Hkeys. split; simpl; [apply Hs|done| |].
  - apply cache_ok_set_conn, Hs.
  - apply (cache_ok_frame s _ (working (_conn s))); try done.
    + apply Hs.
    + apply users_stable_refl.
Qed.

Lemma consistent_add_book s title author_name author_bio year :
  consistent s → consistent (add_book s title author_name author_bio year).2.
Proof.
  intros Hs. destruct (decide (is_int64 year)) as [Hyear|Hyear].
  - rewrite add_book_int64 by done.
    destruct (add_book_statements _ _ _ _ _) as [w|] eqn:Hst.
    + destruct (add_book_statements_ok _ _ _ _ _ _ Hst (working_ok _ Hs))
        as [Hok Hloans].
      destruct (_load_books w (book_objects s)) as [books bh] eqn:Hload. simpl.
      apply consistent_commit; simpl; [done|done|].
      eapply cache_ok_reload_books;
        [apply (cache_working _ Hs)|done|done|apply users_stable_refl|done].
    + by apply consistent_rollback.
  - rewrite add_book_overflow by done. unfold add_book_author.
    destruct (select_author_id _ author_name) as [author_id|].
    + apply consistent_pending; [done|apply Hs|done|done].
    + destruct (insert_author author_name author_bio (working (_conn s)))
        as [[author_id w]|] eqn:Hins; [|by apply consistent_rollback].
      pose proof (store_ok_insert_author _ _ _ _ _ (working_ok _ Hs) Hins) as Hok.
      unfold insert_author in Hins. case_bool_decide; [done|].
      injection Hins as _ <-. by apply consistent_pending.
Qed.

Lemma consistent_remove_book s book_id :
  consistent s → consistent (remove_book s book_id).2.
Proof.
  intros Hs. unfold remove_book. case_bool_decide; [|done]. cbv zeta.
  destruct (_load_books _ (book_objects s)) as [books bh] eqn:Hload. simpl.
  apply consistent_commit; simpl; [done|by apply store_ok_delete_book, Hs|].
  eapply cache_ok_reload_books;
    [apply (cache_working _ Hs)|by apply store_ok_delete_book, Hs|done
    |apply users_stable_refl|done].
Qed.

Lemma consistent_edit_book s book_id title year author_bio :
  consistent s → consistent (edit_book s book_id title year author_bio).2.
Proof.
  intros Hs.
  set (P := λ w, store_ok w ∧ loans w = loans (working (_conn s)) ∧
                 book_row_key <$> books w
                   = book_row_key <$> books (working (_conn s))).
  apply (edit_book_elim s book_id title year author_bio P
           (λ w, store_ok w ∧ loans w = loans (working (_conn s)))
           (λ r, consistent r.2)); unfold P.
  - split_and!; [apply Hs|done|done].
  - intros w t (Hok & Hloans & Hkeys). split_and!.
    + by apply store_ok_update_book_title.
    + done.
    + simpl. by rewrite fmap_update_where_id.
  - intros w (Hok & Hloans & _). done.
  - intros w y w' [Hok Hloans] Hupd. split; [by eapply store_ok_update_book_year|].
    unfold update_book_year in Hupd. destruct (_ || _); [|done].
    by injection Hupd as <-.
  - intros w b [Hok Hloans]. split; [by apply store_ok_update_author_bio|].
    unfold update_author_bio_of_book. by destruct (select_book w book_id).
  - intros w [Hok Hloans]. cbv zeta.
    destruct (_load_books w (book_objects s)) as [books bh] eqn:Hload. simpl.
    apply consistent_commit; simpl; [done|done|].
    eapply cache_ok_reload_books;
      [apply (cache_working _ Hs)|done|done|apply users_stable_refl|done].
  - intros w e (Hok & Hloans & Hkeys). by apply consistent_pending.
  - by apply consistent_rollback.
Qed.

Lemma consistent_register_user s name :
  consistent s → consistent (register_user s name).2.
Proof.
  intros Hs. unfold register_user. simpl.
  apply consistent_commit; simpl; [done|by apply store_ok_insert_user, Hs|].
  apply (cache_ok_frame s _ (working (_conn s))); try done.
  - apply Hs.
  - apply users_stable_app.
Qed.

Lemma consistent_edit_user s user_id name :
  consistent s → consistent (edit_user s user_id name).2.
Proof.
  intros Hs. unfold edit_user. case_bool_decide; [|done]. simpl.
  apply consistent_commit; simpl; [done|by apply store_ok_update_user_name, Hs|].
  apply (cache_ok_frame s _ (working (_conn s))); try done.
  - apply Hs.
  - simpl. destruct (first_with_id _ _ _ _) as [[a user]|].
    + apply users_stable_insert.
    + apply users_stable_refl.
Qed.

Lemma consistent_delete_user s user_id :
  consistent s → consistent (LibrarySystem.delete_user s user_id).2.
Proof.
  intros Hs. unfold LibrarySystem.delete_user. case_bool_decide; [|done]. simpl.
  apply consistent_commit; simpl; [done|by apply store_ok_delete_user, Hs|].
  apply (cache_ok_frame s _ (working (_conn s))); try done.
  - apply Hs.
  - apply users_stable_refl.
Qed.

Lemma consistent_issue_book s now user_id book_id :
  consistent s → consistent (issue_book s now user_id book_id).2.
Proof.
  intros Hs. unfold issue_book.
  fold (found_user s user_id) (found_book s book_id).
  destruct (found_user s user_id) as [[user_ref user]|] eqn:Hu; [|done].
  destruct (found_book s book_id) as [[book_ref book]|] eqn:Hb; [|done].
  destruct (Book.is_available book) eqn:Hav; [|done]. simpl.
  case_bool_decide; [done|].
  apply is_available_status in Hav.
  destruct (found_book_issuable s _ _ _ _ (cache_working _ Hs) (working_ok _ Hs) Hb Hav)
    as [Hnone Hseq].
  destruct (insert_loan book_id user_id now (working (_conn s))) as [loan_id w] eqn:Hins.
  simpl. apply consistent_commit; simpl.
  - done.
  - replace w with (insert_loan book_id user_id now (working (_conn s))).2
      by by rewrite Hins.
    apply store_ok_issue; [apply Hs|done|done].
  - replace w with (insert_loan book_id user_id now (working (_conn s))).2
      by by rewrite Hins.
    replace loan_id with (insert_loan book_id user_id now (working (_conn s))).1
      by by rewrite Hins.
    apply cache_ok_issue; [apply Hs|apply Hs|done|done].
Qed.

Lemma consistent_return_book s now loan_id :
  consistent s → consistent (return_book s now loan_id).2.
Proof.
  intros Hs. unfold return_book.
  destruct (list_find _ (_loans s)) as [[i loan]|] eqn:Hfind; [|done].
  destruct (Loan.get_return_date loan) eqn:Hopen; [done|].
  destruct (book_objects s !! Loan.get_book loan) as [book|] eqn:Hb; [|done].
  destruct (user_objects s !! Loan.get_user loan) as [user|] eqn:Hu; [|done].
  simpl. apply consistent_commit; simpl.
  - done.
  - destruct (found_loan_row s _ _ _ _ _ (cache_working _ Hs) Hfind Hopen Hb)
      as (r & Hr & Hid & Hbook & Hro).
    by apply (store_ok_return _ _ _ _ r); [apply Hs|..].
  - apply cache_ok_return; [apply Hs|apply Hs|done|done|done].
Qed.

Lemma consistent__init_demo_data s :
  consistent s → consistent (_init_demo_data s).
Proof.
  intros Hs. unfold _init_demo_data.
  destruct (demo_statements _) as [w|] eqn:Hst.
  - destruct (demo_statements_ok _ _ Hst (working_ok _ Hs)) as [Hok Hloans].
    destruct (_load_books w (book_objects s)) as [books bh] eqn:Hload.
    destruct (_load_users w (user_objects s)) as [users uh] eqn:Husers.
    apply consistent_commit; simpl; [done|done|].
    eapply cache_ok_reload_books; [apply (cache_working _ Hs)|done|done| |done].
    unfold _load_users, allocate in Husers. injection Husers as _ <-.
    apply users_stable_app.
  - by apply consistent_rollback.
Qed.

Lemma consistent___init__ file : store_ok file → consistent (__init__ file).
Proof.
  intros Hok. unfold __init__. cbv zeta.
  change (working (connect file)) with file.
  destruct (_load_books file []) as [books bh0] eqn:Hbooks.
  destruct (_load_users file []) as [users uh0] eqn:Husers.
  destruct (_load_loans file (loans file) bh0 uh0) as [[ls bh] uh] eqn:Hloans.
  set (blank := mk (connect file) [] [] [] [] [] [] []).
  assert (cache_ok blank file) as Hblank.
  { split; simpl.
    - apply sublist_nil_l.
    - apply sublist_nil_l.
    - intros a b r Ha. by apply elem_of_nil in Ha.
    - intros l Hl. by apply elem_of_nil in Hl. }
  assert (cache_ok (mk (connect file) bh0 uh0 books users [] [] []) file) as Hloaded.
  { eapply (cache_ok_reload_books blank file file); try done.
    intros a [u Hu]. done. }
  assert (consistent (mk (connect file) bh uh books users (_load_librarians file) ls
                         (_load_authors file))) as Hs.
  { apply consistent_commit; simpl; [done|done|].
    by eapply (cache_ok_load_loans _ file (connect file)) in Hloaded. }
  destruct books; [by apply consistent__init_demo_data|done].
Qed.

Lemma consistent_restart s : consistent s → consistent (restart s).
Proof. intros Hs. apply consistent___init__, Hs. Qed.

Lemma consistent_step s c : consistent s → consistent (step s c).
Proof.
  intros Hs. destruct c; simpl.
  - by apply consistent_add_book.
  - by apply consistent_remove_book.
  - by apply consistent_edit_book.
  - by apply consistent_register_user.
  - by apply consistent_edit_user.
  - by apply consistent_delete_user.
  - by apply consistent_issue_book.
  - by apply consistent_return_book.
  - by apply consistent_restart.
Qed.

Lemma reachable_consistent file s :
  store_ok file → reachable file s → consistent s.
Proof.
  intros Hok Hr. induction Hr as [|s c _ IH].
  - by apply consistent___init__.
  - by apply consistent_step.
Qed.

Lemma reachable_run file s calls :
  reachable file s → reachable file (run s calls).
Proof.
  revert s. induction calls as [|c calls IH]; intros s Hs; [done|].
  simpl. apply IH. by apply reachable_step.
Qed.

(** ** One open loan per book *)

Lemma length_filter_sublist {A} (P : A → Prop) `{∀ x, Decision (P x)} (l1 l2 : list A) :
  l1 `sublist_of` l2 → (length (filter P l1) ≤ length (filter P l2))%nat.
Proof.
  induction 1 as [|x l1 l2 _ IH|x l1 l2 _ IH]; [done| |].
  - destruct (decide (P x)).
    + rewrite !filter_cons_True by done. simpl. lia.
    + by rewrite !filter_cons_False.
  - destruct (decide (P x)).
    + rewrite filter_cons_True by done. simpl. lia.
    + by rewrite filter_cons_False.
Qed.

Lemma open_loans_on_le_rows s db book_id :
  cache_ok s db →
  (length (open_loans_on s book_id) ≤ length (open_rows_on db book_id))%nat.
Proof.
  intros Hc.
  assert (length (open_loans_on s book_id) =
          length (filter (open_key_on book_id)
                    (key_of_loan (book_objects s) <$> _loans s))) as ->.
  { rewrite length_filter_fmap. unfold open_loans_on, get_loans. f_equal.
    apply list_filter_iff. intros l.
    unfold open_key_on, key_of_loan, loan_book_id. simpl.
    by rewrite bool_decide_eq_true. }
  assert (length (open_rows_on db book_id) =
          length (filter (open_key_on book_id) (key_of_row <$> loans db))) as ->.
  { rewrite length_filter_fmap. unfold open_rows_on. f_equal.
    apply list_filter_iff. intros r.
    unfold open_key_on, key_of_row. simpl.
    rewrite bool_decide_eq_true. split; intros [H1 H2]; split; congruence. }
  apply length_filter_sublist, (loans_cached _ _ Hc).
Qed.

(** C2: in every engine reachable from the construction on a consistent
    database file, every book id has at most one loan without return date
    in the loan list, and at most one such row in the loans table, as
    committed and as the connection sees it. *)
Theorem single_open_loan_per_book (file : Tables) (s : LibrarySystem.t) (book_id : Z) :
  store_ok file → reachable file s →
  (length (open_loans_on s book_id) ≤ 1)%nat ∧
  (length (open_rows_on (committed (_conn s)) book_id) ≤ 1)%nat ∧
  (length (open_rows_on (working (_conn s)) book_id) ≤ 1)%nat.
Proof.
  intros Hok Hr. pose proof (reachable_consistent _ _ Hok Hr) as Hs.
  split_and!.
  - pose proof (open_loans_on_le_rows s _ book_id (cache_committed _ Hs)).
    pose proof (one_open_row _ (committed_ok _ Hs) book_id). lia.
  - apply (one_open_row _ (committed_ok _ Hs)).
  - apply (one_open_row _ (working_ok _ Hs)).
Qed.

(** ** Returning a book *)

(** With unique ids, the loan that [return_book] finds for the id of a
    cached loan is that loan. *)
Lemma list_find_loan (ls : list Loan.t) loan :
  NoDup (Loan.get_id <$> ls) → loan ∈ ls →
  ∃ i, list_find (λ l, Loan.get_id l = Loan.get_id loan) ls = Some (i, loan).
Proof.
  intros Hnd (i & Hi)%list_elem_of_lookup_1. exists i.
  apply list_find_Some. split_and!; [done|done|].
  intros j y Hj Hlt Hid.
  assert (j = i); [|lia].
  apply (NoDup_lookup (Loan.get_id <$> ls) j i (Loan.get_id loan)); [done| |].
  - by rewrite list_lookup_fmap, Hj; simpl; rewrite Hid.
  - by rewrite list_lookup_fmap, Hi.
Qed.


(** A call on an id whose cached loans are all closed, or are none. *)
Lemma return_book_not_open s now loan_id :
  (∀ l, l ∈ get_loans s → Loan.get_id l = loan_id → Loan.get_return_date l ≠ None) →
  return_book s now loan_id = (false, s).
Proof.
  intros Hclosed. unfold return_book.
  destruct (list_find _ (_loans s)) as [[i loan]|] eqn:Hfind; [|done].
  apply list_find_Some in Hfind as (Hi & Hid & _).
  destruct (Loan.get_return_date loan) eqn:Hret; [done|].
  exfalso. eapply Hclosed; [by eapply list_elem_of_lookup_2|done|done].
Qed.

(** The first call on the id of an open loan of a consistent engine. *)
Lemma return_book_open s now loan :
  consistent s → loan ∈ get_loans s → Loan.get_return_date loan = None →
  ∃ i book user,
    _loans s !! i = Some loan ∧
    book_objects s !! Loan.get_book loan = Some book ∧
    user_objects s !! Loan.get_user loan = Some user ∧
    return_book s now (Loan.get_id loan) =
      (true,
       mk (commit (execute (_conn s)
             (update_book_status AVAILABLE (Book.get_id book)
                (update_loan_return_date now (Loan.get_id loan) (working (_conn s))))))
          (<[Loan.get_book loan := Book.set_status book AVAILABLE]> (book_objects s))
          (<[Loan.get_user loan := (User.return_book user (Loan.get_book loan)).2]>
             (user_objects s))
          (_books s) (_users s) (_librarians s)
          (<[i := Loan.return_book loan now]> (_loans s))
          (_authors s)).
Proof.
  intros Hs Hin Hopen.
  destruct (list_find_loan (_loans s) loan) as [i Hfind]; [|done|].
  { eapply cached_loan_ids_unique; [apply (cache_working _ Hs)|apply Hs]. }
  destruct (cached_loan_row s _ loan (cache_working _ Hs) Hin)
    as (r & book & _ & Hb & _).
  destruct (loan_users_live _ _ (cache_working _ Hs) loan Hin) as [user Hu].
  exists i, book, user.
  pose proof Hfind as (Hi & _)%list_find_Some.
  split_and!; [done|done|done|].
  unfold return_book. rewrite Hfind, Hopen, Hb, Hu. done.
Qed.


(** ** Authors are created once *)










(** ** Where the engine departs from the specification *)

(** Every [User] object that a load creates starts with an empty
    borrowed list, and nothing in [__init__] fills it. *)
Lemma load_loans_users db rows :
  ∀ bh uh ls bh' uh',
    _load_loans db rows bh uh = (ls, bh', uh') →
    Forall (λ u, User.get_borrowed_books u = []) uh →
    Forall (λ u, User.get_borrowed_books u = []) uh'.
Proof.
  induction rows as [|r rows IH]; intros bh uh ls bh' uh'; simpl.
  - by intros [= _ _ <-].
  - destruct (_get_book_by_id db (lo_book_id r)) as [book|];
      [destruct (_get_user_by_id db (lo_user_id r)) as [user|] eqn:Huser|];
      [|by apply IH|by apply IH].
    destruct (_load_loans db rows (bh ++ [book]) (uh ++ [user]))
      as [[ls0 bh0] uh0] eqn:Hrec.
    intros [= _ _ <-] Huh. eapply IH; [done|].
    apply Forall_app. split; [done|]. apply Forall_singleton.
    unfold _get_user_by_id in Huser.
    destruct (select_user db (lo_user_id r)); [|done]. by injection Huser as <-.
Qed.

Lemma load_users_empty db uh :
  Forall (λ u, User.get_borrowed_books u = []) uh →
  Forall (λ u, User.get_borrowed_books u = []) (_load_users db uh).2.
Proof.
  intros Huh. unfold _load_users, allocate. simpl.
  apply Forall_app. split; [done|]. by apply Forall_fmap, Forall_true.
Qed.

Lemma init_users_hold_nothing file :
  Forall (λ u, User.get_borrowed_books u = []) (user_objects (__init__ file)).
Proof.
  unfold __init__. cbv zeta. change (working (connect file)) with file.
  destruct (_load_books file []) as [books bh0] eqn:Hbooks.
  pose proof (load_users_empty file [] (Forall_nil_2 _)) as Husers0.
  destruct (_load_users file []) as [users uh0] eqn:Husers.
  destruct (_load_loans file (loans file) bh0 uh0) as [[ls bh] uh] eqn:Hloans.
  pose proof (load_loans_users _ _ _ _ _ _ _ Hloans Husers0) as Huh.
  destruct books; [|done].
  unfold _init_demo_data. cbn [_conn working connect book_objects user_objects].
  destruct (demo_statements file) as [w|]; [|done].
  destruct (_load_books w bh) as [books' bh'].
  pose proof (load_users_empty w uh Huh) as Huh'.
  by destruct (_load_users w uh) as [users' uh'].
Qed.

(** C4, as the code has it: after the construction of the engine every
    user of the user list has an empty borrowed list, whatever loans the
    store holds.  User 1 of the restarted engine has an open loan on book
    1 and holds no book. *)
Theorem load_leaves_borrowed_lists_empty :
  (∀ file a u,
     a ∈ get_users (__init__ file) →
     user_objects (__init__ file) !! a = Some u →
     User.get_borrowed_books u = []) ∧
  (let s := run fresh_engine [IssueBook 100 1 1; Restart] in
   Loan.get_id <$> open_loans_of s 1 = [1] ∧
   loan_book_id s <$> open_loans_of s 1 = [Some 1] ∧
   borrowed_by s 1 = Some []).
Proof.
  split.
  - intros file a u _ Hu.
    by eapply (Forall_lookup_1 _ _ _ _ (init_users_hold_nothing file)).
  - by vm_compute.
Qed.

(** C3, as the code has it: the limit is checked against the borrowed
    list of the user object, which a restart empties.  In one session the
    fourth loan to user 1 is refused; after a restart it is granted, and
    user 1 has four open loans in the cache and in the table. *)
Theorem limit_lost_on_restart :
  (let s := run fresh_engine four_loans_one_session in
   length (open_loans_of s 1) = 3%nat ∧
   length <$> borrowed_by s 1 = Some 3%nat) ∧
  (let s := run fresh_engine four_loans in
   reachable Sqlite.empty s ∧
   length (open_loans_of s 1) = 4%nat ∧
   length (open_rows_of (committed (_conn s)) 1) = 4%nat ∧
   length <$> borrowed_by s 1 = Some 1%nat).
Proof.
  split; [by vm_compute|]. split; [|by vm_compute].
  apply reachable_run, reachable_init.
Qed.

(** C5, as the code has it: [return_book] flips the status of the book
    object the loan refers to, which is no longer the object of the book
    list once the list has been loaded again; and [edit_book] does not
    load the author list again.  After a successful return the book list
    shows book 1 on loan while its committed row is available; after an
    edit of the bio the author list keeps the former bio. *)
Theorem cache_differs_from_store :
  (let s := run fresh_engine return_after_reload in
   (return_book (run fresh_engine [IssueBook 100 1 1;
                                   AddBook "Идиот" "Фёдор Достоевский" "" 1869])
                200 1).1 = true ∧
   cached_status s 1 = Some ON_LOAN ∧
   stored_status s 1 = Some AVAILABLE) ∧
  (let r := edit_book fresh_engine 1 None None (Some "bio") in
   r.1 = Return true ∧
   Author.get_bio <$> _authors r.2 !! 0%nat = Some "Великий русский писатель" ∧
   ar_bio <$> select_author (committed (_conn r.2)) 1 = Some "bio").
Proof. by vm_compute. Qed.


(** C6, as the code has it: the ValueError leaves [edit_book] with no
    rollback.  The call commits nothing, but the title update stays in the
    open transaction: the connection reads the new title at once, and the
    commit of the next call, here [register_user], makes it durable. *)
Theorem edit_book_bad_year_leaks_title :
  let r := edit_book fresh_engine 1 (Some "Новое название") (Some 0) None in
  r.1 = Raise ValueError ∧
  committed (_conn r.2) = committed (_conn fresh_engine) ∧
  committed_title r.2 1 = Some "Война и мир" ∧
  visible_title r.2 1 = Some "Новое название" ∧
  committed_title (register_user r.2 "Пётр").2 1 = Some "Новое название".
Proof. by vm_compute. Qed.

(** ** What holds of the borrowed lists and of the statuses *)

Lemma remove_first_length book l :
  (length (User.remove_first book l) ≤ length l)%nat.
Proof.
  induction l as [|x l IH]; simpl; [done|].
  case_bool_decide; simpl; lia.
Qed.

Lemma borrow_book_within_limit u book :
  (User.get_borrowed_count u ≤ User.MAX_BOOKS)%nat →
  (User.get_borrowed_count (User.borrow_book u book).2 ≤ User.MAX_BOOKS)%nat.
Proof.
  unfold User.borrow_book, User.get_borrowed_count. intros Hu.
  case_bool_decide; simpl; [|done]. rewrite length_app. simpl. lia.
Qed.

Lemma return_book_within_limit u book :
  (User.get_borrowed_count u ≤ User.MAX_BOOKS)%nat →
  (User.get_borrowed_count (User.return_book u book).2 ≤ User.MAX_BOOKS)%nat.
Proof.
  unfold User.return_book, User.get_borrowed_count. intros Hu.
  case_bool_decide; simpl; [|done].
  pose proof (remove_first_length book (User._borrowed_books u)). lia.
Qed.

Lemma within_limit_init file : within_limit (user_objects (__init__ file)).
Proof.
  unfold within_limit. eapply list.Forall_impl; [apply init_users_hold_nothing|].
  intros u Hu. unfold User.get_borrowed_count, User.get_borrowed_books in *.
  rewrite Hu. simpl. unfold User.MAX_BOOKS. lia.
Qed.

Lemma within_limit_step s c :
  within_limit (user_objects s) → within_limit (user_objects (step s c)).
Proof.
  unfold within_limit. intros Hs. destruct c; cbn [step].
  - by destruct (add_book_cache s title author_name author_bio year) as (-> & _).
  - by destruct (remove_book_cache s book_id) as (-> & _).
  - by destruct (edit_book_cache s book_id title year author_bio) as (-> & _).
  - unfold register_user. simpl. apply Forall_app. split; [done|].
    apply Forall_singleton. unfold User.get_borrowed_count, User.MAX_BOOKS.
    simpl. lia.
  - unfold edit_user. case_bool_decide; [|done]. simpl.
    destruct (first_with_id _ _ _ _) as [[a user]|] eqn:Hfind; [|done].
    apply first_with_id_Some in Hfind as (_ & Hu & _).
    apply Forall_insert; [done|].
    by apply (Forall_lookup_1 _ _ _ _ Hs Hu).
  - unfold LibrarySystem.delete_user. by case_bool_decide.
  - unfold issue_book.
    destruct (first_with_id User.get_id _ _ _) as [[user_ref user]|] eqn:Hu; [|done].
    destruct (first_with_id Book.get_id _ _ _) as [[book_ref book]|]; [|done].
    destruct (Book.is_available book); [|done]. simpl.
    case_bool_decide; [done|]. simpl.
    apply first_with_id_Some in Hu as (_ & Hu & _).
    apply Forall_insert; [done|].
    apply borrow_book_within_limit.
    by apply (Forall_lookup_1 _ _ _ _ Hs Hu).
  - unfold return_book.
    destruct (list_find _ _) as [[i loan]|]; [|done].
    destruct (Loan.get_return_date loan); [done|].
    destruct (book_objects s !! Loan.get_book loan) as [book|]; [|done].
    destruct (user_objects s !! Loan.get_user loan) as [user|] eqn:Hu; [|done].
    simpl. apply Forall_insert; [done|].
    apply return_book_within_limit.
    by apply (Forall_lookup_1 _ _ _ _ Hs Hu).
  - apply within_limit_init.
Qed.

(** X1: the borrowed list of a user of the user list never holds more than 3
    books, in any engine reachable from the construction on any database
    file. *)
Theorem borrowed_list_within_limit (file : Tables) (s : LibrarySystem.t)
    (a : ref) (u : User.t) :
  reachable file s →
  a ∈ get_users s → user_objects s !! a = Some u →
  (User.get_borrowed_count u ≤ 3)%nat.
Proof.
  intros Hr.
  assert (within_limit (user_objects s)) as Hs.
  { induction Hr as [|s c _ IH]; [apply within_limit_init|].
    apply within_limit_step, IH. }
  intros _ Hu. by apply (Forall_lookup_1 _ _ _ _ Hs Hu).
Qed.

(** X2: in an engine reachable from a consistent database file, a book that
    the book list shows available has no open loan, in the loan list or in
    the loans table: [issue_book] never lends a book that is on loan. *)
Theorem available_book_has_no_open_loan (file : Tables) (s : LibrarySystem.t)
    (a : ref) (book : Book.t) :
  store_ok file → reachable file s →
  a ∈ get_books s → book_objects s !! a = Some book →
  Book.get_status book = AVAILABLE →
  open_loans_on s (Book.get_id book) = [] ∧
  open_rows_on (committed (_conn s)) (Book.get_id book) = [].
Proof.
  intros Hok Hr Ha Hb Hst. pose proof (reachable_consistent _ _ Hok Hr) as Hs.
  destruct (cached_book_row _ _ _ _ (cache_committed _ Hs) Ha Hb) as (r & Hrow & Hid).
  assert (open_rows_on (committed (_conn s)) (Book.get_id book) = []) as Hrows.
  { rewrite <- Hid. apply (available_no_row _ (committed_ok _ Hs) r Hrow).
    by apply (status_cached _ _ (cache_committed _ Hs) a book r). }
  split; [|done]. apply length_zero_nil.
  pose proof (open_loans_on_le_rows s _ (Book.get_id book) (cache_committed _ Hs)) as Hle.
  by rewrite Hrows in Hle.
Qed.

Lemma load_loans_fields db rows :
  ∀ bh uh,
    loan_fields <$> (_load_loans db rows bh uh).1.1 =
      row_fields <$> filter (resolves db) rows.
Proof.
  induction rows as [|r rows IH]; intros bh uh; [done|]. simpl.
  destruct (_get_book_by_id db (lo_book_id r)) as [book|] eqn:Hbook;
    [destruct (_get_user_by_id db (lo_user_id r)) as [user|] eqn:Huser|].
  - rewrite filter_cons_True by (unfold resolves; by rewrite Hbook, Huser).
    specialize (IH (bh ++ [book]) (uh ++ [user])).
    destruct (_load_loans db rows (bh ++ [book]) (uh ++ [user])) as [[ls bh'] uh'].
    cbn [fst] in *. by rewrite !fmap_cons, IH.
  - rewrite filter_cons_False; [apply IH|].
    unfold resolves. rewrite Huser. by intros [_ [? ?]].
  - rewrite filter_cons_False; [apply IH|].
    unfold resolves. rewrite Hbook. by intros [[? ?] _].
Qed.

(** X3: the loan list of a newly constructed engine is made, in order, of
    the loan rows of the file whose book and user resolve, with their id,
    issue date and return date; the other rows are dropped. *)
Theorem loaded_loans_are_the_resolved_rows (file : Tables) :
  loan_fields <$> get_loans (__init__ file) =
    row_fields <$> filter (resolves file) (loans file).
Proof.
  unfold __init__. cbv zeta. change (working (connect file)) with file.
  destruct (_load_books file []) as [books bh0].
  destruct (_load_users file []) as [users uh0].
  pose proof (load_loans_fields file (loans file) bh0 uh0) as Hloans.
  destruct (_load_loans file (loans file) bh0 uh0) as [[ls bh] uh].
  simpl in Hloans. destruct books; [|done].
  unfold _init_demo_data. cbn [_conn working connect book_objects user_objects].
  destruct (demo_statements file) as [w|]; [|done].
  destruct (_load_books w bh) as [books' bh'].
  by destruct (_load_users w uh) as [users' uh'].
Qed.

(** ** The theorems at work on the demo data *)

Lemma single_open_loan_per_book_witness :
  let s := run fresh_engine [IssueBook 100 1 1; IssueBook 200 2 1] in
  store_ok Sqlite.empty ∧ reachable Sqlite.empty s ∧
  (length (open_loans_on s 1) ≤ 1)%nat ∧
  (length (open_rows_on (committed (_conn s)) 1) ≤ 1)%nat ∧
  (length (open_rows_on (working (_conn s)) 1) ≤ 1)%nat.
Proof.
  intros s.
  assert (reachable Sqlite.empty s) as Hr by apply reachable_run, reachable_init.
  split; [apply store_ok_empty|]. split; [exact Hr|].
  exact (single_open_loan_per_book Sqlite.empty s 1 store_ok_empty Hr).
Defined.



Lemma borrowed_list_within_limit_witness :
  let s := run fresh_engine four_loans_one_session in
  let u := User.mk "Иван Иванов" 1 [5; 6; 7]%nat in
  reachable Sqlite.empty s ∧ 0%nat ∈ get_users s ∧
  user_objects s !! 0%nat = Some u ∧
  (User.get_borrowed_count u ≤ 3)%nat.
Proof.
  intros s u.
  assert (reachable Sqlite.empty s) as Hr by apply reachable_run, reachable_init.
  assert (0%nat ∈ get_users s) as Hin by (vm_compute; left).
  assert (user_objects s !! 0%nat = Some u) as Hu by (by vm_compute).
  split; [exact Hr|]. split; [exact Hin|]. split; [exact Hu|].
  exact (borrowed_list_within_limit Sqlite.empty s 0%nat u Hr Hin Hu).
Defined.

Lemma available_book_has_no_open_loan_witness :
  let s := run fresh_engine [IssueBook 100 1 1] in
  let book := Book.mk 2 "Преступление и наказание"
                (Author.mk 2 "Фёдор Достоевский" "Классик русской литературы")
                1866 AVAILABLE in
  store_ok Sqlite.empty ∧ reachable Sqlite.empty s ∧
  1%nat ∈ get_books s ∧ book_objects s !! 1%nat = Some book ∧
  Book.get_status book = AVAILABLE ∧
  open_loans_on s (Book.get_id book) = [] ∧
  open_rows_on (committed (_conn s)) (Book.get_id book) = [].
Proof.
  intros s book.
  assert (reachable Sqlite.empty s) as Hr by apply reachable_run, reachable_init.
  assert (1%nat ∈ get_books s) as Hin by (vm_compute; right; left).
  assert (book_objects s !! 1%nat = Some book) as Hb by (by vm_compute).
  split; [apply store_ok_empty|]. split; [exact Hr|]. split; [exact Hin|].
  split; [exact Hb|]. split; [reflexivity|].
  exact (available_book_has_no_open_loan Sqlite.empty s 1%nat book
           store_ok_empty Hr Hin Hb eq_refl).
Defined.

(** * Further properties of the code *)

(** ** Borrowing and giving back, on the objects *)

Lemma remove_first_app_new book (l : list nat) :
  book ∉ l → User.remove_first book (l ++ [book]) = l.
Proof.
  induction l as [|x l IH]; intros Hnew; simpl.
  - by rewrite bool_decide_eq_true_2.
  - apply not_elem_of_cons in Hnew as [Hne Hnew].
    rewrite bool_decide_eq_false_2 by done. by rewrite IH.
Qed.

(** X4: a user who borrows a book that is not yet in the borrowed list and
    gives it back is as before; [borrow_book] at the limit of 3 and
    [return_book] of a book that is not held return False and change
    nothing. *)
Theorem user_borrow_then_return (u : User.t) (book : ref) :
  ((User.get_borrowed_count u < 3)%nat → book ∉ User.get_borrowed_books u →
     (User.borrow_book u book).1 = true ∧
     User.return_book (User.borrow_book u book).2 book = (true, u)) ∧
  ((3 ≤ User.get_borrowed_count u)%nat → User.borrow_book u book = (false, u)) ∧
  (book ∉ User.get_borrowed_books u → User.return_book u book = (false, u)).
Proof.
  destruct u as [name id held].
  unfold User.borrow_book, User.return_book, User.get_borrowed_count,
    User.get_borrowed_books, User.MAX_BOOKS. simpl.
  split_and!.
  - intros Hroom Hnew. rewrite bool_decide_eq_true_2 by done. simpl.
    split; [done|].
    rewrite bool_decide_eq_true_2 by (apply elem_of_app; right; left).
    by rewrite remove_first_app_new.
  - intros Hfull. by rewrite bool_decide_eq_false_2 by lia.
  - intros Hnew. by rewrite bool_decide_eq_false_2.
Qed.

(** X5: a new user who tries to borrow n books in turn holds min(n, 3) of
    them, the first ones; a new librarian holds min(n, 5), the first
    ones. *)
Theorem borrowing_stops_at_the_limit (name : string) (id level : Z) (books : list ref) :
  User.get_borrowed_books (user_borrow_all (User.new name id) books) = take 3 books ∧
  Librarian._borrowed_books
    (librarian_borrow_all (Librarian.new name id level) books) = take 5 books.
Proof.
  split.
  - assert (∀ held u, User.get_borrowed_books u = held → (length held ≤ 3)%nat →
              User.get_borrowed_books (user_borrow_all u books)
                = held ++ take (3 - length held) books) as Hgen.
    { induction books as [|b books IH]; intros held u Hu Hlen; simpl.
      - rewrite take_nil. by rewrite app_nil_r.
      - unfold user_borrow_all in *. unfold User.borrow_book at 2.
        unfold User.get_borrowed_books, User.MAX_BOOKS in *. rewrite Hu.
        case_bool_decide as Hroom; simpl.
        + rewrite (IH (held ++ [b])); [|done|rewrite length_app; simpl; lia].
          rewrite length_app. simpl. rewrite <- app_assoc. simpl.
          destruct (3 - length held)%nat as [|k] eqn:Hk; [lia|]. simpl.
          do 3 f_equal. lia.
        + rewrite (IH held); [|done|done].
          by replace (3 - length held)%nat with 0%nat by lia. }
    rewrite (Hgen [] (User.new name id)); [done|done|simpl; lia].
  - assert (∀ held l, Librarian._borrowed_books l = held → (length held ≤ 5)%nat →
              Librarian._borrowed_books (librarian_borrow_all l books)
                = held ++ take (5 - length held) books) as Hgen.
    { induction books as [|b books IH]; intros held l Hl Hlen; simpl.
      - rewrite take_nil. by rewrite app_nil_r.
      - unfold librarian_borrow_all in *. unfold Librarian.borrow_book at 2.
        unfold Librarian.MAX_BOOKS_LIBRARIAN in *. rewrite Hl.
        case_bool_decide as Hroom; simpl.
        + rewrite (IH (held ++ [b])); [|done|rewrite length_app; simpl; lia].
          rewrite length_app. simpl. rewrite <- app_assoc. simpl.
          destruct (5 - length held)%nat as [|k] eqn:Hk; [lia|]. simpl.
          do 3 f_equal. lia.
        + rewrite (IH held); [|done|done].
          by replace (5 - length held)%nat with 0%nat by lia. }
    rewrite (Hgen [] (Librarian.new name id level)); [done|done|simpl; lia].
Qed.

(** ** What a load puts in the lists *)

Lemma listed_allocated {A} (heap objs more : list A) :
  (λ a, ((allocate heap objs).2 ++ more) !! a) <$> (allocate heap objs).1
    = Some <$> objs.
Proof.
  unfold allocate. simpl. rewrite <- (lookup_allocated heap objs).
  apply list_fmap_ext. intros i a Ha.
  apply lookup_seq in Ha as [-> Hi].
  apply lookup_app_l. rewrite length_app. lia.
Qed.

Lemma listed_books_loaded db bh more :
  (λ a, ((_load_books db bh).2 ++ more) !! a) <$> (_load_books db bh).1
    = Some <$> books_of_store db.
Proof. apply listed_allocated. Qed.

Lemma listed_users_loaded db uh more :
  (λ a, ((_load_users db uh).2 ++ more) !! a) <$> (_load_users db uh).1
    = Some <$> users_of_store db.
Proof. apply listed_allocated. Qed.

Lemma load_loans_heaps db rows bh uh :
  ∃ bx ux, (_load_loans db rows bh uh).1.2 = bh ++ bx ∧
           (_load_loans db rows bh uh).2 = uh ++ ux.
Proof.
  destruct (_load_loans db rows bh uh) as [[ls bh'] uh'] eqn:Hload.
  destruct (load_loans_spec _ _ _ _ _ _ _ Hload) as ([bx ->] & [ux ->] & _).
  by exists bx, ux.
Qed.

Lemma listed_books_reloaded s w conn uh users libs loans authors :
  listed_books
    (let '(books, bh) := _load_books w (book_objects s) in
     mk conn bh uh books users libs loans authors)
    = Some <$> books_of_store w.
Proof.
  pose proof (listed_books_loaded w (book_objects s) []) as H.
  destruct (_load_books w (book_objects s)) as [books bh].
  unfold listed_books, get_books. simpl in *.
  by rewrite app_nil_r in H.
Qed.

Lemma init_demo_listed s :
  listed_books s = Some <$> books_of_store (working (_conn s)) →
  listed_users s = Some <$> users_of_store (working (_conn s)) →
  committed (_conn s) = working (_conn s) →
  listed_books (_init_demo_data s)
    = Some <$> books_of_store (working (_conn (_init_demo_data s))) ∧
  listed_users (_init_demo_data s)
    = Some <$> users_of_store (working (_conn (_init_demo_data s))) ∧
  committed (_conn (_init_demo_data s)) = working (_conn (_init_demo_data s)).
Proof.
  intros Hb Hu Hc. unfold _init_demo_data.
  destruct (demo_statements _) as [w|].
  - pose proof (listed_books_loaded w (book_objects s) []) as Hb'.
    pose proof (listed_users_loaded w (user_objects s) []) as Hu'.
    destruct (_load_books w (book_objects s)) as [books bh].
    destruct (_load_users w (user_objects s)) as [users uh].
    unfold listed_books, listed_users, get_books, get_users. simpl in *.
    rewrite app_nil_r in Hb', Hu'. done.
  - unfold listed_books, listed_users, get_books, get_users in *. simpl.
    by rewrite Hc.
Qed.

Lemma init_listed file :
  let s := __init__ file in
  listed_books s = Some <$> books_of_store (working (_conn s)) ∧
  listed_users s = Some <$> users_of_store (working (_conn s)) ∧
  committed (_conn s) = working (_conn s).
Proof.
  unfold __init__. cbv zeta.
  change (working (connect file)) with file.
  pose proof (listed_books_loaded file []) as Hb.
  pose proof (listed_users_loaded file []) as Hu.
  destruct (_load_books file []) as [books bh0].
  destruct (_load_users file []) as [users uh0].
  destruct (load_loans_heaps file (loans file) bh0 uh0) as (bx & ux & Hbx & Hux).
  destruct (_load_loans file (loans file) bh0 uh0) as [[ls bh] uh].
  simpl in Hb, Hu, Hbx, Hux. subst bh uh.
  assert (listed_books (mk (connect file) (bh0 ++ bx) (uh0 ++ ux) books users
                           (_load_librarians file) ls (_load_authors file))
          = Some <$> books_of_store file) as Hb' by apply Hb.
  assert (listed_users (mk (connect file) (bh0 ++ bx) (uh0 ++ ux) books users
                           (_load_librarians file) ls (_load_authors file))
          = Some <$> users_of_store file) as Hu' by apply Hu.
  destruct books; [by apply init_demo_listed|done].
Qed.

(** The connection of a new engine: the file as it was when a book
    loads from it or when the demo statements fail, the file with the
    demo data committed otherwise. *)
Lemma init_conn file :
  (_conn (__init__ file) = connect file ∧
   (books_of_store file ≠ [] ∨ ∃ e, demo_statements file = Err e)) ∨
  (∃ w, books_of_store file = [] ∧ demo_statements file = Ok w ∧
        _conn (__init__ file) = connect w).
Proof.
  unfold __init__. cbv zeta.
  change (working (connect file)) with file.
  assert ((_load_books file []).1 = seq 0 (length (books_of_store file)))
    as Hb by done.
  destruct (_load_books file []) as [books bh0]. cbn [fst] in Hb.
  destruct (_load_users file []) as [users uh0].
  destruct (_load_loans file (loans file) bh0 uh0) as [[ls bh] uh].
  destruct (books_of_store file) as [|b bs] eqn:Hbooks; cbn [length seq] in Hb;
    subst books.
  - unfold _init_demo_data. cbn [_conn book_objects user_objects].
    change (working (connect file)) with file.
    destruct (demo_statements file) as [w|e] eqn:Hdemo.
    + right. exists w. split_and!; [done..|].
      destruct (_load_books w bh) as [books bh'].
      by destruct (_load_users w uh) as [users' uh'].
    + left. split; [done|]. right. by exists e.
  - left. split; [done|]. by left.
Qed.

(** X6: right after the construction of the engine, and after every
    [add_book], [remove_book] and [edit_book] that returns True, the book
    list is made of new objects, one for each book row of the store whose
    author resolves, in order and with the row's fields; nothing is left
    uncommitted.  After the construction the same holds of the user
    list. *)
Theorem book_list_is_the_store_after_a_load :
  (∀ file,
     let s := __init__ file in
     listed_books s = Some <$> books_of_store (working (_conn s)) ∧
     listed_users s = Some <$> users_of_store (working (_conn s)) ∧
     committed (_conn s) = working (_conn s)) ∧
  (∀ s title author_name author_bio year,
     let r := add_book s title author_name author_bio year in
     r.1 = Return true →
     listed_books r.2 = Some <$> books_of_store (working (_conn r.2)) ∧
     committed (_conn r.2) = working (_conn r.2)) ∧
  (∀ s book_id,
     let r := remove_book s book_id in
     r.1 = Return true →
     listed_books r.2 = Some <$> books_of_store (working (_conn r.2)) ∧
     committed (_conn r.2) = working (_conn r.2)) ∧
  (∀ s book_id title year author_bio,
     let r := edit_book s book_id title year author_bio in
     r.1 = Return true →
     listed_books r.2 = Some <$> books_of_store (working (_conn r.2)) ∧
     committed (_conn r.2) = working (_conn r.2)).
Proof.
  split_and!.
  - apply init_listed.
  - intros s title author_name author_bio year r. unfold r, add_book.
    destruct (add_book_author _ _ _) as [[author_id w0]|]; [|done].
    case_bool_decide; [|done].
    destruct (insert_book _ _ _ _ _) as [[id w]|]; [|done]. intros _.
    pose proof (listed_books_reloaded s w (commit (execute (_conn s) w))
                  (user_objects s) (_users s) (_librarians s) (_loans s)
                  (_load_authors w)) as Hb.
    destruct (_load_books w (book_objects s)) as [books bh]. done.
  - intros s book_id r. unfold r, remove_book.
    case_bool_decide; [|done]. intros _. cbv zeta.
    set (w := delete_book book_id (working (_conn s))).
    pose proof (listed_books_reloaded s w (commit (execute (_conn s) w))
                  (user_objects s) (_users s) (_librarians s) (_loans s)
                  (_authors s)) as Hb.
    destruct (_load_books w (book_objects s)) as [books bh]. done.
  - intros s book_id title year author_bio r. unfold r.
    apply (edit_book_elim s book_id title year author_bio
             (λ _, True) (λ _, True)
             (λ r, r.1 = Return true →
                   listed_books r.2 = Some <$> books_of_store (working (_conn r.2)) ∧
                   committed (_conn r.2) = working (_conn r.2)));
      [done..| |done|done].
    intros w _ _. cbv zeta.
    pose proof (listed_books_reloaded s w (commit (execute (_conn s) w))
                  (user_objects s) (_users s) (_librarians s) (_loans s)
                  (_authors s)) as Hb.
    destruct (_load_books w (book_objects s)) as [books bh]. done.
Qed.

(** ** The catalogue calls *)








(** X9: [remove_book] does not look at the loans: whatever loans refer to
    the book, the loan list, the loans table, the authors and the users
    are afterwards as before, whether the call returns or raises; and
    after a call on an id within the 64-bit range no book of the book
    list and no stored row has the id. *)
Theorem remove_book_leaves_the_loans (s : LibrarySystem.t) (book_id : Z) :
  let w := working (_conn s) in
  let s' := (remove_book s book_id).2 in
  (is_int64 book_id →
     ¬ book_exists s' book_id ∧
     (∀ r, r ∈ books (committed (_conn s')) → br_id r ≠ book_id) ∧
     loans (committed (_conn s')) = loans w ∧
     authors (committed (_conn s')) = authors w ∧
     users (committed (_conn s')) = users w) ∧
  get_loans s' = get_loans s ∧
  loans (working (_conn s')) = loans w ∧
  authors (working (_conn s')) = authors w ∧
  users (working (_conn s')) = users w ∧
  listed_users s' = listed_users s.
Proof.
  intros w s'.
  destruct (decide (is_int64 book_id)) as [Hid|Hid]; cycle 1.
  { unfold s', remove_book. rewrite bool_decide_eq_false_2 by done.
    split; [done|]. done. }
  assert (listed_books s' = Some <$> books_of_store (delete_book book_id w))
    as Hlisted.
  { unfold s', remove_book. rewrite bool_decide_eq_true_2 by done.
    fold w. apply listed_books_reloaded. }
  assert (s' = (let '(books, bh) := _load_books (delete_book book_id w) (book_objects s) in
                mk (commit (execute (_conn s) (delete_book book_id w))) bh
                   (user_objects s) books (_users s) (_librarians s) (_loans s)
                   (_authors s))) as Hs'.
  { unfold s', remove_book. rewrite bool_decide_eq_true_2 by done.
    fold w. cbv zeta. by destruct (_load_books _ _). }
  split_and!.
  - intros _. split_and!.
    + intros (a & b & Ha & Hb & Hbid).
      assert (Some b ∈ listed_books s') as Hin.
      { unfold listed_books. rewrite <- Hb.
        by apply (list_elem_of_fmap_2 (λ a, book_objects s' !! a)). }
      rewrite Hlisted in Hin.
      apply list_elem_of_fmap in Hin as (b' & [= <-] & Hin).
      apply list_elem_of_omap in Hin as (r & Hr & Hrow).
      apply book_of_row_Some in Hrow as [Hrid _].
      simpl in Hr. apply list_elem_of_filter in Hr as [Hne _]. congruence.
    + rewrite Hs'. destruct (_load_books _ _). simpl.
      by intros r [Hne _]%list_elem_of_filter.
    + rewrite Hs'. by destruct (_load_books _ _).
    + rewrite Hs'. by destruct (_load_books _ _).
    + rewrite Hs'. by destruct (_load_books _ _).
  - rewrite Hs'. by destruct (_load_books _ _).
  - rewrite Hs'. by destruct (_load_books _ _).
  - rewrite Hs'. by destruct (_load_books _ _).
  - rewrite Hs'. by destruct (_load_books _ _).
  - rewrite Hs'. by destruct (_load_books _ _).
Qed.

Lemma select_book_update_where db (f : BookRow → BookRow) k id0 seq :
  (∀ r, br_id (f r) = br_id r) →
  select_book (set_books db (update_where (λ r, br_id r = id0) f (books db)) seq) k
    = (if decide (k = id0) then f else id) <$> select_book db k.
Proof.
  intros Hid. unfold select_book, update_where. simpl.
  rewrite list_find_fmap.
  rewrite (list_find_ext _ (λ r, br_id r = k)).
  - destruct (list_find _ (books db)) as [[i r]|] eqn:E; [|done]. simpl.
    apply list_find_Some in E as (_ & Hk & _). simpl in Hk. subst k.
    by repeat case_decide.
  - intros r. simpl. case_decide; [by rewrite Hid|done].
Qed.





(** ** The users *)

Lemma find_snd_cons {A} (P : A → Prop) `{∀ x, Decision (P x)} x (l : list A) :
  snd <$> list_find P (x :: l)
    = if decide (P x) then Some x else snd <$> list_find P l.
Proof.
  simpl. destruct (decide (P x)); [done|].
  by destruct (list_find P l) as [[]|].
Qed.

Lemma find_snd_filter {A} (P Q : A → Prop) `{∀ x, Decision (P x)}
    `{∀ x, Decision (Q x)} (l : list A) :
  (∀ x, P x → Q x) →
  snd <$> list_find P (filter Q l) = snd <$> list_find P l.
Proof.
  intros HPQ. induction l as [|x l IH]; [done|].
  rewrite filter_cons. destruct (decide (Q x)) as [HQ|HQ].
  - rewrite !find_snd_cons. by rewrite IH.
  - rewrite find_snd_cons. rewrite decide_False by (intros HP; by apply HQ, HPQ).
    done.
Qed.


Lemma select_user_delete user_id db k :
  select_user (Sqlite.delete_user user_id db) k
    = if decide (k = user_id) then None else select_user db k.
Proof.
  unfold select_user, Sqlite.delete_user. simpl. case_decide as Hk.
  - subst k.
    assert (list_find (λ r, ur_id r = user_id)
              (filter (λ r, ur_id r ≠ user_id) (users db)) = None) as ->; [|done].
    apply list_find_None, list.Forall_forall.
    by intros r [? _]%list_elem_of_filter.
  - apply find_snd_filter. intros r Hr. simpl. congruence.
Qed.


Section FirstWithIdMore.

Context {A : Type} (get_id : A → Z).

Lemma first_with_id_filter_out heap refs id :
  first_with_id get_id heap
    (filter (λ a, get_id <$> heap !! a ≠ Some id) refs) id = None.
Proof.
  apply first_with_id_None. intros a o [Ha _]%list_elem_of_filter Ho Hid.
  apply Ha. rewrite Ho. simpl. by rewrite Hid.
Qed.

Lemma first_with_id_filter_other heap refs id other :
  other ≠ id →
  first_with_id get_id heap
    (filter (λ a, get_id <$> heap !! a ≠ Some id) refs) other
    = first_with_id get_id heap refs other.
Proof.
  intros Hne. induction refs as [|x refs IH]; [done|].
  rewrite filter_cons. case_decide as Hx; simpl.
  - rewrite IH. done.
  - rewrite IH. destruct (heap !! x) as [o|] eqn:Ho; [|done].
    case_bool_decide as Hid; [|done].
    simpl in Hx. congruence.
Qed.

Lemma first_with_id_insert heap refs a o o' id :
  heap !! a = Some o →
  get_id o' = get_id o →
  first_with_id get_id (<[a:=o']> heap) refs id
    = (λ p, (p.1, if decide (p.1 = a) then o' else p.2))
        <$> first_with_id get_id heap refs id.
Proof.
  intros Ho Hid. induction refs as [|x refs IH]; [done|]. simpl.
  destruct (decide (x = a)) as [->|Hx].
  - rewrite list_lookup_insert_eq by by eapply lookup_lt_Some.
    rewrite Ho, Hid. case_bool_decide; [|done]. simpl. by rewrite decide_True.
  - rewrite list_lookup_insert_ne by done.
    destruct (heap !! x); [|done].
    case_bool_decide; [|done]. simpl. by rewrite decide_False.
Qed.

End FirstWithIdMore.

Lemma next_rowid_above seq ids :
  seq < next_rowid seq ids ∧ Forall (λ i, i < next_rowid seq ids) ids.
Proof.
  unfold next_rowid. split; [lia|].
  assert (Forall (λ i, i ≤ max_rowid ids) ids) as H.
  { induction ids as [|i ids IH]; [done|]. simpl. constructor; [lia|].
    eapply list.Forall_impl; [exact IH|]. simpl. intros. lia. }
  eapply list.Forall_impl; [exact H|]. simpl. intros. lia.
Qed.

(** The users table of a new engine begins with the rows of the file. *)
Lemma demo_statements_users w w' :
  demo_statements w = Ok w' →
  ∃ more, users w' = users w ++ more ∧ seq_users w ≤ seq_users w' ∧
          loans w' = loans w.
Proof.
  unfold demo_statements. intros H.
  apply bind_Ok in H as ([a1 w1] & H1 & H). cbv beta iota in H.
  apply bind_Ok in H as ([a2 w2] & H2 & H). cbv beta iota in H.
  apply bind_Ok in H as ([b1 w3] & H3 & H). cbv beta iota in H.
  apply bind_Ok in H as ([b2 w4] & H4 & H). cbv beta iota in H.
  unfold insert_author in H1, H2. unfold insert_book in H3, H4.
  repeat case_bool_decide; try done.
  injection H1 as <- <-. injection H2 as <- <-.
  injection H3 as <- <-. injection H4 as <- <-.
  injection H as <-. cbn [users seq_users set_users set_books set_authors insert_user fst snd].
  eexists. rewrite <- app_assoc. split_and!; [reflexivity| |done].
  pose proof (next_rowid_above (seq_users w) (ur_id <$> users w)) as [? _].
  match goal with |- _ ≤ next_rowid ?q ?i =>
    pose proof (next_rowid_above q i) as [? _] end.
  lia.
Qed.

Lemma init_users file :
  ∃ more, users (working (_conn (__init__ file))) = users file ++ more ∧
          seq_users file ≤ seq_users (working (_conn (__init__ file))) ∧
          loans (working (_conn (__init__ file))) = loans file.
Proof.
  destruct (init_conn file) as [[-> _]|(w & _ & Hdemo & ->)]; simpl.
  - exists []. rewrite app_nil_r. split_and!; [done|lia|done].
  - by apply demo_statements_users.
Qed.


(** X13: [delete_user] on an id within the 64-bit range returns True,
    whether or not a user has the id.  The committed users table loses
    the rows of that id and keeps the others; the user list no longer
    finds the id and finds every other id as before, so that a later
    [issue_book] for the id is refused as user not found.  The books, the
    loan rows and the loan list, also the loans of the deleted user, stay
    as they were.  On an id outside the range the call raises
    OverflowError and leaves the engine as it was. *)
Theorem delete_user_keeps_the_loans (s : LibrarySystem.t) (user_id : Z) :
  let w := working (_conn s) in
  let r := delete_user s user_id in
  (is_int64 user_id →
     r.1 = Return true ∧
     committed (_conn r.2) = working (_conn r.2) ∧
     select_user (committed (_conn r.2)) user_id = None ∧
     (∀ other, other ≠ user_id →
        select_user (committed (_conn r.2)) other = select_user w other) ∧
     found_user r.2 user_id = None ∧
     (∀ other, other ≠ user_id → found_user r.2 other = found_user s other) ∧
     (∀ now book_id,
        issue_book r.2 now user_id book_id = (None, WarnUserNotFound user_id, r.2)) ∧
     books (committed (_conn r.2)) = books w ∧
     loans (committed (_conn r.2)) = loans w ∧
     get_loans r.2 = get_loans s ∧
     listed_books r.2 = listed_books s) ∧
  (¬ is_int64 user_id → r = (Raise OverflowError, s)).
Proof.
  intros w r. unfold r, delete_user. split; intros Hid.
  - rewrite bool_decide_eq_true_2 by done. cbv zeta. cbn [fst snd].
    assert (first_with_id User.get_id (user_objects s)
              (filter (λ a, User.get_id <$> user_objects s !! a ≠ Some user_id)
                 (_users s)) user_id = None) as Hfound
      by apply first_with_id_filter_out.
    split_and!; try done.
    + simpl. rewrite select_user_delete. by rewrite decide_True.
    + intros other Hne. simpl. rewrite select_user_delete. by rewrite decide_False.
    + intros other Hne. by apply first_with_id_filter_other.
    + intros now book_id. unfold issue_book. cbn [user_objects _users].
      by rewrite Hfound.
  - by rewrite bool_decide_eq_false_2.
Qed.

(** ** What every call keeps *)

Section Kept.

Context (P : Tables → Prop).
Context (Hcat : kept_by_catalogue P) (Hlend : kept_by_lending P).

Lemma demo_statements_kept w w' : P w → demo_statements w = Ok w' → P w'.
Proof.
  unfold demo_statements. intros Hw H.
  apply bind_Ok in H as ([a1 w1] & H1 & H). cbv beta iota in H.
  apply bind_Ok in H as ([a2 w2] & H2 & H). cbv beta iota in H.
  apply bind_Ok in H as ([b1 w3] & H3 & H). cbv beta iota in H.
  apply bind_Ok in H as ([b2 w4] & H4 & H). cbv beta iota in H.
  injection H as <-.
  apply (kept_insert_user P Hlend), (kept_insert_user P Hlend).
  eapply (kept_insert_book P Hcat); [|exact H4].
  eapply (kept_insert_book P Hcat); [|exact H3].
  eapply (kept_insert_author P Hcat); [|exact H2].
  by eapply (kept_insert_author P Hcat).
Qed.

Lemma init_kept file :
  P file → P (committed (_conn (__init__ file))) ∧ P (working (_conn (__init__ file))).
Proof.
  intros Hfile.
  destruct (init_conn file) as [[-> _]|(w & _ & Hdemo & ->)]; simpl; [done|].
  split; by eapply demo_statements_kept.
Qed.

Lemma add_book_kept s title author_name author_bio year :
  P (committed (_conn s)) → P (working (_conn s)) →
  let s' := (add_book s title author_name author_bio year).2 in
  P (committed (_conn s')) ∧ P (working (_conn s')).
Proof.
  intros Hc Hw. unfold add_book, add_book_author.
  destruct (match select_author_id (working (_conn s)) author_name with
            | Some author_id => Ok (author_id, working (_conn s))
            | None => insert_author author_name author_bio (working (_conn s))
            end) as [[author_id w]|] eqn:Hauthor; [|done].
  assert (P w) as Hw'.
  { destruct (select_author_id _ _).
    - by injection Hauthor as _ <-.
    - by eapply (kept_insert_author P Hcat). }
  case_bool_decide; [|done].
  destruct (insert_book title author_id year AVAILABLE w) as [[id w'']|] eqn:Hbook;
    [|done].
  assert (P w'') by by eapply (kept_insert_book P Hcat).
  by destruct (_load_books w'' (book_objects s)).
Qed.

Lemma remove_book_kept s book_id :
  P (committed (_conn s)) → P (working (_conn s)) →
  let s' := (remove_book s book_id).2 in
  P (committed (_conn s')) ∧ P (working (_conn s')).
Proof.
  intros Hc Hw. unfold remove_book. case_bool_decide; [|done]. cbv zeta.
  pose proof (kept_delete_book P Hcat _ book_id Hw).
  by destruct (_load_books _ (book_objects s)).
Qed.

Lemma edit_book_kept s book_id title year author_bio :
  P (committed (_conn s)) → P (working (_conn s)) →
  let s' := (edit_book s book_id title year author_bio).2 in
  P (committed (_conn s')) ∧ P (working (_conn s')).
Proof.
  intros Hc Hw.
  apply (edit_book_elim s book_id title year author_bio P P
           (λ r, P (committed (_conn r.2)) ∧ P (working (_conn r.2)))).
  - done.
  - intros w t. apply (kept_update_title P Hcat).
  - done.
  - intros w y w'. apply (kept_update_year P Hcat).
  - intros w b. apply (kept_update_bio P Hcat).
  - intros w HP. cbv zeta. by destruct (_load_books w (book_objects s)).
  - done.
  - done.
Qed.

Lemma step_kept s c :
  P (committed (_conn s)) → P (working (_conn s)) →
  P (committed (_conn (step s c))) ∧ P (working (_conn (step s c))).
Proof.
  intros Hc Hw. destruct c; cbn [step].
  - by apply add_book_kept.
  - by apply remove_book_kept.
  - by apply edit_book_kept.
  - pose proof (kept_insert_user P Hlend _ name Hw). done.
  - unfold edit_user. case_bool_decide; [|done].
    pose proof (kept_update_user P Hlend _ name user_id Hw). done.
  - unfold LibrarySystem.delete_user. case_bool_decide; [|done].
    pose proof (kept_delete_user P Hlend _ user_id Hw). done.
  - unfold issue_book.
    destruct (first_with_id User.get_id _ _ _) as [[user_ref user]|]; [|done].
    destruct (first_with_id Book.get_id _ _ _) as [[book_ref book]|]; [|done].
    destruct (negb _); [done|]. case_bool_decide; [done|].
    pose proof (kept_update_status P Hlend _ ON_LOAN book_id
                  (kept_insert_loan P Hlend _ book_id user_id now Hw)).
    done.
  - unfold return_book.
    destruct (list_find _ _) as [[i loan]|]; [|done].
    destruct (Loan.get_return_date loan); [done|].
    destruct (book_objects s !! _) as [book|]; [|done].
    destruct (user_objects s !! _); [|done].
    pose proof (kept_update_status P Hlend _ AVAILABLE (Book.get_id book)
                  (kept_update_return P Hlend _ now loan_id Hw)).
    done.
  - by apply init_kept.
Qed.

Lemma run_kept s calls :
  P (committed (_conn s)) → P (working (_conn s)) →
  P (committed (_conn (run s calls))) ∧ P (working (_conn (run s calls))).
Proof.
  revert s. induction calls as [|c calls IH]; intros s Hc Hw; [done|].
  simpl. destruct (step_kept s c Hc Hw). by apply IH.
Qed.

Lemma reachable_kept file s :
  P file → reachable file s →
  P (committed (_conn s)) ∧ P (working (_conn s)).
Proof.
  intros Hfile. induction 1 as [|s c _ [IHc IHw]].
  - by apply init_kept.
  - by apply step_kept.
Qed.

End Kept.

(** ** What the connection holds from call to call *)

Lemma untitled_update_book_title title book_id w :
  untitled (update_book_title title book_id w) = untitled w.
Proof.
  unfold untitled, update_book_title, update_where. simpl. f_equal.
  rewrite <- list_fmap_compose. apply list_fmap_ext.
  intros i r _. simpl. by case_decide.
Qed.

Lemma pending_tables s :
  titles_and_authors_pending s →
  users (committed (_conn s)) = users (working (_conn s)) ∧
  loans (committed (_conn s)) = loans (working (_conn s)) ∧
  seq_users (committed (_conn s)) = seq_users (working (_conn s)) ∧
  librarians (committed (_conn s)) = librarians (working (_conn s)).
Proof.
  intros [H _]. split_and!.
  - apply (f_equal users) in H. exact H.
  - apply (f_equal loans) in H. exact H.
  - apply (f_equal seq_users) in H. exact H.
  - apply (f_equal librarians) in H. exact H.
Qed.

Lemma pending_settled s :
  committed (_conn s) = working (_conn s) → titles_and_authors_pending s.
Proof. intros H. unfold titles_and_authors_pending. by rewrite H. Qed.

Lemma pending_add_book s title author_name author_bio year :
  titles_and_authors_pending s →
  titles_and_authors_pending (add_book s title author_name author_bio year).2.
Proof.
  intros H. destruct (decide (is_int64 year)) as [Hyear|Hyear].
  - rewrite add_book_int64 by done.
    destruct (add_book_statements _ _ _ _ _) as [w|]; [|by apply pending_settled].
    apply pending_settled. by destruct (_load_books w (book_objects s)).
  - rewrite add_book_overflow by done. unfold add_book_author.
    destruct (select_author_id _ author_name) as [author_id|]; [done|].
    unfold insert_author. case_bool_decide; [by apply pending_settled|].
    destruct H as [Hu Ha]. split; simpl; [done|].
    etrans; [exact Ha|]. by apply prefix_app_r.
Qed.

Lemma pending_edit_book s book_id title year author_bio :
  titles_and_authors_pending s →
  titles_and_authors_pending (edit_book s book_id title year author_bio).2.
Proof.
  intros [Hu Ha].
  apply (edit_book_elim s book_id title year author_bio
           (λ w, untitled w = untitled (working (_conn s)) ∧
                 authors w = authors (working (_conn s)))
           (λ _, True)
           (λ r, titles_and_authors_pending r.2)).
  - done.
  - intros w t [Hw1 Hw2]. split; [|done].
    by rewrite untitled_update_book_title.
  - done.
  - done.
  - done.
  - intros w _. cbv zeta. apply pending_settled.
    by destruct (_load_books w (book_objects s)).
  - intros w e [Hw1 Hw2]. split; simpl; [by rewrite Hw1|by rewrite Hw2].
  - by apply pending_settled.
Qed.

Lemma pending_issue_book s now user_id book_id :
  titles_and_authors_pending s →
  titles_and_authors_pending (issue_book s now user_id book_id).2.
Proof.
  intros H. unfold issue_book.
  destruct (first_with_id User.get_id _ _ _) as [[user_ref user]|]; [|done].
  destruct (first_with_id Book.get_id _ _ _) as [[book_ref book]|]; [|done].
  destruct (negb _); [done|]. case_bool_decide; [done|].
  by apply pending_settled.
Qed.

Lemma pending_return_book s now loan_id :
  titles_and_authors_pending s →
  titles_and_authors_pending (return_book s now loan_id).2.
Proof.
  intros H. unfold return_book.
  destruct (list_find _ _) as [[i loan]|]; [|done].
  destruct (Loan.get_return_date loan); [done|].
  destruct (book_objects s !! _); [|done].
  destruct (user_objects s !! _); [|done].
  by apply pending_settled.
Qed.

Lemma pending_init file : titles_and_authors_pending (__init__ file).
Proof.
  apply pending_settled. by destruct (init_listed file) as (_ & _ & Hc).
Qed.

Lemma pending_step s c :
  titles_and_authors_pending s → titles_and_authors_pending (step s c).
Proof.
  intros H. destruct c; cbn [step].
  - by apply pending_add_book.
  - unfold remove_book. case_bool_decide; [|done]. cbv zeta.
    apply pending_settled. by destruct (_load_books _ (book_objects s)).
  - by apply pending_edit_book.
  - by apply pending_settled.
  - unfold edit_user. case_bool_decide; [|done]. by apply pending_settled.
  - unfold LibrarySystem.delete_user. case_bool_decide; [|done].
    by apply pending_settled.
  - by apply pending_issue_book.
  - by apply pending_return_book.
  - apply pending_init.
Qed.

Lemma reachable_pending file s : reachable file s → titles_and_authors_pending s.
Proof.
  induction 1 as [|s c _ IH]; [apply pending_init|by apply pending_step].
Qed.


(** ** The ids of the users *)

Lemma seq_users_kept seq :
  kept_by_catalogue (λ w, seq ≤ seq_users w) ∧
  kept_by_lending (λ w, seq ≤ seq_users w).
Proof.
  split; constructor; simpl; try done.
  - intros w name bio id w' Hw. unfold insert_author. case_bool_decide; [done|].
    by intros [= _ <-].
  - intros w title author_id year status id w' Hw. unfold insert_book.
    case_bool_decide; [|done]. by intros [= _ <-].
  - intros w year book_id w' Hw. unfold update_book_year.
    destruct (_ || _); [|done]. by intros [= <-].
  - intros w bio book_id Hw. unfold update_author_bio_of_book.
    by destruct (select_book w book_id).
  - intros w name Hw.
    pose proof (next_rowid_above (seq_users w) (ur_id <$> users w)) as [? _]. lia.
Qed.

(** X16: the id of a user is never given again.  Whatever calls follow
    the registration of a user, also the deletion of that user and
    restarts of the engine, a user registered later gets a larger id. *)
Theorem user_ids_are_never_reused (s : LibrarySystem.t) (name : string)
    (calls : list Call) (name' : string) :
  ∃ id id',
    registered_id s name = Some id ∧
    registered_id (run (register_user s name).2 calls) name' = Some id' ∧
    id < id'.
Proof.
  assert (∀ s0 name0,
            registered_id s0 name0
              = Some (next_rowid (seq_users (working (_conn s0)))
                        (ur_id <$> users (working (_conn s0))))) as Hid.
  { intros s0 name0. unfold registered_id, register_user, insert_user.
    cbv zeta. cbn [fst snd mbind option_bind user_objects].
    rewrite lookup_app_r by lia. by rewrite Nat.sub_diag. }
  eexists _, _. split_and!; [apply Hid|apply Hid|].
  set (s1 := (register_user s name).2).
  destruct (seq_users_kept (seq_users (working (_conn s1)))) as [Hcat Hlend].
  destruct (run_kept _ Hcat Hlend s1 calls) as [_ Hle]; [done|done|].
  pose proof (next_rowid_above (seq_users (working (_conn (run s1 calls))))
                (ur_id <$> users (working (_conn (run s1 calls))))) as [Hlt _].
  assert (seq_users (working (_conn s1))
          = next_rowid (seq_users (working (_conn s)))
              (ur_id <$> users (working (_conn s)))) as Hs1 by done.
  lia.
Qed.

(** ** The loans table as a history *)

Lemma row_kept_refl r : row_kept r r.
Proof. unfold row_kept. tauto. Qed.

Lemma row_kept_trans r1 r2 r3 : row_kept r1 r2 → row_kept r2 r3 → row_kept r1 r3.
Proof.
  unfold row_kept. intros (? & ? & ? & ? & H12) (? & ? & ? & ? & H23).
  split_and!; [congruence..|].
  destruct H12 as [?|H12]; [by left|].
  destruct H23 as [H23|H23]; [left|right]; congruence.
Qed.

Lemma history_kept_refl rows : history_kept rows rows.
Proof.
  exists rows, []. rewrite app_nil_r. split; [done|].
  apply Forall_Forall2_diag, list.Forall_forall. intros r _. apply row_kept_refl.
Qed.

Lemma history_kept_eq old new : new = old → history_kept old new.
Proof. intros ->. apply history_kept_refl. Qed.

Lemma history_kept_trans l1 l2 l3 :
  history_kept l1 l2 → history_kept l2 l3 → history_kept l1 l3.
Proof.
  intros (rows1 & more1 & -> & H1) (rows2 & more2 & -> & H2).
  apply Forall2_app_inv_l in H2 as (ra & rb & Ha & Hb & ->).
  exists ra, (rb ++ more2). rewrite app_assoc. split; [done|].
  revert ra Ha. induction H1 as [|x y l k Hxy _ IH]; intros ra Ha.
  - by inversion Ha.
  - inversion Ha as [|? z ? k' Hyz Hk]; subst. constructor.
    + by eapply row_kept_trans.
    + by apply IH.
Qed.

(** Closing the open loan of an id leaves the closed rows as they are. *)
Lemma history_kept_return db now loan_id r :
  NoDup (lo_id <$> loans db) →
  r ∈ loans db → lo_id r = loan_id → lo_return_date r = None →
  history_kept (loans db) (loans (update_loan_return_date now loan_id db)).
Proof.
  intros Hnd Hr Hid Hopen. exists (loans (update_loan_return_date now loan_id db)), [].
  rewrite app_nil_r. split; [done|].
  unfold update_loan_return_date, update_where. simpl.
  apply Forall2_fmap_r, Forall_Forall2_diag, list.Forall_forall.
  intros r' Hr'. unfold compose.
  destruct (decide (lo_id r' = loan_id)) as [Hid'|Hid']; [|apply row_kept_refl].
  assert (r' = r) as ->.
  { apply (NoDup_fmap_eq lo_id (loans db)); [done..|congruence]. }
  unfold row_kept. simpl. tauto.
Qed.

Lemma loans_kept_by_catalogue rows :
  kept_by_catalogue (λ w, loans w = rows).
Proof.
  constructor; simpl; try done.
  - intros w name bio id w' Hw. unfold insert_author. case_bool_decide; [done|].
    by intros [= _ <-].
  - intros w title author_id year status id w' Hw. unfold insert_book.
    case_bool_decide; [|done]. by intros [= _ <-].
  - intros w year book_id w' Hw. unfold update_book_year.
    destruct (_ || _); [|done]. by intros [= <-].
  - intros w bio book_id Hw. unfold update_author_bio_of_book.
    by destruct (select_book w book_id).
Qed.

Lemma step_history s c :
  consistent s → titles_and_authors_pending s →
  history_kept (loans (working (_conn s))) (loans (working (_conn (step s c)))).
Proof.
  intros Hs H.
  assert (loans (committed (_conn s)) = loans (working (_conn s))) as Hloans
    by by destruct (pending_tables s H) as (_ & ? & _).
  destruct c; cbn [step].
  - apply history_kept_eq.
    by apply (add_book_kept _ (loans_kept_by_catalogue _) s); [apply Hloans|].
  - apply history_kept_eq.
    by apply (remove_book_kept _ (loans_kept_by_catalogue _) s); [apply Hloans|].
  - apply history_kept_eq.
    by apply (edit_book_kept _ (loans_kept_by_catalogue _) s); [apply Hloans|].
  - by apply history_kept_eq.
  - unfold edit_user. case_bool_decide; [by apply history_kept_eq|].
    apply history_kept_refl.
  - unfold LibrarySystem.delete_user.
    case_bool_decide; [by apply history_kept_eq|]. apply history_kept_refl.
  - unfold issue_book.
    destruct (first_with_id User.get_id _ _ _) as [[user_ref user]|];
      [|apply history_kept_refl].
    destruct (first_with_id Book.get_id _ _ _) as [[book_ref book]|];
      [|apply history_kept_refl].
    destruct (negb _); [apply history_kept_refl|].
    case_bool_decide; [apply history_kept_refl|].
    simpl. eexists _, _. split; [reflexivity|].
    apply Forall_Forall2_diag, list.Forall_forall. intros r _. apply row_kept_refl.
  - unfold return_book.
    destruct (list_find _ (_loans s)) as [[i loan]|] eqn:Hfind;
      [|apply history_kept_refl].
    destruct (Loan.get_return_date loan) eqn:Hopen; [apply history_kept_refl|].
    destruct (book_objects s !! Loan.get_book loan) as [book|] eqn:Hb;
      [|apply history_kept_refl].
    destruct (user_objects s !! Loan.get_user loan) as [user|] eqn:Hu;
      [|apply history_kept_refl].
    destruct (found_loan_row s _ _ _ _ _ (cache_working _ Hs) Hfind Hopen Hb)
      as (r & Hr & Hid & _ & Hro).
    simpl.
    apply (history_kept_return _ now loan_id r); [|done..].
    apply (loan_ids_unique _ (working_ok _ Hs)).
  - apply history_kept_eq. unfold restart.
    destruct (init_users (committed (_conn s))) as (_ & _ & _ & ->). done.
Qed.

Lemma run_history s calls :
  consistent s → titles_and_authors_pending s →
  history_kept (loans (working (_conn s))) (loans (working (_conn (run s calls)))).
Proof.
  revert s. induction calls as [|c calls IH]; intros s Hs H.
  - apply history_kept_refl.
  - simpl. eapply history_kept_trans; [by apply (step_history s c)|].
    apply IH; [by apply consistent_step|by apply pending_step].
Qed.

(** X17: the committed loans table only grows.  From a consistent file,
    whatever calls are made, also the removal of the book, the deletion
    of the user and restarts, every loan row stays in its place with its
    id, book id, user id and issue date; a row that has a return date
    keeps that date for good, and a row without one can only receive
    one. *)
Theorem loan_rows_are_never_lost (file : Tables) (s : LibrarySystem.t)
    (calls : list Call) :
  store_ok file → reachable file s →
  history_kept (loans (committed (_conn s)))
               (loans (committed (_conn (run s calls)))).
Proof.
  intros Hok Hr.
  pose proof (reachable_consistent file s Hok Hr) as Hs.
  pose proof (reachable_pending file s Hr) as H.
  pose proof (reachable_pending file _ (reachable_run file s calls Hr)) as H'.
  destruct (pending_tables s H) as (_ & -> & _).
  destruct (pending_tables _ H') as (_ & -> & _).
  by apply run_history.
Qed.
(** ** The authors and the demo data *)

Lemma author_keys_update_bio bio book_id w :
  author_keys (update_author_bio_of_book bio book_id w) = author_keys w.
Proof.
  unfold update_author_bio_of_book, author_keys.
  destruct (select_book w book_id); [|done]. simpl.
  by apply fmap_update_where_id.
Qed.

Lemma insert_author_keys name bio w id w' :
  insert_author name bio w = Ok (id, w') →
  author_keys w' = author_keys w ++ [(id, name)] ∧ name ∉ snd <$> author_keys w.
Proof.
  unfold insert_author. case_bool_decide as Hname; [done|].
  intros [= <- <-]. unfold author_keys. simpl. rewrite fmap_app.
  split; [done|]. by rewrite <- list_fmap_compose.
Qed.

Lemma insert_author_Err name bio w e :
  insert_author name bio w = Err e → name ∈ snd <$> author_keys w.
Proof.
  unfold insert_author, author_keys. rewrite <- list_fmap_compose.
  by case_bool_decide.
Qed.

Lemma insert_book_authors title author_id year status w id w' :
  insert_book title author_id year status w = Ok (id, w') →
  authors w' = authors w.
Proof.
  unfold insert_book. case_bool_decide; [|done]. by intros [= _ <-].
Qed.

Lemma demo_statements_authors w w' :
  demo_statements w = Ok w' →
  author_keys w `prefix_of` author_keys w' ∧ seeded w' ∧ ¬ seeded w.
Proof.
  unfold demo_statements. intros H.
  apply bind_Ok in H as ([a1 w1] & H1 & H). cbv beta iota in H.
  apply bind_Ok in H as ([a2 w2] & H2 & H). cbv beta iota in H.
  apply bind_Ok in H as ([b1 w3] & H3 & H). cbv beta iota in H.
  apply bind_Ok in H as ([b2 w4] & H4 & H). cbv beta iota in H.
  injection H as <-.
  apply insert_author_keys in H1 as [Hk1 Hn1].
  apply insert_author_keys in H2 as [Hk2 Hn2].
  apply insert_book_authors in H3. apply insert_book_authors in H4.
  match goal with |- _ ∧ seeded ?t ∧ _ =>
    assert (author_keys t = author_keys w2) as Hk
      by (unfold author_keys; simpl; by rewrite H4, H3)
  end.
  unfold seeded. rewrite Hk, Hk2, Hk1. split_and!.
  - rewrite <- app_assoc. by apply prefix_app_r.
  - left. rewrite !fmap_app. apply elem_of_app. left. apply elem_of_app.
    right. by left.
  - intros [H|H]; [done|]. apply Hn2. rewrite Hk1, fmap_app.
    apply elem_of_app. by left.
Qed.

Lemma demo_statements_Err w e : demo_statements w = Err e → seeded w.
Proof.
  unfold demo_statements. intros H.
  destruct (insert_author "Лев Толстой" _ w) as [[a1 w1]|e1] eqn:H1;
    [|left; by eapply insert_author_Err].
  cbn [mbind result_bind] in H.
  destruct (insert_author "Фёдор Достоевский" _ w1) as [[a2 w2]|e2] eqn:H2.
  - exfalso. cbn [mbind result_bind] in H. unfold insert_book in H.
    rewrite !bool_decide_eq_true_2 in H by lia. done.
  - right. apply insert_author_Err in H2.
    apply insert_author_keys in H1 as [Hk1 _]. rewrite Hk1, fmap_app in H2.
    apply elem_of_app in H2 as [H2|H2]; [done|].
    apply list_elem_of_singleton in H2. done.
Qed.

Lemma prefix_seeded w w' :
  author_keys w `prefix_of` author_keys w' → seeded w → seeded w'.
Proof.
  intros [more Hk]. unfold seeded. rewrite Hk, fmap_app.
  intros [H|H]; [left|right]; apply elem_of_app; by left.
Qed.

Lemma init_authors file :
  author_keys file `prefix_of` author_keys (working (_conn (__init__ file))) ∧
  (books_of_store file = [] ∨ seeded file →
   seeded (working (_conn (__init__ file)))).
Proof.
  destruct (init_conn file) as [[-> Hwhy]|(w & Hnone & Hdemo & ->)]; simpl.
  - split; [done|]. intros [Hnone|Hseeded]; [|done].
    destruct Hwhy as [Hsome|[e Hdemo]]; [done|]. by eapply demo_statements_Err.
  - apply demo_statements_authors in Hdemo as (Hpre & Hseeded & _). done.
Qed.

Lemma keys_prefix_kept keys :
  kept_by_catalogue (λ w, keys `prefix_of` author_keys w) ∧
  kept_by_lending (λ w, keys `prefix_of` author_keys w).
Proof.
  split; constructor; simpl; try done.
  - intros w name bio id w' Hw Hins.
    apply insert_author_keys in Hins as [-> _].
    etrans; [exact Hw|]. by apply prefix_app_r.
  - intros w title author_id year status id w' Hw Hins.
    unfold author_keys. by rewrite (insert_book_authors _ _ _ _ _ _ _ Hins).
  - intros w year book_id w' Hw. unfold update_book_year.
    destruct (_ || _); [|done]. by intros [= <-].
  - intros w bio book_id Hw. by rewrite author_keys_update_bio.
Qed.

(** A property that holds on when authors are added is kept by every
    statement. *)
Lemma kept_of_author_keys (Q : Tables → Prop) :
  (∀ w w', author_keys w `prefix_of` author_keys w' → Q w → Q w') →
  kept_by_catalogue Q ∧ kept_by_lending Q.
Proof.
  intros Hmono.
  assert (∀ w, kept_by_catalogue (λ w', author_keys w `prefix_of` author_keys w'))
    as Hcat by (intros w; apply keys_prefix_kept).
  assert (∀ w, kept_by_lending (λ w', author_keys w `prefix_of` author_keys w'))
    as Hlend by (intros w; apply keys_prefix_kept).
  split; constructor.
  - intros w name bio id w' Hw Hins. apply (Hmono w); [|done].
    by apply (kept_insert_author _ (Hcat w) w name bio id w').
  - intros w title author_id year status id w' Hw Hins. apply (Hmono w); [|done].
    by apply (kept_insert_book _ (Hcat w) w title author_id year status id w').
  - intros w title book_id Hw. apply (Hmono w); [|done].
    by apply (kept_update_title _ (Hcat w) w).
  - intros w year book_id w' Hw Hupd. apply (Hmono w); [|done].
    by apply (kept_update_year _ (Hcat w) w year book_id w').
  - intros w bio book_id Hw. apply (Hmono w); [|done].
    by apply (kept_update_bio _ (Hcat w) w).
  - intros w book_id Hw. apply (Hmono w); [|done].
    by apply (kept_delete_book _ (Hcat w) w).
  - intros w name Hw. apply (Hmono w); [|done].
    by apply (kept_insert_user _ (Hlend w) w).
  - intros w name user_id Hw. apply (Hmono w); [|done].
    by apply (kept_update_user _ (Hlend w) w).
  - intros w user_id Hw. apply (Hmono w); [|done].
    by apply (kept_delete_user _ (Hlend w) w).
  - intros w book_id user_id now Hw. apply (Hmono w); [|done].
    by apply (kept_insert_loan _ (Hlend w) w).
  - intros w status book_id Hw. apply (Hmono w); [|done].
    by apply (kept_update_status _ (Hlend w) w).
  - intros w now loan_id Hw. apply (Hmono w); [|done].
    by apply (kept_update_return _ (Hlend w) w).
Qed.

Lemma reachable_seeded file s :
  books_of_store file = [] ∨ seeded file →
  reachable file s →
  seeded (committed (_conn s)) ∧ seeded (working (_conn s)).
Proof.
  intros Hfile Hr.
  destruct (kept_of_author_keys seeded prefix_seeded) as [Hcat Hlend].
  induction Hr as [|s c Hr [IHc IHw]].
  - destruct (init_listed file) as (_ & _ & Hc). rewrite Hc.
    split; by apply init_authors.
  - by apply step_kept.
Qed.

(** X18: no call removes an author or changes the id or the name of one:
    whatever calls are made, also the removal of all the books of an
    author, the ids and names of the stored authors stay, in order, at
    the head of the authors table. *)
Theorem authors_are_never_removed (file : Tables) (s : LibrarySystem.t)
    (calls : list Call) :
  reachable file s →
  author_keys (committed (_conn s))
    `prefix_of` author_keys (committed (_conn (run s calls))).
Proof.
  intros Hr.
  destruct (reachable_pending file s Hr) as [_ [more Hmore]].
  destruct (keys_prefix_kept (author_keys (committed (_conn s)))) as [Hcat Hlend].
  apply (run_kept _ Hcat Hlend s calls); [done|].
  unfold author_keys. rewrite Hmore, fmap_app. by apply prefix_app_r.
Qed.

(** X19: the demo data are inserted at most once.  When the first
    construction found no book in the file, or found an author of the
    demo data, then whatever calls follow, closing the engine and
    constructing it again leaves the committed tables as they were, also
    when every book has been removed in between. *)
Theorem restart_leaves_the_file (file : Tables) (s : LibrarySystem.t) :
  books_of_store file = [] ∨ seeded file →
  reachable file s →
  committed (_conn (restart s)) = committed (_conn s).
Proof.
  intros Hfile Hr.
  destruct (reachable_seeded file s Hfile Hr) as [Hc _].
  unfold restart.
  destruct (init_conn (committed (_conn s)))
    as [[-> _]|(w & _ & Hdemo & _)]; [done|].
  by apply demo_statements_authors in Hdemo as (_ & _ & Hno).
Qed.
(** ** The active loans *)

Lemma filter_all {A} (P : A → Prop) `{∀ x, Decision (P x)} (l : list A) :
  Forall P l → filter P l = l.
Proof.
  induction 1 as [|x l Hx _ IH]; [done|].
  rewrite filter_cons_True by done. by rewrite IH.
Qed.

Lemma active_after_close (ls : list Loan.t) i l now :
  NoDup (Loan.get_id <$> ls) → ls !! i = Some l →
  filter (λ x, Loan.get_return_date x = None) (<[i := Loan.return_book l now]> ls)
    = filter (λ x, Loan.get_id x ≠ Loan.get_id l)
        (filter (λ x, Loan.get_return_date x = None) ls).
Proof.
  revert i. induction ls as [|x ls IH]; intros [|i] Hnd Hi; try done.
  - simpl in Hi. injection Hi as ->.
    rewrite fmap_cons in Hnd. apply list.NoDup_cons in Hnd as [Hx Hnd].
    cbn [insert list_insert]. rewrite filter_cons_False by done.
    assert (filter (λ x, Loan.get_id x ≠ Loan.get_id l)
              (filter (λ x, Loan.get_return_date x = None) ls)
            = filter (λ x, Loan.get_return_date x = None) ls) as Hrest.
    { apply filter_all, list.Forall_forall.
      intros y [_ Hy]%list_elem_of_filter Hid. apply Hx. rewrite <- Hid.
      by apply list_elem_of_fmap_2. }
    rewrite (filter_cons _ l ls). case_decide.
    + rewrite filter_cons_False by (intros Hne; by apply Hne). by rewrite Hrest.
    + by rewrite Hrest.
  - simpl in Hi.
    rewrite fmap_cons in Hnd. apply list.NoDup_cons in Hnd as [Hx Hnd].
    cbn [insert list_insert]. rewrite !(filter_cons _ x). case_decide.
    + rewrite filter_cons_True.
      * f_equal. by apply IH.
      * intros Hid. apply Hx. rewrite Hid. apply list_elem_of_fmap_2.
        by eapply list_elem_of_lookup_2.
    + by apply IH.
Qed.

(** X20: in an engine reachable from a consistent file, a successful
    [issue_book] puts the new loan at the end of the active loans, and a
    successful [return_book] takes the loan of that id, which was among
    them, out of the active loans and leaves the others in their
    order. *)
Theorem active_loans_after_issue_and_return (file : Tables)
    (s : LibrarySystem.t) :
  store_ok file → reachable file s →
  (∀ now user_id book_id loan,
     (issue_book s now user_id book_id).1.1 = Some loan →
     get_active_loans (issue_book s now user_id book_id).2
       = get_active_loans s ++ [loan]) ∧
  (∀ now loan_id,
     (return_book s now loan_id).1 = true →
     (∃ loan, loan ∈ get_active_loans s ∧ Loan.get_id loan = loan_id) ∧
     get_active_loans (return_book s now loan_id).2
       = filter (λ l, Loan.get_id l ≠ loan_id) (get_active_loans s)).
Proof.
  intros Hok Hr.
  pose proof (reachable_consistent file s Hok Hr) as Hs.
  split.
  - intros now user_id book_id loan. unfold issue_book.
    destruct (first_with_id User.get_id _ _ _) as [[user_ref user]|]; [|done].
    destruct (first_with_id Book.get_id _ _ _) as [[book_ref book]|]; [|done].
    destruct (negb _); [done|]. case_bool_decide; [done|].
    unfold insert_loan. cbv zeta. cbn [fst snd]. intros [= <-].
    unfold get_active_loans. cbn [_loans].
    by rewrite list.filter_app.
  - intros now loan_id. unfold return_book.
    destruct (list_find _ (_loans s)) as [[i loan]|] eqn:Hfind; [|done].
    destruct (Loan.get_return_date loan) eqn:Hopen; [done|].
    destruct (book_objects s !! Loan.get_book loan) as [book|]; [|done].
    destruct (user_objects s !! Loan.get_user loan) as [user|]; [|done].
    intros _. apply list_find_Some in Hfind as (Hi & Hid & _).
    split.
    + exists loan. split; [|done]. unfold get_active_loans.
      apply list_elem_of_filter. split; [done|by eapply list_elem_of_lookup_2].
    + unfold get_active_loans. cbn [snd _loans]. rewrite <- Hid.
      apply active_after_close; [|done].
      apply (cached_loan_ids_unique s (working (_conn s)));
        [apply (cache_working _ Hs)|apply (working_ok _ Hs)].
Qed.
(** ** The librarians *)

Lemma librarians_kept rows :
  kept_by_catalogue (λ w, librarians w = rows) ∧
  kept_by_lending (λ w, librarians w = rows).
Proof.
  split; constructor; simpl; try done.
  - intros w name bio id w' Hw. unfold insert_author. case_bool_decide; [done|].
    by intros [= _ <-].
  - intros w title author_id year status id w' Hw. unfold insert_book.
    case_bool_decide; [|done]. by intros [= _ <-].
  - intros w year book_id w' Hw. unfold update_book_year.
    destruct (_ || _); [|done]. by intros [= <-].
  - intros w bio book_id Hw. unfold update_author_bio_of_book.
    by destruct (select_book w book_id).
Qed.

Lemma reachable_librarians file s :
  reachable file s → librarians (working (_conn s)) = librarians file.
Proof.
  intros Hr. destruct (librarians_kept (librarians file)) as [Hcat Hlend].
  by apply (reachable_kept _ Hcat Hlend file s).
Qed.

(** X21: who can log in is fixed by the file.  None of the calls of the
    engine's catalogue, users and loans, and no restart, writes the
    librarians table ([register_librarian] is the one method that does).
    After any such calls [authenticate_librarian], on an id within the
    64-bit range, answers with a new librarian made of the first row of
    the file that has the id, with that id, an empty borrowed list and
    the name and access level of the row, and with None when the file has
    no such row; so on a file without librarians, as [_create_tables] and
    the demo data leave it, every such id is refused.  On an id outside
    the range the call raises OverflowError. *)
Theorem authenticate_librarian_reads_the_file (file : Tables)
    (s : LibrarySystem.t) (librarian_id : Z) :
  reachable file s →
  (is_int64 librarian_id →
     authenticate_librarian s librarian_id
       = Return ((λ r, Librarian.new (lr_name r) (lr_id r) (lr_access_level r))
                   <$> select_librarian file librarian_id)) ∧
  (∀ l, authenticate_librarian s librarian_id = Return (Some l) →
        Librarian.get_id l = librarian_id ∧
        Librarian._borrowed_books l = [] ∧
        ∃ r, r ∈ librarians file ∧ lr_id r = librarian_id ∧
             Librarian.get_name l = lr_name r ∧
             Librarian.get_access_level l = lr_access_level r) ∧
  (is_int64 librarian_id → librarians file = [] →
     authenticate_librarian s librarian_id = Return None) ∧
  (¬ is_int64 librarian_id →
     authenticate_librarian s librarian_id = Raise OverflowError).
Proof.
  intros Hr. unfold authenticate_librarian, select_librarian.
  rewrite (reachable_librarians file s Hr).
  split_and!.
  - intros Hid. by rewrite bool_decide_eq_true_2.
  - intros l. case_bool_decide; [|done].
    destruct (list_find _ (librarians file)) as [[i r]|] eqn:Hfind; [|done].
    apply list_find_Some in Hfind as (Hi & Hid & _).
    intros [= <-]. split_and!; [done|done|].
    exists r. split_and!; [by eapply list_elem_of_lookup_2|done..].
  - intros Hid ->. by rewrite bool_decide_eq_true_2.
  - intros Hid. by rewrite bool_decide_eq_false_2.
Qed.
(** ** Issue, then return *)

Lemma remove_first_perm book (l : list nat) :
  book ∈ l → book :: User.remove_first book l ≡ₚ l.
Proof.
  induction l as [|x l IH]; [by intros ?%elem_of_nil|].
  simpl. case_bool_decide as Hx.
  - by subst x.
  - intros [->|Hin]%elem_of_cons; [done|].
    rewrite Permutation_swap. by rewrite IH.
Qed.

Lemma select_book_is_Some db book_id r :
  r ∈ books db → br_id r = book_id → is_Some (select_book db book_id).
Proof.
  intros Hr Hid. unfold select_book.
  destruct (list_find_elem_of (λ r, br_id r = book_id) (books db) r Hr Hid)
    as [[i r'] ->].
  by eexists.
Qed.

Lemma select_book_update_status status book_id db k :
  select_book (update_book_status status book_id db) k
    = (if decide (k = book_id)
       then λ r, mkBookRow (br_id r) (br_title r) (br_author_id r) (br_year r) status
       else id) <$> select_book db k.
Proof. by apply select_book_update_where. Qed.

(** X22: in an engine reachable from a consistent file, the loan that
    [issue_book] has just made can be returned at once: [return_book] on
    its id returns True, the active loans are those of before the issue,
    the book is available again in the book list and in the committed
    table, and the borrowed list of the user holds the books it held
    before. *)
Theorem issue_then_return_restores (file : Tables) (s : LibrarySystem.t)
    (now now' : datetime) (user_id book_id : Z) (loan : Loan.t) :
  store_ok file → reachable file s →
  (issue_book s now user_id book_id).1.1 = Some loan →
  let s1 := (issue_book s now user_id book_id).2 in
  let r := return_book s1 now' (Loan.get_id loan) in
  r.1 = true ∧
  get_active_loans r.2 = get_active_loans s ∧
  cached_status r.2 book_id = Some AVAILABLE ∧
  stored_status r.2 book_id = Some AVAILABLE ∧
  ∃ before after,
    borrowed_by s user_id = Some before ∧
    borrowed_by r.2 user_id = Some after ∧
    after ≡ₚ before.
Proof.
  intros Hok Hr Hissue s1 r.
  pose proof (reachable_consistent file s Hok Hr) as Hs.
  pose proof (consistent_issue_book s now user_id book_id Hs) as Hs1.
  fold s1 in Hs1.
  unfold issue_book in Hissue, s1.
  destruct (first_with_id User.get_id (user_objects s) (_users s) user_id)
    as [[user_ref user]|] eqn:Hu; [|done].
  destruct (first_with_id Book.get_id (book_objects s) (_books s) book_id)
    as [[book_ref book]|] eqn:Hb; [|done].
  destruct (negb (Book.is_available book)); [done|].
  case_bool_decide as Hlimit; [done|].
  unfold insert_loan in Hissue, s1. cbv zeta in Hissue, s1.
  cbn [fst snd] in Hissue, s1. injection Hissue as Hloan.
  destruct (first_with_id_Some _ _ _ _ _ _ Hu) as (Hur & Hu' & Huid).
  destruct (first_with_id_Some _ _ _ _ _ _ Hb) as (Hbr & Hb' & Hbid).
  assert (loan ∈ get_loans s1) as Hin.
  { unfold s1, get_loans. cbn [_loans]. apply elem_of_app. right.
    rewrite Hloan. by left. }
  assert (Loan.get_return_date loan = None) as Hopen by by rewrite <- Hloan.
  assert (Loan.get_book loan = book_ref) as Hlb by by rewrite <- Hloan.
  assert (Loan.get_user loan = user_ref) as Hlu by by rewrite <- Hloan.
  destruct (return_book_open s1 now' loan Hs1 Hin Hopen)
    as (i & book1 & user1 & Hi & Hb1 & Hu1 & Hret).
  rewrite Hlb in Hb1, Hret. rewrite Hlu in Hu1, Hret.
  assert (book1 = Book.set_status book ON_LOAN) as Hbook1.
  { unfold s1 in Hb1. cbn [book_objects] in Hb1.
    rewrite list_lookup_insert_eq in Hb1 by by eapply lookup_lt_Some.
    by injection Hb1. }
  assert (user1 = User.mk (User.get_name user) (User.get_id user)
                    (User.get_borrowed_books user ++ [book_ref])) as Huser1.
  { unfold s1 in Hu1. cbn [user_objects] in Hu1.
    rewrite list_lookup_insert_eq in Hu1 by by eapply lookup_lt_Some.
    injection Hu1 as <-. unfold User.borrow_book.
    rewrite bool_decide_eq_true_2; [done|].
    unfold User.get_borrowed_books in Hlimit. unfold User.MAX_BOOKS in *. lia. }
  assert (NoDup (Loan.get_id <$> _loans s1)) as Hnd.
  { apply (cached_loan_ids_unique s1 (working (_conn s1)));
      [apply (cache_working _ Hs1)|apply (working_ok _ Hs1)]. }
  unfold r. rewrite Hret. cbn [fst snd]. split_and!.
  - done.
  - unfold get_active_loans. cbn [_loans].
    rewrite (active_after_close _ i loan now' Hnd Hi).
    unfold s1 in Hnd |- *. cbn [_loans] in Hnd |- *.
    rewrite list.filter_app, list.filter_app.
    rewrite fmap_app in Hnd. apply list.NoDup_app in Hnd as (_ & Hfresh & _).
    rewrite (filter_all (λ x, Loan.get_id x ≠ Loan.get_id loan)).
    + rewrite <- (app_nil_r (filter _ (_loans s))) at 2. f_equal.
      rewrite Hloan. rewrite filter_cons_True by by rewrite <- Hloan.
      rewrite filter_cons_False by (intros Hne; by apply Hne). done.
    + apply list.Forall_forall. intros l [_ Hl]%list_elem_of_filter Hid.
      apply (Hfresh (Loan.get_id l)); [by apply list_elem_of_fmap_2|].
      rewrite Hid, Hloan. by left.
  - unfold cached_status, found_book. cbn [book_objects _books].
    rewrite (first_with_id_insert Book.get_id _ _ book_ref book1) by done.
    unfold s1. cbn [book_objects _books].
    rewrite (first_with_id_insert Book.get_id _ _ book_ref book) by done.
    rewrite Hb. simpl. by rewrite decide_True.
  - unfold stored_status. cbn [_conn committed commit execute working].
    rewrite select_book_update_status.
    assert (Book.get_id book1 = book_id) as -> by by rewrite Hbook1.
    rewrite decide_True by done.
    unfold s1. cbn [_conn committed commit execute working].
    assert (∀ db, select_book (update_loan_return_date now' (Loan.get_id loan) db)
                    book_id = select_book db book_id) as -> by done.
    rewrite select_book_update_status, decide_True by done.
    destruct (cached_book_row s (working (_conn s)) book_ref book
                (cache_working _ Hs) Hbr Hb') as (row & Hrow & Hrid).
    destruct (select_book_is_Some (working (_conn s)) book_id row Hrow)
      as [row' Hsel]; [congruence|].
    assert (∀ db rows seq, select_book (set_loans db rows seq) book_id
                           = select_book db book_id) as -> by done.
    by rewrite Hsel.
  - exists (User.get_borrowed_books user),
           (User.remove_first book_ref (User.get_borrowed_books user ++ [book_ref])).
    split_and!.
    + unfold borrowed_by, found_user. by rewrite Hu.
    + unfold borrowed_by, found_user. cbn [user_objects _users].
      rewrite (first_with_id_insert User.get_id _ _ user_ref user1);
        [|done|by unfold User.return_book; case_bool_decide].
      unfold s1. cbn [user_objects _users].
      rewrite (first_with_id_insert User.get_id _ _ user_ref user);
        [|done|by unfold User.borrow_book; case_bool_decide].
      rewrite Hu. simpl. rewrite !decide_True by done.
      rewrite Huser1. unfold User.return_book. simpl.
      rewrite bool_decide_eq_true_2; [done|].
      apply elem_of_app. right. by left.
    + apply Permutation_cons_inv with book_ref.
      rewrite remove_first_perm by (apply elem_of_app; right; by left).
      by rewrite Permutation_app_comm.
Qed.
(** ** Loans whose user is gone *)

(** Every loan of a new engine comes from a row of the file that resolves. *)
Lemma init_loan_rows file l :
  l ∈ get_loans (__init__ file) →
  ∃ r, r ∈ loans file ∧ resolves file r ∧ lo_id r = Loan.get_id l.
Proof.
  assert (loan_fields <$> get_loans (__init__ file)
          = row_fields <$> filter (resolves file) (loans file)) as Hfields.
  { unfold __init__. cbv zeta. change (working (connect file)) with file.
    destruct (_load_books file []) as [books bh0].
    destruct (_load_users file []) as [users uh0].
    pose proof (load_loans_fields file (loans file) bh0 uh0) as Hloans.
    destruct (_load_loans file (loans file) bh0 uh0) as [[ls bh] uh].
    simpl in Hloans. destruct books; [|done].
    unfold _init_demo_data. cbn [_conn working connect book_objects user_objects].
    destruct (demo_statements file) as [w|]; [|done].
    destruct (_load_books w bh) as [books' bh'].
    by destruct (_load_users w uh) as [users' uh']. }
  intros Hl.
  assert (loan_fields l ∈ row_fields <$> filter (resolves file) (loans file))
    as Hin by (rewrite <- Hfields; by apply list_elem_of_fmap_2).
  apply list_elem_of_fmap in Hin as (r & Hr & [Hres Hin]%list_elem_of_filter).
  exists r. split_and!; [done|done|].
  unfold loan_fields, row_fields in Hr. congruence.
Qed.

(** X23: deleting a user strands the loans of that user.  In an engine
    reachable from a consistent file, let a loan row belong to the user
    that [delete_user] deletes, the id being within the 64-bit range.  After the next restart the row is still
    in the loans table, but the loan list has no loan of its id, so
    [return_book] on that id returns False and changes nothing; and if
    the row has no return date, [issue_book] lends its book to no one. *)
Theorem loan_of_a_deleted_user_is_stranded (file : Tables) (s : LibrarySystem.t)
    (user_id : Z) (row : LoanRow) :
  store_ok file → reachable file s →
  row ∈ loans (committed (_conn s)) → lo_user_id row = user_id →
  is_int64 user_id →
  let s' := restart (delete_user s user_id).2 in
  row ∈ loans (committed (_conn s')) ∧
  (∀ l, l ∈ get_loans s' → Loan.get_id l ≠ lo_id row) ∧
  (∀ now, return_book s' now (lo_id row) = (false, s')) ∧
  (lo_return_date row = None →
   ∀ now uid, (issue_book s' now uid (lo_book_id row)).1.1 = None).
Proof.
  intros Hok Hr Hrow Huser Hfits s'.
  pose proof (reachable_consistent file s Hok Hr) as Hs.
  pose proof (reachable_pending file s Hr) as Hp.
  destruct (pending_tables s Hp) as (_ & Hloans & _).
  set (f2 := committed (_conn (delete_user s user_id).2)).
  assert (store_ok f2) as Hok2
    by apply (committed_ok _ (consistent_delete_user s user_id Hs)).
  assert (f2 = Sqlite.delete_user user_id (working (_conn s))) as Hf2.
  { unfold f2, delete_user. by rewrite bool_decide_eq_true_2. }
  assert (row ∈ loans f2) as Hrow2 by (rewrite Hf2; simpl; by rewrite <- Hloans).
  assert (¬ resolves f2 row) as Hgone.
  { intros [_ [u Hu]]. unfold _get_user_by_id in Hu. rewrite Huser in Hu.
    rewrite Hf2 in Hu.
    rewrite select_user_delete, decide_True in Hu by done. done. }
  assert (s' = __init__ f2) as Hs' by done.
  pose proof (consistent___init__ f2 Hok2) as Hcons. rewrite <- Hs' in Hcons.
  assert (loans (working (_conn s')) = loans f2) as Hl'.
  { rewrite Hs'. by destruct (init_users f2) as (_ & _ & _ & ->). }
  assert (committed (_conn s') = working (_conn s')) as Hc'.
  { rewrite Hs'. by destruct (init_listed f2) as (_ & _ & ->). }
  assert (∀ l, l ∈ get_loans s' → Loan.get_id l ≠ lo_id row) as Hnone.
  { intros l Hl Hid. rewrite Hs' in Hl.
    destruct (init_loan_rows f2 l Hl) as (r & Hrin & Hres & Hrid).
    assert (r = row) as ->; [|done].
    apply (NoDup_fmap_eq lo_id (loans f2)); [|done|done|congruence].
    apply (loan_ids_unique _ Hok2). }
  split_and!.
  - by rewrite Hc', Hl'.
  - done.
  - intros now. apply return_book_not_open. intros l Hl Hid.
    by destruct (Hnone l Hl).
  - intros Hopen now uid. unfold issue_book.
    destruct (first_with_id User.get_id _ _ uid) as [[user_ref user]|]; [|done].
    fold (found_book s' (lo_book_id row)).
    destruct (found_book s' (lo_book_id row)) as [[book_ref book]|] eqn:Hb;
      [|done].
    destruct (Book.is_available book) eqn:Hav; [|done]. exfalso.
    apply is_available_status in Hav.
    destruct (found_book_issuable s' (working (_conn s')) _ _ _
                (cache_working _ Hcons) (working_ok _ Hcons) Hb Hav) as [Hno _].
    assert (row ∈ open_rows_on (working (_conn s')) (lo_book_id row)) as Hin.
    { unfold open_rows_on. apply list_elem_of_filter. by rewrite Hl'. }
    rewrite Hno in Hin. by apply elem_of_nil in Hin.
Qed.
(** ** Further theorems at work on the demo data *)




Lemma loan_rows_are_never_lost_witness :
  let s := run fresh_engine [IssueBook 100 1 1] in
  let calls := [ReturnBook 200 1; RemoveBook 1; DeleteUser 1; Restart] in
  store_ok Sqlite.empty ∧ reachable Sqlite.empty s ∧
  history_kept (loans (committed (_conn s)))
               (loans (committed (_conn (run s calls)))).
Proof.
  intros s calls.
  assert (reachable Sqlite.empty s) as Hr by apply reachable_run, reachable_init.
  split; [apply store_ok_empty|]. split; [exact Hr|].
  exact (loan_rows_are_never_lost Sqlite.empty s calls store_ok_empty Hr).
Defined.

Lemma authors_are_never_removed_witness :
  let s := fresh_engine in
  let calls := [RemoveBook 1; RemoveBook 2; Restart] in
  reachable Sqlite.empty s ∧
  author_keys (committed (_conn s))
    `prefix_of` author_keys (committed (_conn (run s calls))).
Proof.
  intros s calls.
  assert (reachable Sqlite.empty s) as Hr by apply reachable_init.
  split; [exact Hr|].
  exact (authors_are_never_removed Sqlite.empty s calls Hr).
Defined.

Lemma restart_leaves_the_file_witness :
  let s := run fresh_engine [RemoveBook 1; RemoveBook 2] in
  (books_of_store Sqlite.empty = [] ∨ seeded Sqlite.empty) ∧
  reachable Sqlite.empty s ∧
  committed (_conn (restart s)) = committed (_conn s).
Proof.
  intros s.
  assert (books_of_store Sqlite.empty = [] ∨ seeded Sqlite.empty) as Hfile
    by (left; reflexivity).
  assert (reachable Sqlite.empty s) as Hr by apply reachable_run, reachable_init.
  split; [exact Hfile|]. split; [exact Hr|].
  exact (restart_leaves_the_file Sqlite.empty s Hfile Hr).
Defined.

Lemma active_loans_after_issue_and_return_witness :
  let s := run fresh_engine [IssueBook 100 1 1; IssueBook 200 2 2] in
  store_ok Sqlite.empty ∧ reachable Sqlite.empty s ∧
  (return_book s 300 1).1 = true ∧
  get_active_loans (return_book s 300 1).2
    = filter (λ l, Loan.get_id l ≠ 1) (get_active_loans s).
Proof.
  intros s.
  assert (reachable Sqlite.empty s) as Hr by apply reachable_run, reachable_init.
  assert ((return_book s 300 1).1 = true) as Hret by (by vm_compute).
  split; [apply store_ok_empty|]. split; [exact Hr|]. split; [exact Hret|].
  destruct (active_loans_after_issue_and_return Sqlite.empty s store_ok_empty Hr)
    as [_ Hreturn].
  destruct (Hreturn 300 1 Hret) as [_ Hactive].
  exact Hactive.
Defined.

Lemma authenticate_librarian_reads_the_file_witness :
  let file := mkTables [] [] [] [mkLibrarianRow 7 "Анна Смирнова" 1] [] 0 0 0 0 in
  let s := run (__init__ file) [RegisterUser "Пётр Сидоров"; IssueBook 100 1 1] in
  reachable file s ∧
  is_int64 7 ∧
  authenticate_librarian s 7
    = Return ((λ r, Librarian.new (lr_name r) (lr_id r) (lr_access_level r))
                <$> select_librarian file 7) ∧
  select_librarian file 7 = Some (mkLibrarianRow 7 "Анна Смирнова" 1).
Proof.
  intros file s.
  assert (reachable file s) as Hr by apply reachable_run, reachable_init.
  assert (is_int64 7) as Hid by (unfold is_int64; lia).
  split; [exact Hr|]. split; [exact Hid|].
  destruct (authenticate_librarian_reads_the_file file s 7 Hr) as (Hfound & _).
  split; [exact (Hfound Hid)|reflexivity].
Defined.

Lemma issue_then_return_restores_witness :
  let s := fresh_engine in
  let loan := Loan.mk 1 0 0 100 None in
  let s1 := (issue_book s 100 1 1).2 in
  let r := return_book s1 200 (Loan.get_id loan) in
  store_ok Sqlite.empty ∧ reachable Sqlite.empty s ∧
  (issue_book s 100 1 1).1.1 = Some loan ∧
  r.1 = true ∧
  get_active_loans r.2 = get_active_loans s ∧
  cached_status r.2 1 = Some AVAILABLE ∧
  stored_status r.2 1 = Some AVAILABLE.
Proof.
  intros s loan s1 r.
  assert (reachable Sqlite.empty s) as Hr by apply reachable_init.
  assert ((issue_book s 100 1 1).1.1 = Some loan) as Hissue by (by vm_compute).
  split; [apply store_ok_empty|]. split; [exact Hr|]. split; [exact Hissue|].
  destruct (issue_then_return_restores Sqlite.empty s 100 200 1 1 loan
              store_ok_empty Hr Hissue) as (H1 & H2 & H3 & H4 & _).
  split; [exact H1|]. split; [exact H2|]. split; [exact H3|exact H4].
Defined.

Lemma loan_of_a_deleted_user_is_stranded_witness :
  let s := run fresh_engine [IssueBook 100 1 1] in
  let row := mkLoanRow 1 1 1 100 None in
  let s' := restart (delete_user s 1).2 in
  store_ok Sqlite.empty ∧ reachable Sqlite.empty s ∧
  row ∈ loans (committed (_conn s)) ∧ lo_user_id row = 1 ∧ is_int64 1 ∧
  row ∈ loans (committed (_conn s')) ∧
  return_book s' 200 (lo_id row) = (false, s') ∧
  (issue_book s' 300 2 (lo_book_id row)).1.1 = None.
Proof.
  intros s row s'.
  assert (reachable Sqlite.empty s) as Hr by apply reachable_run, reachable_init.
  assert (row ∈ loans (committed (_conn s))) as Hrow by (vm_compute; left).
  split; [apply store_ok_empty|]. split; [exact Hr|]. split; [exact Hrow|].
  assert (is_int64 1) as Hfits by (unfold is_int64; lia).
  split; [reflexivity|]. split; [exact Hfits|].
  destruct (loan_of_a_deleted_user_is_stranded Sqlite.empty s 1 row
              store_ok_empty Hr Hrow eq_refl Hfits) as (H1 & _ & H2 & H3).
  split; [exact H1|]. split; [exact (H2 200)|exact (H3 eq_refl 300 2)].
Defined.
